(** * ε-NFA to NFA conversion: a shallow embedding of [services/nfaConverter.ts]

    The development follows the source file function by function:
    [computeStateEpsilonClosure], [computeAllEpsilonClosures] and
    [convertENFAToNFA], over the records of [types.ts].  Module [App] has
    the handlers of the editor of [App.tsx] and the events of its page,
    module [Visualizer] the grouping of the transitions into the links of
    [components/AutomatonVisualizer.tsx].

    Modelling conventions.
    - A JavaScript string is a [string] that holds its UTF-8 encoding, as a
      string literal of this file does; [===] on strings is [=].  The
      default order of [Array.prototype.sort] compares two strings by their
      UTF-16 code units, the first difference deciding and a prefix coming
      first: [codeUnits] decodes the bytes into these code units and
      [codeUnitLe] compares them.  It is the order of the bytes except
      between a character beyond U+FFFF, which is a pair of surrogates in
      UTF-16, and a character from U+E000 to U+FFFF.
    - An array is a [list], in index order.  The array methods the source
      calls on its argument ([filter], [map], [forEach], [find], [some],
      [includes]) and [for .. of] do not write to the array, so they are
      functions on lists; the objects the source does write to ([closure],
      [stack], [map], [newTransitions], [reachedAfterSymbol],
      [finalReached]) are all created by the call and threaded through the
      loops as accumulators.  Module [Heap] gives the same three functions
      with these objects as cells of a heap, and [convertENFAToNFA_run]
      relates the two.
    - A [Set<string>] is the list of its members in insertion order (the
      order in which [forEach], [for .. of] and [Array.from] visit them);
      [add] appends a member that is not yet present.
    - A [Map<string, string[]>] is the list of its entries in insertion
      order, each key once.
    - The object [EpsilonClosureMap] is a [gmap string (list string)]:
      [map[k] = v] is an insert and [map[k]] a lookup.  A key that was never
      assigned yields [undefined], or a member inherited from the prototype
      of the object, none of which has a [forEach] or [some] method or is
      iterable the way the source needs: the use that follows the lookup
      throws a [TypeError].  This is the one way the functions below can
      fail, and it is kept as the [TypeError] outcome.  The [gmap] has what
      [map[k]] evaluates to and nothing more: which of the keys are
      properties of the object itself is the matter of module [JSObject],
      where an assignment to the key [__proto__] sets the prototype of the
      object and creates no property. *)

From Stdlib Require Import Ascii.
From Equations Require Import Equations.
From stdpp Require Import gmap strings list sorting relations.

Local Open Scope string_scope.
Local Open Scope nat_scope.
Local Open Scope list_scope.

(** ** The data model of [types.ts] *)

Record Transition : Type := mkTransition {
  from : string;
  to : string;
  symbol : string
}.

Record Automaton : Type := mkAutomaton {
  states : list string;
  alphabet : list string;
  transitions : list Transition;
  initialState : string;
  finalStates : list string
}.

Abbreviation EpsilonClosureMap := (gmap string (list string)).

Definition EPSILON : string := "ε".

Global Instance Transition_eq_dec : EqDecision Transition.
Proof. solve_decision. Defined.

Global Instance Automaton_eq_dec : EqDecision Automaton.
Proof. solve_decision. Defined.

(** ** Outcomes: a call returns a value or throws *)

Inductive outcome (A : Type) : Type :=
  | Returned (a : A)
  | TypeError.
Arguments Returned {A} a.
Arguments TypeError {A}.

Global Instance outcome_ret : MRet outcome := λ A a, Returned a.

Global Instance outcome_bind : MBind outcome := λ A B k m,
  match m with
  | Returned a => k a
  | TypeError => TypeError
  end.

(** A loop over an array whose body may throw: the first throw ends it. *)
Fixpoint foldlM {A B : Type} (body : B → A → outcome B) (acc : B) (l : list A)
    : outcome B :=
  match l with
  | [] => Returned acc
  | x :: l' => acc' ← body acc x; foldlM body acc' l'
  end.

(** [Array.prototype.filter] with a predicate that may throw. *)
Fixpoint filterM {A : Type} (p : A → outcome bool) (l : list A) : outcome (list A) :=
  match l with
  | [] => Returned []
  | x :: l' =>
      keep ← p x;
      rest ← filterM p l';
      Returned (if (keep : bool) then x :: rest else rest)
  end.

(** [obj[k]] followed by a use of the value as an array. *)
Definition getArray (m : EpsilonClosureMap) (k : string) : outcome (list string) :=
  match m !! k with
  | Some v => Returned v
  | None => TypeError
  end.

(** ** Sets of strings in insertion order *)

Definition set_add (x : string) (s : list string) : list string :=
  if decide (x ∈ s) then s else s ++ [x].

(** ** The order of [Array.prototype.sort]

    Without a comparison function [sort] orders strings by [x < y], the
    lexicographic order of their UTF-16 code units. *)

(** The UTF-16 code units of the string whose UTF-8 encoding is [s]: a
    byte below [0xC0] is a character of its own, a byte below [0xE0] begins a
    character of two bytes, a byte below [0xF0] one of three, and any other
    byte one of four, which is beyond U+FFFF and makes a high and a low
    surrogate.  (On bytes that are no UTF-8 encoding, of which a JavaScript
    string has none, a sequence cut short is kept byte by byte.) *)
Fixpoint codeUnits (s : string) : list N :=
  match s with
  | EmptyString => []
  | String c0 s1 =>
      let b0 := N_of_ascii c0 in
      if (b0 <? 192)%N then b0 :: codeUnits s1
      else
        match s1 with
        | EmptyString => [b0]
        | String c1 s2 =>
            let b1 := N_of_ascii c1 in
            if (b0 <? 224)%N then (b0 mod 32 * 64 + b1 mod 64)%N :: codeUnits s2
            else
              match s2 with
              | EmptyString => [b0; b1]
              | String c2 s3 =>
                  let b2 := N_of_ascii c2 in
                  if (b0 <? 240)%N
                  then (b0 mod 16 * 4096 + b1 mod 64 * 64 + b2 mod 64)%N
                       :: codeUnits s3
                  else
                    match s3 with
                    | EmptyString => [b0; b1; b2]
                    | String c3 s4 =>
                        let b3 := N_of_ascii c3 in
                        let point :=
                          (b0 mod 8 * 262144 + b1 mod 64 * 4096
                           + b2 mod 64 * 64 + b3 mod 64)%N in
                        (55296 + (point - 65536) / 1024)%N
                        :: (56320 + (point - 65536) mod 1024)%N
                        :: codeUnits s4
                    end
              end
        end
  end.

(** [x <= y] on sequences of code units: the first difference decides, and a
    prefix comes first. *)
Fixpoint lexLe (l1 l2 : list N) : bool :=
  match l1, l2 with
  | [], _ => true
  | _ :: _, [] => false
  | x :: l1', y :: l2' => (x <? y)%N || ((x =? y)%N && lexLe l1' l2')
  end.

(** [!(y < x)] on strings. *)
Definition codeUnitLe (s1 s2 : string) : Prop :=
  lexLe (codeUnits s1) (codeUnits s2) = true.

Global Instance codeUnitLe_dec : RelDecision codeUnitLe.
Proof. intros s1 s2. unfold codeUnitLe. apply _. Defined.

(** ** [computeStateEpsilonClosure] *)

(** The test of line 17: [t.symbol === "" || t.symbol === "ε"]. *)
Definition isEpsilon (s : string) : bool :=
  bool_decide (s = "") || bool_decide (s = "ε").

(** Lines 16-18: the [to] of every epsilon transition leaving [current]. *)
Definition epsilonMoves (ts : list Transition) (current : string) : list string :=
  to <$> filter (λ t, from t = current ∧ isEpsilon (symbol t)) ts.

(** Lines 21-24, on the pair of the [closure] set and the [stack]; the
    stack is kept with its top (the end of the array) first. *)
Definition visit (cs : list string * list string) (next : string)
    : list string * list string :=
  if decide (next ∈ cs.1) then cs else (cs.1 ++ [next], next :: cs.2).

(** Lines 15-25: one iteration of the [while], after [current] was popped. *)
Definition loop_body (ts : list Transition) (closure : list string)
    (current : string) (rest : list string) : list string * list string :=
  foldl visit (closure, rest) (epsilonMoves ts current).

(** Members of [pool] that are not in the closure yet. *)
Definition unseen (pool closure : list string) : nat :=
  length (filter (λ x, x ∉ closure) pool).

Definition loop_measure (ts : list Transition) (cs : list string * list string) : nat :=
  unseen (to <$> ts) cs.1 + length cs.2.

(** *** The loop makes progress *)

Lemma unseen_add_le (pool closure : list string) (next : string) :
  unseen pool (closure ++ [next]) ≤ unseen pool closure.
Proof.
  unfold unseen. induction pool as [|x pool IH]; [done|].
  rewrite !filter_cons.
  destruct (decide (x ∉ closure ++ [next])) as [Hx|Hx];
    destruct (decide (x ∉ closure)) as [Hc|Hc]; simpl; try lia.
  exfalso. apply Hc. intros Hin. apply Hx, elem_of_app. by left.
Qed.

Lemma unseen_add_lt (pool closure : list string) (next : string) :
  next ∈ pool → next ∉ closure →
  unseen pool (closure ++ [next]) < unseen pool closure.
Proof.
  unfold unseen. induction pool as [|x pool IH]; intros Hin Hnew.
  - by apply elem_of_nil in Hin.
  - rewrite !filter_cons.
    pose proof (unseen_add_le pool closure next) as Hle. unfold unseen in Hle.
    apply elem_of_cons in Hin as [<-|Hin].
    + rewrite decide_False; [|intros H; apply H, elem_of_app; right; by left].
      rewrite decide_True by done. simpl. lia.
    + specialize (IH Hin Hnew).
      destruct (decide (x ∉ closure ++ [next])) as [Hx|Hx];
        destruct (decide (x ∉ closure)) as [Hc|Hc]; simpl; try lia.
      exfalso. apply Hc. intros Hxc. apply Hx, elem_of_app. by left.
Qed.

Lemma visit_measure (ts : list Transition) cs next :
  next ∈ to <$> ts → loop_measure ts (visit cs next) ≤ loop_measure ts cs.
Proof.
  intros Hin. unfold visit, loop_measure.
  destruct (decide (next ∈ cs.1)) as [|Hnew]; [done|]. simpl.
  pose proof (unseen_add_lt _ _ _ Hin Hnew). lia.
Qed.

Lemma foldl_visit_measure (ts : list Transition) moves cs :
  moves ⊆ to <$> ts → loop_measure ts (foldl visit cs moves) ≤ loop_measure ts cs.
Proof.
  revert cs. induction moves as [|next moves IH]; intros cs Hsub; [done|].
  simpl. etrans; [apply IH|apply visit_measure]; set_solver.
Qed.

Lemma epsilonMoves_targets (ts : list Transition) current :
  epsilonMoves ts current ⊆ to <$> ts.
Proof.
  unfold epsilonMoves. intros s Hs.
  apply list_elem_of_fmap in Hs as (t & -> & Ht).
  apply list_elem_of_filter in Ht as [_ Ht]. by apply list_elem_of_fmap_2.
Qed.

Lemma loop_body_measure (ts : list Transition) closure current rest :
  loop_measure ts (loop_body ts closure current rest)
  < loop_measure ts (closure, current :: rest).
Proof.
  unfold loop_body.
  pose proof (foldl_visit_measure ts _ (closure, rest) (epsilonMoves_targets ts current)) as H.
  unfold loop_measure in *. simpl in *. lia.
Qed.

(** Lines 14-26: the [while (stack.length > 0)] loop; it returns the
    [closure] set as it is when the stack runs empty. *)
Equations closure_loop (ts : list Transition) (cs : list string * list string)
    : list string by wf (loop_measure ts cs) lt :=
  closure_loop ts (closure, []) := closure;
  closure_loop ts (closure, current :: rest) :=
    closure_loop ts (loop_body ts closure current rest).
Next Obligation. intros. apply loop_body_measure. Qed.

(** The same loop stopped after at most [fuel] iterations: [None] when it
    is still running then. *)
Fixpoint closure_loop_fuel (fuel : nat) (ts : list Transition)
    (cs : list string * list string) : option (list string) :=
  match cs.2 with
  | [] => Some cs.1
  | current :: rest =>
      match fuel with
      | 0 => None
      | S fuel' => closure_loop_fuel fuel' ts (loop_body ts cs.1 current rest)
      end
  end.

(** Lines 11-28.  [Array.from(closure).sort()] returns the members of the
    set in ascending order of their code units; the members are distinct
    strings, no two of which compare equal, so any sorting algorithm returns
    the same array. *)
Definition computeStateEpsilonClosure (state : string) (ts : list Transition)
    : list string :=
  merge_sort codeUnitLe (closure_loop ts ([state], [state])).

(** [computeStateEpsilonClosure] with its loop stopped after [fuel]
    iterations. *)
Definition computeStateEpsilonClosure_fuel (fuel : nat) (state : string)
    (ts : list Transition) : option (list string) :=
  merge_sort codeUnitLe <$> closure_loop_fuel fuel ts ([state], [state]).

(** ** [computeAllEpsilonClosures] *)

Definition computeAllEpsilonClosures (enfa : Automaton) : EpsilonClosureMap :=
  foldl (λ map state,
           <[state := computeStateEpsilonClosure state (transitions enfa)]> map)
        ∅ (states enfa).

(** ** [convertENFAToNFA] *)

Record Conversion : Type := mkConversion {
  nfa : Automaton;
  closures : EpsilonClosureMap
}.

(** Line 52. *)
Definition alphabetWithoutEpsilon (enfa : Automaton) : list string :=
  filter (λ a, a ≠ "" ∧ a ≠ "ε") (alphabet enfa).

(** Lines 59-66: the set [reachedAfterSymbol] once the loop over
    [qClosure] is done. *)
Definition reachedAfterSymbol (ts : list Transition) (qClosure : list string)
    (a : string) : list string :=
  foldl (λ reached p,
           foldl (λ reached' t, set_add (to t) reached') reached
                 (filter (λ t, from t = p ∧ symbol t = a) ts))
        [] qClosure.

(** Lines 69-72: the set [finalReached]; [closures[s].forEach] throws when
    [closures[s]] is not an array. *)
Definition finalReached (closures : EpsilonClosureMap) (reached : list string)
    : outcome (list string) :=
  foldlM (λ final s,
            sClosure ← getArray closures s;
            mret (foldl (λ final' c, set_add c final') final sClosure))
         [] reached.

(** Lines 77-79: push the triple unless [find] reports it. *)
Definition pushTransition (q a : string) (newTransitions : list Transition)
    (target : string) : list Transition :=
  match find (λ t, bool_decide (from t = q) && bool_decide (to t = target)
                   && bool_decide (symbol t = a)) newTransitions with
  | Some _ => newTransitions
  | None => newTransitions ++ [mkTransition q target a]
  end.

(** Lines 58-80: the body of the two nested [for] loops. *)
Definition projectPair (enfa : Automaton) (closures : EpsilonClosureMap)
    (q : string) (newTransitions : list Transition) (a : string)
    : outcome (list Transition) :=
  qClosure ← getArray closures q;
  final ← finalReached closures (reachedAfterSymbol (transitions enfa) qClosure a);
  mret (foldl (pushTransition q a) newTransitions final).

(** Lines 56-82. *)
Definition projectTransitions (enfa : Automaton) (closures : EpsilonClosureMap)
    : outcome (list Transition) :=
  foldlM (λ newTransitions q,
            foldlM (projectPair enfa closures q) newTransitions
                   (alphabetWithoutEpsilon enfa))
         [] (states enfa).

(** Lines 85-88. *)
Definition newFinalStates (enfa : Automaton) (closures : EpsilonClosureMap)
    : outcome (list string) :=
  filterM (λ q,
             qClosure ← getArray closures q;
             mret (existsb (λ s, bool_decide (s ∈ finalStates enfa)) qClosure))
          (states enfa).

(** Lines 49-100. *)
Definition convertENFAToNFA (enfa : Automaton) : outcome Conversion :=
  let closures := computeAllEpsilonClosures enfa in
  newTransitions ← projectTransitions enfa closures;
  final ← newFinalStates enfa closures;
  mret {| nfa := {| states := states enfa;
                    alphabet := alphabetWithoutEpsilon enfa;
                    transitions := newTransitions;
                    initialState := initialState enfa;
                    finalStates := final |};
          closures := closures |}.

(** ** The same functions over a heap of arrays

    The functions above thread the objects the source writes to as
    accumulators.  Here the arrays, the Sets, the closure map and the
    automaton objects are cells of a heap, addressed by reference: [new],
    an array literal, [Array.from] and the object literals of the result
    allocate a cell, and [add], [push], [pop], [sort] and [map[k] = v]
    write to the cell of their receiver.  Strings and the
    [{from, to, symbol}] records, of which the source reads the fields
    only, are values, and so is an array that [filter] or [map] returns and
    that is only read ([epsilonMoves], the filtered transitions).  A loop
    over an array visits the elements the array has when the loop starts;
    no loop of the source runs over an array or a Set that its body writes
    to.  As above, the stack is kept top first.  The [while] loop takes the
    number of iterations it may run. *)

Module Heap.

(** References are positions in the heap. *)
Abbreviation loc := nat.

(** An [Automaton] object: its array fields hold references. *)
Record AutomatonRef : Type := mkAutomatonRef {
  statesRef : loc;
  alphabetRef : loc;
  transitionsRef : loc;
  initialStateVal : string;
  finalStatesRef : loc
}.

Inductive cell : Type :=
  | Strings (xs : list string)         (* a [string[]], or a [Set<string>] *)
  | Transitions (ts : list Transition) (* a [Transition[]] *)
  | ClosureMap (m : gmap string loc)   (* an [EpsilonClosureMap] *)
  | Object (o : AutomatonRef).         (* an [Automaton] *)

Abbreviation heap := (list cell).

(** A computation on the heap: [None] when the budget of the [while] loop
    ran out, else the outcome and the heap it leaves. *)
Definition M (A : Type) : Type := heap → option (outcome A * heap).

Global Instance M_ret : MRet M := λ A a h, Some (Returned a, h).

Global Instance M_bind : MBind M := λ A B k m h,
  match m h with
  | Some (Returned a, h') => k a h'
  | Some (TypeError, h') => Some (TypeError, h')
  | None => None
  end.

Definition throw {A : Type} : M A := λ h, Some (TypeError, h).
Definition timeout {A : Type} : M A := λ h, None.

Definition alloc (c : cell) : M loc := λ h, Some (Returned (length h), h ++ [c]).
Definition store (l : loc) (c : cell) : M unit := λ h, Some (Returned (), <[l := c]> h).

Definition loadStrings (l : loc) : M (list string) := λ h,
  match h !! l with
  | Some (Strings xs) => Some (Returned xs, h)
  | _ => Some (TypeError, h)
  end.

Definition loadTransitions (l : loc) : M (list Transition) := λ h,
  match h !! l with
  | Some (Transitions ts) => Some (Returned ts, h)
  | _ => Some (TypeError, h)
  end.

Definition loadClosureMap (l : loc) : M (gmap string loc) := λ h,
  match h !! l with
  | Some (ClosureMap m) => Some (Returned m, h)
  | _ => Some (TypeError, h)
  end.

Definition loadObject (l : loc) : M AutomatonRef := λ h,
  match h !! l with
  | Some (Object o) => Some (Returned o, h)
  | _ => Some (TypeError, h)
  end.

(** [closures[k]], used as an array. *)
Definition getArray (closures : loc) (k : string) : M (list string) :=
  m ← loadClosureMap closures;
  match m !! k with
  | Some array => loadStrings array
  | None => throw
  end.

(** [for .. of] and [forEach] over the elements of an array. *)
Fixpoint forEach {A : Type} (body : A → M unit) (l : list A) : M unit :=
  match l with
  | [] => mret ()
  | x :: l' => body x;; forEach body l'
  end.

(** [Array.prototype.filter], its predicate reading the heap. *)
Fixpoint filterM {A : Type} (p : A → M bool) (l : list A) : M (list A) :=
  match l with
  | [] => mret []
  | x :: l' =>
      keep ← p x;
      rest ← filterM p l';
      mret (if (keep : bool) then x :: rest else rest)
  end.

(** [set.add(x)]. *)
Definition add (set : loc) (x : string) : M unit :=
  members ← loadStrings set;
  if decide (x ∈ members) then mret () else store set (Strings (members ++ [x])).

(** Lines 21-24. *)
Definition visit (closure stack : loc) (next : string) : M unit :=
  members ← loadStrings closure;
  if decide (next ∈ members) then mret ()
  else
    store closure (Strings (members ++ [next]));;
    pending ← loadStrings stack;
    store stack (Strings (next :: pending)).

(** Lines 14-26, for at most [fuel] iterations. *)
Fixpoint while (fuel : nat) (transitions closure stack : loc) : M unit :=
  pending ← loadStrings stack;
  match pending with
  | [] => mret ()
  | current :: rest =>
      match fuel with
      | 0 => timeout
      | S fuel' =>
          store stack (Strings rest);;
          ts ← loadTransitions transitions;
          forEach (visit closure stack) (epsilonMoves ts current);;
          while fuel' transitions closure stack
      end
  end.

(** Lines 11-28: the reference of the sorted array. *)
Definition computeStateEpsilonClosure (fuel : nat) (state : string)
    (transitions : loc) : M loc :=
  closure ← alloc (Strings [state]);
  stack ← alloc (Strings [state]);
  while fuel transitions closure stack;;
  members ← loadStrings closure;
  array ← alloc (Strings members);
  store array (Strings (merge_sort codeUnitLe members));;
  mret array.

(** Lines 34-40. *)
Definition computeAllEpsilonClosures (fuel : nat) (enfa : loc) : M loc :=
  map ← alloc (ClosureMap ∅);
  o ← loadObject enfa;
  sts ← loadStrings (statesRef o);
  forEach (λ state,
             o ← loadObject enfa;
             array ← computeStateEpsilonClosure fuel state (transitionsRef o);
             m ← loadClosureMap map;
             store map (ClosureMap (<[state := array]> m)))
          sts;;
  mret map.

(** Lines 58-80. *)
Definition projectPair (enfa closures newTransitions : loc) (q a : string)
    : M unit :=
  qClosure ← getArray closures q;
  reachedAfterSymbol ← alloc (Strings []);
  forEach (λ p,
             o ← loadObject enfa;
             ts ← loadTransitions (transitionsRef o);
             forEach (λ t, add reachedAfterSymbol (to t))
                     (filter (λ t, from t = p ∧ symbol t = a) ts))
          qClosure;;
  finalReached ← alloc (Strings []);
  reached ← loadStrings reachedAfterSymbol;
  forEach (λ s,
             sClosure ← getArray closures s;
             forEach (add finalReached) sClosure)
          reached;;
  final ← loadStrings finalReached;
  forEach (λ target,
             nt ← loadTransitions newTransitions;
             match find (λ t, bool_decide (from t = q) && bool_decide (to t = target)
                              && bool_decide (symbol t = a)) nt with
             | Some _ => mret ()
             | None => store newTransitions
                             (Transitions (nt ++ [mkTransition q target a]))
             end)
          final.

Record ConversionRef : Type := mkConversionRef {
  nfaRef : loc;
  closuresRef : loc
}.

(** Lines 49-100. *)
Definition convertENFAToNFA (fuel : nat) (enfa : loc) : M ConversionRef :=
  closures ← computeAllEpsilonClosures fuel enfa;
  newTransitions ← alloc (Transitions []);
  o ← loadObject enfa;
  letters ← loadStrings (alphabetRef o);
  alphabetWithoutEpsilon ← alloc (Strings (filter (λ a, a ≠ "" ∧ a ≠ "ε") letters));
  sts ← loadStrings (statesRef o);
  forEach (λ q,
             letters' ← loadStrings alphabetWithoutEpsilon;
             forEach (projectPair enfa closures newTransitions q) letters')
          sts;;
  o ← loadObject enfa;
  sts ← loadStrings (statesRef o);
  kept ← filterM (λ q,
                    qClosure ← getArray closures q;
                    o ← loadObject enfa;
                    finals ← loadStrings (finalStatesRef o);
                    mret (existsb (λ s, bool_decide (s ∈ finals)) qClosure))
                 sts;
  newFinalStates ← alloc (Strings kept);
  o ← loadObject enfa;
  nfa ← alloc (Object {| statesRef := statesRef o;
                         alphabetRef := alphabetWithoutEpsilon;
                         transitionsRef := newTransitions;
                         initialStateVal := initialStateVal o;
                         finalStatesRef := newFinalStates |});
  mret {| nfaRef := nfa; closuresRef := closures |}.

(** The heap holds the automaton [enfa] at [e]. *)
Definition represents (h : heap) (e : loc) (enfa : Automaton) : Prop :=
  ∃ o, h !! e = Some (Object o) ∧
       h !! statesRef o = Some (Strings (states enfa)) ∧
       h !! alphabetRef o = Some (Strings (alphabet enfa)) ∧
       h !! transitionsRef o = Some (Transitions (transitions enfa)) ∧
       initialStateVal o = initialState enfa ∧
       h !! finalStatesRef o = Some (Strings (finalStates enfa)).

(** Every property of the object [m] refers to the array that [cm] has
    under the same key. *)
Definition decodes (h : heap) (m : gmap string loc) (cm : EpsilonClosureMap) : Prop :=
  ∀ k, match m !! k with
       | Some array => ∃ xs, h !! array = Some (Strings xs) ∧ cm !! k = Some xs
       | None => cm !! k = None
       end.

(** The heap holds the closure map [cm] at [l]. *)
Definition representsClosures (h : heap) (l : loc) (cm : EpsilonClosureMap) : Prop :=
  ∃ m, h !! l = Some (ClosureMap m) ∧ decodes h m cm.

Definition representsConversion (h : heap) (r : ConversionRef) (c : Conversion)
    : Prop :=
  represents h (nfaRef r) (nfa c) ∧ representsClosures h (closuresRef r) (closures c).

End Heap.

(** ** The closure map as an object with a prototype

    [convertENFAToNFA] only reads the closure map by [closures[k]]; a caller
    that enumerates it ([Object.keys], [Object.entries]) sees its own
    properties, which this module keeps apart from its prototype. *)

Module JSObject.

(** An object created by [{}] whose properties are arrays of strings: its
    own properties and its prototype, which is [Object.prototype] ([None])
    until an array is assigned to [__proto__]. *)
Record t : Type := mk {
  own : gmap string (list string);
  prototype : option (list string)
}.

(** [{}]. *)
Definition empty : t := {| own := ∅; prototype := None |}.

(** [map[key] = value] for an array [value].  The key [__proto__] is the
    accessor that [map] inherits from [Object.prototype]: its setter makes
    [value] the prototype of [map] and creates no property.  Any other key
    is, where inherited at all, a writable data property up the chain, so
    the assignment creates or overwrites a property of [map] itself. *)
Definition assign (key : string) (value : list string) (map : t) : t :=
  if decide (key = "__proto__")
  then {| own := own map; prototype := Some value |}
  else {| own := <[key := value]> (own map); prototype := prototype map |}.

(** [map[key]] when it evaluates to an array of strings: an own property,
    or for [__proto__] the prototype once one was assigned.  Anything else
    that [map[key]] can be ([undefined], [Object.prototype], a method, the
    length or an element of the prototype) is no array: [None]. *)
Definition get (key : string) (map : t) : option (list string) :=
  if decide (key = "__proto__") then prototype map else own map !! key.

(** The keys of [Object.keys(map)] and [Object.entries(map)], as a set. *)
Definition keys (map : t) : gset string := dom (own map).

(** Lines 34-40. *)
Definition computeAllEpsilonClosures (automaton : Automaton) : t :=
  foldl (λ map state,
           assign state
                  (computeStateEpsilonClosure state (transitions automaton)) map)
        empty (states automaton).

End JSObject.

(** ** Specification vocabulary *)

(** An epsilon edge of the transition relation. *)
Definition epsilonEdge (ts : list Transition) (r s : string) : Prop :=
  ∃ t, t ∈ ts ∧ from t = r ∧ to t = s ∧ isEpsilon (symbol t) = true.

(** ε-closure as a relation: reachability along epsilon edges. *)
Definition epsilonReachable (ts : list Transition) : relation string :=
  rtc (epsilonEdge ts).

(** The states one [a]-transition away from a member of [qClosure]. *)
Definition symbolStep (ts : list Transition) (qClosure : list string)
    (a s : string) : Prop :=
  ∃ t, t ∈ ts ∧ from t ∈ qClosure ∧ symbol t = a ∧ to t = s.

(** [target ∈ ε-closure(δ(ε-closure(q), a))]. *)
Definition projected (enfa : Automaton) (q a target : string) : Prop :=
  ∃ p t, epsilonReachable (transitions enfa) q p ∧ t ∈ transitions enfa ∧
         from t = p ∧ symbol t = a ∧
         epsilonReachable (transitions enfa) (to t) target.

(** An [a]-transition leaves the ε-closure of [q] for an undeclared state. *)
Definition dangling (enfa : Automaton) (q a : string) : Prop :=
  ∃ p t, epsilonReachable (transitions enfa) q p ∧ t ∈ transitions enfa ∧
         from t = p ∧ symbol t = a ∧ to t ∉ states enfa.

(** The closure of [q] meets the final states of the input. *)
Definition closureMeetsFinal (enfa : Automaton) (q : string) : Prop :=
  Exists (λ s, s ∈ finalStates enfa)
         (computeStateEpsilonClosure q (transitions enfa)).

(** §3 of the specification: the invariants of a well-formed automaton. *)
Definition invariant1 (enfa : Automaton) : Prop :=
  initialState enfa ∈ states enfa.
Definition invariant2 (enfa : Automaton) : Prop :=
  ∀ f, f ∈ finalStates enfa → f ∈ states enfa.
Definition invariant3 (enfa : Automaton) : Prop :=
  ∀ t, t ∈ transitions enfa → from t ∈ states enfa ∧ to t ∈ states enfa.
Definition invariant4 (enfa : Automaton) : Prop :=
  ∀ t, t ∈ transitions enfa → isEpsilon (symbol t) = false →
       symbol t ∈ alphabet enfa.
Definition wellFormed (enfa : Automaton) : Prop :=
  invariant1 enfa ∧ invariant2 enfa ∧ invariant3 enfa ∧ invariant4 enfa.

Global Instance invariant1_dec enfa : Decision (invariant1 enfa).
Proof. unfold invariant1. apply _. Defined.
Global Instance invariant2_dec enfa : Decision (invariant2 enfa).
Proof.
  refine (cast_if (decide (Forall (λ f, f ∈ states enfa) (finalStates enfa))));
    unfold invariant2; by rewrite <-Forall_forall.
Defined.
Global Instance invariant3_dec enfa : Decision (invariant3 enfa).
Proof.
  refine (cast_if (decide (Forall (λ t, from t ∈ states enfa ∧ to t ∈ states enfa)
                                  (transitions enfa))));
    unfold invariant3; by rewrite <-Forall_forall.
Defined.
Global Instance invariant4_dec enfa : Decision (invariant4 enfa).
Proof.
  refine (cast_if (decide (Forall (λ t, isEpsilon (symbol t) = false →
                                        symbol t ∈ alphabet enfa)
                                  (transitions enfa))));
    unfold invariant4; by rewrite <-Forall_forall.
Defined.
Global Instance wellFormed_dec enfa : Decision (wellFormed enfa).
Proof. unfold wellFormed. apply _. Defined.

(** No transition of the automaton is an epsilon transition. *)
Definition epsilonFree (enfa : Automaton) : Prop :=
  ∀ t, t ∈ transitions enfa → isEpsilon (symbol t) = false.

Global Instance epsilonFree_dec enfa : Decision (epsilonFree enfa).
Proof.
  refine (cast_if (decide (Forall (λ t, isEpsilon (symbol t) = false)
                                  (transitions enfa))));
    unfold epsilonFree; by rewrite <-Forall_forall.
Defined.

(** Heaps before and after a call. *)

(** [h'] has the cells of [h], unchanged but for the one at [l]. *)
Definition preservesExcept (l : Heap.loc) (h h' : Heap.heap) : Prop :=
  ∀ l' c, l' ≠ l → h !! l' = Some c → h' !! l' = Some c.

(** [h'] has the cells of [h], unchanged. *)
Definition preserves (h h' : Heap.heap) : Prop :=
  ∀ l c, h !! l = Some c → h' !! l = Some c.

(** The heap [h] with the cells of [closure] and [stack] set to [cs]. *)
Definition withLocals (h : Heap.heap) (closure stack : Heap.loc)
    (cs : list string * list string) : Heap.heap :=
  <[stack := Heap.Strings cs.2]> (<[closure := Heap.Strings cs.1]> h).

(** ** The automata of the worked scenarios *)

(** The automaton the application starts with ([INITIAL_ENFA] in [App.tsx]). *)
Definition INITIAL_ENFA : Automaton := {|
  states := ["A"; "B"; "C"];
  alphabet := ["0"; "1"; "ε"];
  transitions := [ mkTransition "A" "A" "0";
                   mkTransition "A" "B" "ε";
                   mkTransition "B" "B" "1";
                   mkTransition "B" "C" "ε";
                   mkTransition "C" "C" "0" ];
  initialState := "A";
  finalStates := ["C"]
|}.

(** Two states on an epsilon cycle. *)
Definition cycleENFA : Automaton := {|
  states := ["X"; "Y"];
  alphabet := [];
  transitions := [mkTransition "X" "Y" "ε"; mkTransition "Y" "X" "ε"];
  initialState := "X";
  finalStates := []
|}.

(** What the converter returns on [INITIAL_ENFA]. *)
Definition INITIAL_NFA : Conversion := {|
  nfa := {|
    states := ["A"; "B"; "C"];
    alphabet := ["0"; "1"];
    transitions := [ mkTransition "A" "A" "0"; mkTransition "A" "B" "0";
                     mkTransition "A" "C" "0"; mkTransition "A" "B" "1";
                     mkTransition "A" "C" "1"; mkTransition "B" "C" "0";
                     mkTransition "B" "B" "1"; mkTransition "B" "C" "1";
                     mkTransition "C" "C" "0" ];
    initialState := "A";
    finalStates := ["A"; "B"; "C"]
  |};
  closures := {[ "A" := ["A"; "B"; "C"]; "B" := ["B"; "C"]; "C" := ["C"] ]}
|}.

(** The targets of the transitions of [r] that leave [q] on [a]. *)
Definition targetsOn (r : Conversion) (q a : string) : list string :=
  to <$> filter (λ t, from t = q ∧ symbol t = a) (transitions (nfa r)).

(** An automaton that breaks each of the four invariants of §3 while no
    symbol step reaches an undeclared state. *)
Definition UNDECLARED_ENFA : Automaton := {|
  states := ["A"];
  alphabet := ["0"];
  transitions := [mkTransition "Q" "A" "1"];
  initialState := "Z";
  finalStates := ["F"]
|}.

(** A heap that holds [INITIAL_ENFA]: its four arrays, and the object at
    reference 4. *)
Definition INITIAL_HEAP : Heap.heap :=
  [ Heap.Strings ["A"; "B"; "C"];
    Heap.Strings ["0"; "1"; "ε"];
    Heap.Transitions (transitions INITIAL_ENFA);
    Heap.Strings ["C"];
    Heap.Object (Heap.mkAutomatonRef 0 1 2 "A" 3) ].

(** Another heap that holds [INITIAL_ENFA]: the object at reference 0, its
    arrays after it in another order. *)
Definition SECOND_HEAP : Heap.heap :=
  [ Heap.Object (Heap.mkAutomatonRef 4 3 2 "A" 1);
    Heap.Strings ["C"];
    Heap.Transitions (transitions INITIAL_ENFA);
    Heap.Strings ["0"; "1"; "ε"];
    Heap.Strings ["A"; "B"; "C"] ].

(** A state named as the prototype accessor of every object. *)
Definition PROTO_ENFA : Automaton := {|
  states := ["__proto__"; "A"];
  alphabet := ["0"];
  transitions := [mkTransition "A" "__proto__" "ε"];
  initialState := "A";
  finalStates := ["__proto__"]
|}.

(** A transition into an undeclared state that a symbol step reaches. *)
Definition DANGLING_ENFA : Automaton := {|
  states := ["A"];
  alphabet := ["0"];
  transitions := [mkTransition "A" "B" "0"];
  initialState := "A";
  finalStates := []
|}.

(** The automaton the application resets to ([EMPTY_ENFA] in [App.tsx]). *)
Definition EMPTY_ENFA : Automaton := {|
  states := ["A"];
  alphabet := ["ε"];
  transitions := [];
  initialState := "A";
  finalStates := []
|}.

(** ** Runs and accepted words *)

(** A run from [q] to [q'] that reads the word [w]: epsilon moves, then for
    each symbol one transition on it followed by epsilon moves. *)
Fixpoint run (ts : list Transition) (q : string) (w : list string) (q' : string)
    : Prop :=
  match w with
  | [] => epsilonReachable ts q q'
  | a :: w' =>
      ∃ p t, epsilonReachable ts q p ∧ t ∈ ts ∧ from t = p ∧ symbol t = a ∧
             isEpsilon a = false ∧ run ts (to t) w' q'
  end.

(** The automaton accepts [w]: a run from the initial state ends in a final
    state. *)
Definition accepts (enfa : Automaton) (w : list string) : Prop :=
  ∃ f, run (transitions enfa) (initialState enfa) w f ∧ f ∈ finalStates enfa.

(** A run that makes no epsilon move. *)
Fixpoint runDirect (ts : list Transition) (q : string) (w : list string)
    (q' : string) : Prop :=
  match w with
  | [] => q = q'
  | a :: w' => ∃ t, t ∈ ts ∧ from t = q ∧ symbol t = a ∧ runDirect ts (to t) w' q'
  end.

(** ** The editor of [App.tsx]

    The component keeps seven state variables; a handler is a function from
    the state the component was last rendered with to the next state.  The
    import and the export of JSON text are left out. *)

Module App.

Inductive Tab : Type := visual | logic.

(** The [useState] variables of [App], in the order of the source. *)
Record State : Type := mkState {
  enfa : Automaton;
  activeTab : Tab;
  showJsonInput : bool;
  jsonInput : string;
  newTrans : Transition;
  newStateName : string;
  newSymbolName : string
}.

(** The state of the first render. *)
Definition initial : State := {|
  enfa := INITIAL_ENFA;
  activeTab := visual;
  showJsonInput := false;
  jsonInput := "";
  newTrans := mkTransition "" "" "";
  newStateName := "";
  newSymbolName := ""
|}.

(** A string in a condition: every string but the empty one is true. *)
Definition truthy (s : string) : bool := bool_decide (s ≠ "").

(** [array.filter((_, i) => p(i))], the element index starting at [i]. *)
Fixpoint filterIndexFrom {A : Type} (p : nat → bool) (i : nat) (l : list A) : list A :=
  match l with
  | [] => []
  | x :: l' =>
      if p i then x :: filterIndexFrom p (S i) l' else filterIndexFrom p (S i) l'
  end.

(** Line 39: [useMemo(() => convertENFAToNFA(enfa), [enfa])]. *)
Definition conversion (st : State) : outcome Conversion :=
  convertENFAToNFA (enfa st).

(** Lines 41-49.  [newTrans.symbol !== undefined] holds of every string, and
    [{ ...newTrans }] is a copy of the pending transition. *)
Definition addTransition (st : State) : State :=
  if truthy (from (newTrans st)) && truthy (to (newTrans st)) then
    {| enfa := {| states := states (enfa st);
                  alphabet := alphabet (enfa st);
                  transitions :=
                    transitions (enfa st) ++ [newTrans st];
                  initialState := initialState (enfa st);
                  finalStates := finalStates (enfa st) |};
       activeTab := activeTab st;
       showJsonInput := showJsonInput st;
       jsonInput := jsonInput st;
       newTrans := mkTransition "" "" "";
       newStateName := newStateName st;
       newSymbolName := newSymbolName st |}
  else st.

(** Lines 51-56. *)
Definition removeTransition (idx : nat) (st : State) : State :=
  {| enfa := {| states := states (enfa st);
                alphabet := alphabet (enfa st);
                transitions :=
                  filterIndexFrom (λ i, bool_decide (i ≠ idx)) 0
                                  (transitions (enfa st));
                initialState := initialState (enfa st);
                finalStates := finalStates (enfa st) |};
     activeTab := activeTab st;
     showJsonInput := showJsonInput st;
     jsonInput := jsonInput st;
     newTrans := newTrans st;
     newStateName := newStateName st;
     newSymbolName := newSymbolName st |}.

(** Lines 58-63. *)
Definition addState (st : State) : State :=
  if truthy (newStateName st)
     && negb (bool_decide (newStateName st ∈ states (enfa st))) then
    {| enfa := {| states := states (enfa st) ++ [newStateName st];
                  alphabet := alphabet (enfa st);
                  transitions := transitions (enfa st);
                  initialState := initialState (enfa st);
                  finalStates := finalStates (enfa st) |};
       activeTab := activeTab st;
       showJsonInput := showJsonInput st;
       jsonInput := jsonInput st;
       newTrans := newTrans st;
       newStateName := "";
       newSymbolName := newSymbolName st |}
  else st.

(** Line 70: [prev.states[0] || '']. *)
Definition firstStateOrEmpty (sts : list string) : string :=
  match sts !! 0 with
  | Some first => if truthy first then first else ""
  | None => ""
  end.

(** Lines 65-73. *)
Definition removeState (state : string) (st : State) : State :=
  {| enfa := {| states := filter (λ s, s ≠ state) (states (enfa st));
                alphabet := alphabet (enfa st);
                transitions :=
                  filter (λ t, from t ≠ state ∧ to t ≠ state) (transitions (enfa st));
                initialState :=
                  if decide (initialState (enfa st) = state)
                  then firstStateOrEmpty (states (enfa st))
                  else initialState (enfa st);
                finalStates := filter (λ s, s ≠ state) (finalStates (enfa st)) |};
     activeTab := activeTab st;
     showJsonInput := showJsonInput st;
     jsonInput := jsonInput st;
     newTrans := newTrans st;
     newStateName := newStateName st;
     newSymbolName := newSymbolName st |}.

(** Lines 75-80. *)
Definition addSymbol (st : State) : State :=
  if truthy (newSymbolName st)
     && negb (bool_decide (newSymbolName st ∈ alphabet (enfa st))) then
    {| enfa := {| states := states (enfa st);
                  alphabet := alphabet (enfa st) ++ [newSymbolName st];
                  transitions := transitions (enfa st);
                  initialState := initialState (enfa st);
                  finalStates := finalStates (enfa st) |};
       activeTab := activeTab st;
       showJsonInput := showJsonInput st;
       jsonInput := jsonInput st;
       newTrans := newTrans st;
       newStateName := newStateName st;
       newSymbolName := "" |}
  else st.

(** Lines 82-89. *)
Definition removeSymbol (sym : string) (st : State) : State :=
  if decide (sym = "ε") then st
  else
    {| enfa := {| states := states (enfa st);
                  alphabet := filter (λ a, a ≠ sym) (alphabet (enfa st));
                  transitions := filter (λ t, symbol t ≠ sym) (transitions (enfa st));
                  initialState := initialState (enfa st);
                  finalStates := finalStates (enfa st) |};
       activeTab := activeTab st;
       showJsonInput := showJsonInput st;
       jsonInput := jsonInput st;
       newTrans := newTrans st;
       newStateName := newStateName st;
       newSymbolName := newSymbolName st |}.

(** Lines 91-98. *)
Definition toggleFinalState (state : string) (st : State) : State :=
  {| enfa := {| states := states (enfa st);
                alphabet := alphabet (enfa st);
                transitions := transitions (enfa st);
                initialState := initialState (enfa st);
                finalStates :=
                  if bool_decide (state ∈ finalStates (enfa st))
                  then filter (λ s, s ≠ state) (finalStates (enfa st))
                  else finalStates (enfa st) ++ [state] |};
     activeTab := activeTab st;
     showJsonInput := showJsonInput st;
     jsonInput := jsonInput st;
     newTrans := newTrans st;
     newStateName := newStateName st;
     newSymbolName := newSymbolName st |}.

(** Lines 100-102. *)
Definition setInitialState (state : string) (st : State) : State :=
  {| enfa := {| states := states (enfa st);
                alphabet := alphabet (enfa st);
                transitions := transitions (enfa st);
                initialState := state;
                finalStates := finalStates (enfa st) |};
     activeTab := activeTab st;
     showJsonInput := showJsonInput st;
     jsonInput := jsonInput st;
     newTrans := newTrans st;
     newStateName := newStateName st;
     newSymbolName := newSymbolName st |}.

(** Lines 124-128; [confirmed] is the answer to [window.confirm]. *)
Definition handleClearAll (confirmed : bool) (st : State) : State :=
  if confirmed then
    {| enfa := EMPTY_ENFA;
       activeTab := activeTab st;
       showJsonInput := showJsonInput st;
       jsonInput := jsonInput st;
       newTrans := newTrans st;
       newStateName := newStateName st;
       newSymbolName := newSymbolName st |}
  else st.

(** Lines 419-421: the targets shown in the cell of [state] and [a] of the
    transition table; each is the React key of its element. *)
Definition targets (nfa : Automaton) (state a : string) : list string :=
  to <$> filter (λ t, from t = state ∧ symbol t = a) (transitions nfa).

(** The setters of the form fields and of the tab (lines 30, 35-37). *)
Definition setNewTrans (t : Transition) (st : State) : State :=
  {| enfa := enfa st;
     activeTab := activeTab st;
     showJsonInput := showJsonInput st;
     jsonInput := jsonInput st;
     newTrans := t;
     newStateName := newStateName st;
     newSymbolName := newSymbolName st |}.

Definition setNewStateName (s : string) (st : State) : State :=
  {| enfa := enfa st;
     activeTab := activeTab st;
     showJsonInput := showJsonInput st;
     jsonInput := jsonInput st;
     newTrans := newTrans st;
     newStateName := s;
     newSymbolName := newSymbolName st |}.

Definition setNewSymbolName (s : string) (st : State) : State :=
  {| enfa := enfa st;
     activeTab := activeTab st;
     showJsonInput := showJsonInput st;
     jsonInput := jsonInput st;
     newTrans := newTrans st;
     newStateName := newStateName st;
     newSymbolName := s |}.

Definition setActiveTab (tab : Tab) (st : State) : State :=
  {| enfa := enfa st;
     activeTab := tab;
     showJsonInput := showJsonInput st;
     jsonInput := jsonInput st;
     newTrans := newTrans st;
     newStateName := newStateName st;
     newSymbolName := newSymbolName st |}.

(** The events of the rendered page, each with the line of the element that
    raises it.  The JSON panel (lines 152, 289-308), which replaces the
    automaton by whatever was parsed, is left out. *)
Inductive Event : Type :=
  | ClearAll (confirmed : bool)       (* line 158 *)
  | SelectInitialState (s : string)   (* lines 170-180 *)
  | TypeStateName (s : string)        (* line 188 *)
  | AddState                          (* lines 190, 192 *)
  | RemoveState (s : string)          (* line 198 *)
  | TypeSymbolName (s : string)       (* line 209 *)
  | AddSymbol                         (* lines 211, 213 *)
  | RemoveSymbol (a : string)         (* line 220 *)
  | SelectFrom (s : string)           (* lines 233-239 *)
  | SelectSymbol (a : string)         (* lines 240-246 *)
  | SelectTo (s : string)             (* lines 247-253 *)
  | AddTransition                     (* lines 255-257 *)
  | ToggleFinalState (s : string)     (* line 273 *)
  | RemoveTransition (i : nat)        (* line 325 *)
  | SelectTab (tab : Tab).            (* lines 338, 344 *)

(** The events the page rendered for [st] can raise: a select offers its
    options, a button exists for each element of the list it is mapped over,
    the remove button of a symbol is not rendered for [ε] (line 219) and the
    confirm button is disabled while origin or destination is empty
    (line 257). *)
Definition offered (st : State) (ev : Event) : Prop :=
  match ev with
  | SelectInitialState s | RemoveState s | ToggleFinalState s =>
      s ∈ states (enfa st)
  | RemoveSymbol a => a ∈ alphabet (enfa st) ∧ a ≠ "ε"
  | SelectFrom s | SelectTo s => s = "" ∨ s ∈ states (enfa st)
  | SelectSymbol a => a = "" ∨ a ∈ alphabet (enfa st)
  | AddTransition =>
      truthy (from (newTrans st)) = true ∧ truthy (to (newTrans st)) = true
  | RemoveTransition i => i < length (transitions (enfa st))
  | ClearAll _ | TypeStateName _ | AddState | TypeSymbolName _ | AddSymbol
  | SelectTab _ => True
  end.

(** The handler bound to each event. *)
Definition handle (ev : Event) (st : State) : State :=
  match ev with
  | ClearAll confirmed => handleClearAll confirmed st
  | SelectInitialState s => setInitialState s st
  | TypeStateName s => setNewStateName s st
  | AddState => addState st
  | RemoveState s => removeState s st
  | TypeSymbolName s => setNewSymbolName s st
  | AddSymbol => addSymbol st
  | RemoveSymbol a => removeSymbol a st
  | SelectFrom s =>
      setNewTrans (mkTransition s (to (newTrans st)) (symbol (newTrans st))) st
  | SelectSymbol a =>
      setNewTrans (mkTransition (from (newTrans st)) (to (newTrans st)) a) st
  | SelectTo s =>
      setNewTrans (mkTransition (from (newTrans st)) s (symbol (newTrans st))) st
  | AddTransition => addTransition st
  | ToggleFinalState s => toggleFinalState s st
  | RemoveTransition i => removeTransition i st
  | SelectTab tab => setActiveTab tab st
  end.

(** The conversion of line 39 returns.  A page is rendered only then: an
    exception there leaves no page, and so no event.  (It does not suffice:
    the drawings of the first tab can fail as well, see [live] below.) *)
Definition rendered (st : State) : Prop :=
  ∃ r, conversion st = Returned r.

(** One event, on a page whose conversion returned. *)
Definition step (st st' : State) : Prop :=
  rendered st ∧ ∃ ev, offered st ev ∧ st' = handle ev st.

(** The states of the editor after any number of events. *)
Definition reachable (st : State) : Prop := rtc step initial st.

End App.

(** What every automaton of the editor satisfies. *)
Definition editorInvariant (enfa : Automaton) : Prop :=
  NoDup (states enfa) ∧ NoDup (alphabet enfa) ∧ NoDup (finalStates enfa) ∧
  ("" ∉ states enfa) ∧ ("" ∉ alphabet enfa) ∧ "ε" ∈ alphabet enfa ∧
  invariant2 enfa ∧
  ∀ t, t ∈ transitions enfa → from t ≠ "" ∧ to t ≠ "".

(** ** The links of [AutomatonVisualizer.tsx] *)

Module Visualizer.

(** A link of the drawing (the [LinkData] of lines 25-29, before d3 replaces
    the names by nodes); a field is [None] where the source has
    [undefined]. *)
Record LinkData : Type := mkLinkData {
  source : option string;
  target : option string;
  symbols : list string
}.

(** A [Map<string, string[]>]: its entries in insertion order, each key
    once. *)
Abbreviation SymbolMap := (list (string * list string)).

Definition has (key : string) (m : SymbolMap) : bool :=
  bool_decide (key ∈ m.*1).

Fixpoint get (key : string) (m : SymbolMap) : option (list string) :=
  match m with
  | [] => None
  | (k, v) :: m' => if decide (k = key) then Some v else get key m'
  end.

Fixpoint replace (key : string) (v : list string) (m : SymbolMap) : SymbolMap :=
  match m with
  | [] => []
  | (k, v') :: m' =>
      if decide (k = key) then (k, v) :: m' else (k, v') :: replace key v m'
  end.

(** [Map.prototype.set]: the value of a key that is present is replaced where
    the key stands, a new key goes last. *)
Definition set (key : string) (v : list string) (m : SymbolMap) : SymbolMap :=
  if has key m then replace key v m else m ++ [(key, v)].

(** Line 66: [`${t.from}->${t.to}`]. *)
Definition key (t : Transition) : string := from t +:+ "->" +:+ to t.

(** Line 68: [t.symbol || "ε"]. *)
Definition label (t : Transition) : string :=
  if App.truthy (symbol t) then symbol t else "ε".

(** Lines 66-68, the body of the loop: [push] on the array a key maps to
    changes the value of that key; [get(key)!] of an absent key would be
    [undefined], and [push] on it a [TypeError]. *)
Definition pushSymbol (m : SymbolMap) (t : Transition) : outcome SymbolMap :=
  let m1 := if has (key t) m then m else set (key t) [] m in
  match get (key t) m1 with
  | Some symbols => Returned (set (key t) (symbols ++ [label t]) m1)
  | None => TypeError
  end.

(** Lines 64-69. *)
Definition linkMap (automaton : Automaton) : outcome SymbolMap :=
  foldlM pushSymbol [] (transitions automaton).

(** [key.split("->")]: the pieces of [s] between the occurrences of [->],
    found from the left; [cur] is the piece being read. *)
Fixpoint split (cur : string) (s : string) : list string :=
  match s with
  | EmptyString => [cur]
  | String c s' =>
      match s' with
      | EmptyString => [cur +:+ String c ""]
      | String c' s'' =>
          if bool_decide (c = "-"%char) && bool_decide (c' = ">"%char)
          then cur :: split "" s''
          else split (cur +:+ String c "") s'
      end
  end.

(** Lines 71-74: [[source, target]] are the first two pieces of the key. *)
Definition links (automaton : Automaton) : outcome (list LinkData) :=
  m ← linkMap automaton;
  mret ((λ e : string * list string,
           let parts := split "" e.1 in
           {| source := parts !! 0; target := parts !! 1; symbols := e.2 |})
          <$> (m : SymbolMap)).



End Visualizer.

(** The name contains [->]. *)
Fixpoint hasArrow (s : string) : bool :=
  match s with
  | EmptyString => false
  | String c s' =>
      match s' with
      | EmptyString => false
      | String c' _ =>
          bool_decide (c = "-"%char) && bool_decide (c' = ">"%char) || hasArrow s'
      end
  end.

(** ** The page and its drawings *)



(** The loop body as a function: the label goes last in the entry of its key,
    and a new key goes last in the map. *)
Fixpoint upsert (key sym : string) (m : Visualizer.SymbolMap)
    : Visualizer.SymbolMap :=
  match m with
  | [] => [(key, [sym])]
  | (k, v) :: m' =>
      if decide (k = key) then (k, v ++ [sym]) :: m' else (k, v) :: upsert key sym m'
  end.

(** The map the loop builds, as a fold of [upsert]. *)
Definition entries (ts : list Transition) : Visualizer.SymbolMap :=
  foldl (λ m t, upsert (Visualizer.key t) (Visualizer.label t) m) [] ts.

(** * Properties of the closure loop *)

Section closure_loop.
Variable ts : list Transition.

Lemma elem_of_epsilonMoves current s :
  s ∈ epsilonMoves ts current ↔ epsilonEdge ts current s.
Proof.
  unfold epsilonMoves, epsilonEdge. rewrite list_elem_of_fmap. split.
  - intros (t & -> & Ht). apply list_elem_of_filter in Ht as [[Hf He] Ht].
    exists t. repeat split; try done. by apply Is_true_true.
  - intros (t & Ht & Hf & Hto & He). exists t. split; [done|].
    apply list_elem_of_filter. repeat split; try done. by apply Is_true_true.
Qed.

Lemma visit_closure cs next x :
  x ∈ (visit cs next).1 ↔ x ∈ cs.1 ∨ x = next.
Proof.
  unfold visit. destruct (decide (next ∈ cs.1)); simpl.
  - split; [by left|]. by intros [?| ->].
  - by rewrite elem_of_app, list_elem_of_singleton.
Qed.

Lemma foldl_visit_closure moves cs x :
  x ∈ (foldl visit cs moves).1 ↔ x ∈ cs.1 ∨ x ∈ moves.
Proof.
  revert cs. induction moves as [|next moves IH]; intros cs; simpl.
  - rewrite elem_of_nil. tauto.
  - rewrite IH, visit_closure, elem_of_cons. tauto.
Qed.

Lemma foldl_visit_stack moves cs x :
  x ∈ (foldl visit cs moves).2 → x ∈ cs.2 ∨ x ∈ moves.
Proof.
  revert cs. induction moves as [|next moves IH]; intros cs; simpl; [by left|].
  intros [H|H]%IH; [|right; by right].
  unfold visit in H. destruct (decide (next ∈ cs.1)); [by left|].
  simpl in H. apply elem_of_cons in H as [->|H]; [right; by left|by left].
Qed.

Lemma foldl_visit_stack_mono moves cs x :
  x ∈ cs.2 → x ∈ (foldl visit cs moves).2.
Proof.
  revert cs. induction moves as [|next moves IH]; intros cs H; simpl; [done|].
  apply IH. unfold visit. destruct (decide (next ∈ cs.1)); [done|]. by right.
Qed.

Lemma foldl_visit_pushed moves cs x :
  x ∈ (foldl visit cs moves).1 → x ∈ cs.1 ∨ x ∈ (foldl visit cs moves).2.
Proof.
  revert cs. induction moves as [|next moves IH]; intros cs; simpl; [by left|].
  intros [H|H]%IH; [|by right].
  unfold visit in H |- *. destruct (decide (next ∈ cs.1)); [by left|].
  simpl in H. apply elem_of_app in H as [H|H]; [by left|].
  apply list_elem_of_singleton in H as ->. right.
  apply foldl_visit_stack_mono. by left.
Qed.

Lemma foldl_visit_NoDup moves cs :
  NoDup cs.1 → NoDup (foldl visit cs moves).1.
Proof.
  revert cs. induction moves as [|next moves IH]; intros cs H; simpl; [done|].
  apply IH. unfold visit. destruct (decide (next ∈ cs.1)); [done|]. simpl.
  apply NoDup_app. split; [done|]. split; [|apply NoDup_singleton].
  intros x Hx ->%list_elem_of_singleton. done.
Qed.

(** Whatever one iteration preserves holds when the loop exits. *)
Lemma closure_loop_invariant (Inv : list string * list string → Prop) :
  (∀ closure current rest,
     Inv (closure, current :: rest) → Inv (loop_body ts closure current rest)) →
  ∀ cs, Inv cs → Inv (closure_loop ts cs, []).
Proof.
  intros Hstep cs. funelim (closure_loop ts cs); intros HI.
  - done.
  - apply H; auto.
Qed.

Lemma unseen_le pool closure : unseen pool closure ≤ length pool.
Proof. unfold unseen. apply length_filter. Qed.

(** The fuelled loop exits within [loop_measure] iterations, with the
    value of [closure_loop]. *)
Lemma closure_loop_fuel_enough fuel cs :
  loop_measure ts cs ≤ fuel →
  closure_loop_fuel fuel ts cs = Some (closure_loop ts cs).
Proof.
  revert cs. induction fuel as [|fuel IH]; intros [closure stack] Hm.
  - destruct stack as [|current rest]; simpl.
    + by simp closure_loop.
    + unfold loop_measure in Hm. simpl in Hm. lia.
  - destruct stack as [|current rest]; simpl.
    + by simp closure_loop.
    + simp closure_loop. apply IH.
      pose proof (loop_body_measure ts closure current rest). lia.
Qed.

Lemma closure_loop_fuel_Some fuel cs res :
  closure_loop_fuel fuel ts cs = Some res → closure_loop ts cs = res.
Proof.
  revert cs. induction fuel as [|fuel IH]; intros [closure stack];
    destruct stack as [|current rest]; simpl; simp closure_loop;
    try congruence.
Qed.

(** What is in the closure was put there along epsilon edges. *)
Lemma closure_loop_sound (Q : string → Prop) cs :
  (∀ r s, Q r → epsilonEdge ts r s → Q s) →
  (∀ x, x ∈ cs.1 → Q x) → (∀ x, x ∈ cs.2 → Q x) →
  ∀ x, x ∈ closure_loop ts cs → Q x.
Proof.
  intros HQ H1 H2.
  pose proof (closure_loop_invariant
    (λ cs, (∀ x, x ∈ cs.1 → Q x) ∧ (∀ x, x ∈ cs.2 → Q x))) as Hinv.
  simpl in Hinv. apply Hinv; [|done].
  clear -HQ. intros closure current rest [H1 H2]. unfold loop_body. split.
  - intros x [Hx|Hx]%foldl_visit_closure; [by apply H1|].
    apply elem_of_epsilonMoves in Hx. eapply HQ; [|done]. apply H2. by left.
  - intros x [Hx|Hx]%foldl_visit_stack; [apply H2; by right|].
    apply elem_of_epsilonMoves in Hx. eapply HQ; [|done]. apply H2. by left.
Qed.

(** A member of the closure is either still on the stack or has all its
    epsilon successors in the closure. *)
Definition expanded (cs : list string * list string) : Prop :=
  ∀ r, r ∈ cs.1 → r ∈ cs.2 ∨ ∀ s, epsilonEdge ts r s → s ∈ cs.1.

Lemma loop_body_expanded closure current rest :
  expanded (closure, current :: rest) →
  expanded (loop_body ts closure current rest).
Proof.
  unfold expanded, loop_body. simpl. intros HI r Hr.
  apply foldl_visit_pushed in Hr as [Hr|Hr]; [|by left]. simpl in Hr.
  destruct (HI r Hr) as [[->|Hin]%elem_of_cons|Hclosed].
  - right. intros s Hs. apply foldl_visit_closure. right.
    by apply elem_of_epsilonMoves.
  - left. by apply foldl_visit_stack_mono.
  - right. intros s Hs. apply foldl_visit_closure. left. by apply Hclosed.
Qed.

Lemma closure_loop_closed cs r s :
  expanded cs → r ∈ closure_loop ts cs → epsilonEdge ts r s →
  s ∈ closure_loop ts cs.
Proof.
  intros HI Hr Hs.
  pose proof (closure_loop_invariant expanded loop_body_expanded cs HI) as H.
  destruct (H r Hr) as [Hnil|Hc]; [by apply elem_of_nil in Hnil|by apply Hc].
Qed.

Lemma closure_loop_keeps cs x : x ∈ cs.1 → x ∈ closure_loop ts cs.
Proof.
  intros Hx.
  apply (closure_loop_invariant (λ cs, x ∈ cs.1)); [|done].
  intros closure current rest H. apply foldl_visit_closure. by left.
Qed.

Lemma closure_loop_NoDup cs : NoDup cs.1 → NoDup (closure_loop ts cs).
Proof.
  intros H. apply (closure_loop_invariant (λ cs, NoDup cs.1)); [|done].
  intros closure current rest Hc. by apply foldl_visit_NoDup.
Qed.

(** The loop started as in line 11-12 computes the states reachable from
    [state] along epsilon edges. *)
Lemma elem_of_closure_loop state s :
  s ∈ closure_loop ts ([state], [state]) ↔ epsilonReachable ts state s.
Proof.
  split.
  - apply closure_loop_sound; simpl.
    + intros r s' Hr He. by eapply rtc_r.
    + by intros x ->%list_elem_of_singleton.
    + by intros x ->%list_elem_of_singleton.
  - revert s. apply rtc_ind_r.
    + apply closure_loop_keeps. by left.
    + intros r s _ Hedge IH. eapply closure_loop_closed; [|exact IH|exact Hedge].
      intros x Hx. by left.
Qed.
End closure_loop.

(** * Properties of [computeStateEpsilonClosure] *)

Lemma elem_of_computeStateEpsilonClosure ts state s :
  s ∈ computeStateEpsilonClosure state ts ↔ epsilonReachable ts state s.
Proof.
  unfold computeStateEpsilonClosure.
  rewrite merge_sort_Permutation. apply elem_of_closure_loop.
Qed.

Lemma computeStateEpsilonClosure_refl ts state :
  state ∈ computeStateEpsilonClosure state ts.
Proof. apply elem_of_computeStateEpsilonClosure. constructor. Qed.

Lemma computeStateEpsilonClosure_closed ts state r s :
  r ∈ computeStateEpsilonClosure state ts → epsilonEdge ts r s →
  s ∈ computeStateEpsilonClosure state ts.
Proof.
  rewrite !elem_of_computeStateEpsilonClosure. intros Hr He. by eapply rtc_r.
Qed.

Lemma lexLe_refl (l : list N) : lexLe l l = true.
Proof.
  induction l as [|x l IH]; [done|]. simpl.
  by rewrite N.eqb_refl, IH, orb_true_r.
Qed.

Lemma lexLe_cons (x y : N) (l1 l2 : list N) :
  lexLe (x :: l1) (y :: l2) = true ↔ (x < y)%N ∨ x = y ∧ lexLe l1 l2 = true.
Proof.
  simpl. rewrite orb_true_iff, andb_true_iff, N.ltb_lt, N.eqb_eq. done.
Qed.

Lemma lexLe_trans (l1 l2 l3 : list N) :
  lexLe l1 l2 = true → lexLe l2 l3 = true → lexLe l1 l3 = true.
Proof.
  revert l2 l3. induction l1 as [|x l1 IH]; intros [|y l2] [|z l3]; try done.
  rewrite !lexLe_cons. intros [Hxy|[-> H12]] [Hyz|[-> H23]].
  - left. lia.
  - by left.
  - by left.
  - right. split; [done|]. by eapply IH.
Qed.

Lemma lexLe_total (l1 l2 : list N) : lexLe l1 l2 = true ∨ lexLe l2 l1 = true.
Proof.
  revert l2. induction l1 as [|x l1 IH]; intros [|y l2]; try (by left); [by right|].
  rewrite !lexLe_cons.
  destruct (N.lt_trichotomy x y) as [Hlt|[->|Hgt]]; [by left; left| |by right; left].
  destruct (IH l2); [left|right]; by right.
Qed.

Global Instance codeUnitLe_refl : Reflexive codeUnitLe.
Proof. intros s. apply lexLe_refl. Qed.
Global Instance codeUnitLe_trans : Transitive codeUnitLe.
Proof. intros s1 s2 s3. apply lexLe_trans. Qed.
Global Instance codeUnitLe_total : Total codeUnitLe.
Proof. intros s1 s2. apply lexLe_total. Qed.

Lemma computeStateEpsilonClosure_sorted ts state :
  StronglySorted codeUnitLe (computeStateEpsilonClosure state ts).
Proof. apply (StronglySorted_merge_sort codeUnitLe). Qed.

Lemma computeStateEpsilonClosure_NoDup ts state :
  NoDup (computeStateEpsilonClosure state ts).
Proof.
  unfold computeStateEpsilonClosure. rewrite merge_sort_Permutation.
  apply closure_loop_NoDup. simpl. apply NoDup_singleton.
Qed.

Lemma computeStateEpsilonClosure_no_edge ts state :
  (∀ s, ¬ epsilonEdge ts state s) → computeStateEpsilonClosure state ts = [state].
Proof.
  intros Hno. unfold computeStateEpsilonClosure. simp closure_loop.
  unfold loop_body.
  assert (epsilonMoves ts state = []) as ->.
  { destruct (epsilonMoves ts state) as [|s l] eqn:E; [done|].
    destruct (Hno s). apply elem_of_epsilonMoves. rewrite E. by left. }
  simpl. by simp closure_loop.
Qed.

(** * Properties of [computeAllEpsilonClosures] *)

Lemma foldl_insert_closure_lookup ts (l : list string) (m : EpsilonClosureMap) q :
  foldl (λ map state, <[state := computeStateEpsilonClosure state ts]> map) m l !! q
  = if decide (q ∈ l) then Some (computeStateEpsilonClosure q ts) else m !! q.
Proof.
  revert m. induction l as [|x l IH]; intros m; cbn [foldl].
  - by rewrite decide_False by apply not_elem_of_nil.
  - rewrite IH. destruct (decide (q ∈ l)) as [Hin|Hnin].
    + rewrite decide_True; [done|by right].
    + destruct (decide (x = q)) as [->|Hne].
      * rewrite decide_True by (by left). apply lookup_insert_eq.
      * rewrite decide_False; [by apply lookup_insert_ne|].
        intros [->|?]%elem_of_cons; done.
Qed.

Lemma computeAllEpsilonClosures_lookup enfa q :
  computeAllEpsilonClosures enfa !! q
  = if decide (q ∈ states enfa)
    then Some (computeStateEpsilonClosure q (transitions enfa)) else None.
Proof. unfold computeAllEpsilonClosures. by rewrite foldl_insert_closure_lookup. Qed.

Lemma computeAllEpsilonClosures_Some enfa q :
  q ∈ states enfa →
  computeAllEpsilonClosures enfa !! q
  = Some (computeStateEpsilonClosure q (transitions enfa)).
Proof. intros H. by rewrite computeAllEpsilonClosures_lookup, decide_True. Qed.

Lemma computeAllEpsilonClosures_None enfa q :
  q ∉ states enfa → computeAllEpsilonClosures enfa !! q = None.
Proof. intros H. by rewrite computeAllEpsilonClosures_lookup, decide_False. Qed.

Lemma getArray_closures enfa q :
  q ∈ states enfa →
  getArray (computeAllEpsilonClosures enfa) q
  = Returned (computeStateEpsilonClosure q (transitions enfa)).
Proof. intros H. unfold getArray. by rewrite computeAllEpsilonClosures_Some. Qed.

(** The object of [JSObject] answers [map[k]] as the [gmap] does. *)
Lemma JSObject_get_assign (k key : string) (v : list string) (map : JSObject.t) :
  JSObject.get k (JSObject.assign key v map)
  = if decide (key = k) then Some v else JSObject.get k map.
Proof.
  unfold JSObject.get, JSObject.assign.
  destruct (decide (key = "__proto__")) as [->|Hkey]; simpl.
  - destruct (decide (k = "__proto__")) as [->|Hk].
    + by rewrite decide_True.
    + by rewrite decide_False.
  - destruct (decide (k = "__proto__")) as [->|Hk].
    + by rewrite decide_False.
    + destruct (decide (key = k)) as [->|Hne];
        [apply lookup_insert_eq|by apply lookup_insert_ne].
Qed.

Lemma JSObject_get_foldl ts (l : list string) (map : JSObject.t)
    (m : EpsilonClosureMap) :
  (∀ k, JSObject.get k map = m !! k) →
  ∀ k, JSObject.get k
         (foldl (λ map state,
                   JSObject.assign state (computeStateEpsilonClosure state ts) map)
                map l)
       = foldl (λ map state, <[state := computeStateEpsilonClosure state ts]> map)
               m l !! k.
Proof.
  revert map m. induction l as [|x l IH]; intros map m Hget k; cbn [foldl]; [done|].
  apply IH. intros k'. rewrite JSObject_get_assign.
  destruct (decide (x = k')) as [->|Hne];
    [by rewrite lookup_insert_eq|by rewrite lookup_insert_ne].
Qed.

Lemma JSObject_get_closures enfa k :
  JSObject.get k (JSObject.computeAllEpsilonClosures enfa)
  = computeAllEpsilonClosures enfa !! k.
Proof.
  unfold JSObject.computeAllEpsilonClosures, computeAllEpsilonClosures.
  apply JSObject_get_foldl. intros k'. unfold JSObject.get. simpl.
  rewrite lookup_empty. by case_decide.
Qed.

Lemma JSObject_keys_assign (key : string) (v : list string) (map : JSObject.t) :
  JSObject.keys (JSObject.assign key v map)
  = if decide (key = "__proto__") then JSObject.keys map
    else {[key]} ∪ JSObject.keys map.
Proof.
  unfold JSObject.keys, JSObject.assign.
  destruct (decide (key = "__proto__")); simpl; [done|].
  apply dom_insert_L.
Qed.

Lemma JSObject_keys_foldl ts (l : list string) (map : JSObject.t) :
  JSObject.keys
    (foldl (λ map state,
              JSObject.assign state (computeStateEpsilonClosure state ts) map)
           map l)
  = list_to_set (filter (λ q, q ≠ "__proto__") l) ∪ JSObject.keys map.
Proof.
  revert map. induction l as [|x l IH]; intros map; cbn [foldl].
  - rewrite filter_nil, list_to_set_nil. by rewrite (left_id_L ∅ (∪)).
  - rewrite IH, JSObject_keys_assign.
    destruct (decide (x = "__proto__")) as [->|Hne].
    + by rewrite filter_cons_False by (intros H; by apply H).
    + rewrite filter_cons_True by done.
      apply set_eq. intros y. rewrite list_to_set_cons, !elem_of_union. tauto.
Qed.

Lemma JSObject_keys_closures enfa :
  JSObject.keys (JSObject.computeAllEpsilonClosures enfa)
  = list_to_set (filter (λ q, q ≠ "__proto__") (states enfa)).
Proof.
  unfold JSObject.computeAllEpsilonClosures. rewrite JSObject_keys_foldl.
  unfold JSObject.keys. simpl. by rewrite dom_empty_L, (right_id_L ∅ (∪)).
Qed.

(** * Loops that may throw *)

Section foldlM.
Context {A B : Type} (body : B → A → outcome B).

(** A loop whose body throws on the same elements whatever the
    accumulator throws exactly when it meets one. *)
Lemma foldlM_TypeError (throws : A → Prop) l acc :
  (∀ acc x, x ∈ l → body acc x = TypeError ↔ throws x) →
  foldlM body acc l = TypeError ↔ ∃ x, x ∈ l ∧ throws x.
Proof.
  revert acc. induction l as [|x l IH]; intros acc Hbody; simpl.
  - split; [done|]. intros (x & Hx & _). by apply elem_of_nil in Hx.
  - assert (∀ acc y, y ∈ l → body acc y = TypeError ↔ throws y) as Hl.
    { intros ?? Hy. apply Hbody. by right. }
    destruct (body acc x) as [acc'|] eqn:E; simpl.
    + rewrite (IH _ Hl). split.
      * intros (y & Hy & Ht). exists y. split; [by right|done].
      * intros (y & [->|Hy]%elem_of_cons & Ht).
        -- apply (Hbody acc) in Ht; [congruence|by left].
        -- by exists y.
    + split; [|done]. intros _. exists x. split; [by left|].
      apply (Hbody acc); [by left|done].
Qed.

Lemma foldlM_invariant (Inv : B → Prop) l acc res :
  (∀ acc x acc', x ∈ l → body acc x = Returned acc' → Inv acc → Inv acc') →
  foldlM body acc l = Returned res → Inv acc → Inv res.
Proof.
  revert acc. induction l as [|x l IH]; intros acc Hbody; simpl.
  - by intros [= ->].
  - destruct (body acc x) as [acc'|] eqn:E; simpl; [|done].
    intros Hres HI. apply (IH acc'); [|done|].
    + intros ??? Hin. apply Hbody. by right.
    + eapply Hbody; [by left|done..].
Qed.
End foldlM.

(** A loop that adds to an array: what it returns holds what it started
    with and what each round contributes. *)
Lemma foldlM_elem_of {A T : Type} (body : list T → A → outcome (list T))
    (adds : A → T → Prop) l acc res :
  (∀ acc x acc', x ∈ l → body acc x = Returned acc' →
     ∀ t, t ∈ acc' ↔ t ∈ acc ∨ adds x t) →
  foldlM body acc l = Returned res →
  ∀ t, t ∈ res ↔ t ∈ acc ∨ ∃ x, x ∈ l ∧ adds x t.
Proof.
  revert acc. induction l as [|x l IH]; intros acc Hbody; simpl.
  - intros [= ->] t. split; [by left|]. intros [?|(x & Hx & _)]; [done|].
    by apply elem_of_nil in Hx.
  - destruct (body acc x) as [acc'|] eqn:E; simpl; [|done].
    intros Hres t. rewrite (IH acc') by (try done; intros ??? Hin; apply Hbody; by right).
    rewrite (Hbody acc x acc') by (done || by left). split.
    + intros [[?|?]|(y & Hy & Ht)]; [by left|right..].
      * exists x. split; [by left|done].
      * exists y. split; [by right|done].
    + intros [?|(y & [->|Hy]%elem_of_cons & Ht)].
      * left. by left.
      * left. by right.
      * right. by exists y.
Qed.

(** * Properties of the projection *)

Lemma elem_of_set_add x s y : y ∈ set_add x s ↔ y ∈ s ∨ y = x.
Proof.
  unfold set_add. destruct (decide (x ∈ s)).
  - split; [by left|]. by intros [?| ->].
  - by rewrite elem_of_app, list_elem_of_singleton.
Qed.

Lemma set_add_NoDup x s : NoDup s → NoDup (set_add x s).
Proof.
  unfold set_add. intros H. destruct (decide (x ∈ s)); [done|].
  apply NoDup_app. split; [done|]. split; [|apply NoDup_singleton].
  by intros y Hy ->%list_elem_of_singleton.
Qed.

Lemma elem_of_foldl_set_add {A : Type} (f : A → string) (l : list A) s y :
  y ∈ foldl (λ acc x, set_add (f x) acc) s l ↔ y ∈ s ∨ ∃ x, x ∈ l ∧ y = f x.
Proof.
  revert s. induction l as [|x l IH]; intros s; simpl.
  - split; [by left|]. intros [?|(x & Hx & _)]; [done|]. by apply elem_of_nil in Hx.
  - rewrite IH, elem_of_set_add. split.
    + intros [[?| ->]|(z & Hz & ->)]; [by left|right..].
      * exists x. split; [by left|done].
      * exists z. split; [by right|done].
    + intros [?|(z & [->|Hz]%elem_of_cons & ->)].
      * left. by left.
      * left. by right.
      * right. by exists z.
Qed.

Lemma foldl_set_add_NoDup {A : Type} (f : A → string) (l : list A) s :
  NoDup s → NoDup (foldl (λ acc x, set_add (f x) acc) s l).
Proof.
  revert s. induction l as [|x l IH]; intros s H; simpl; [done|].
  by apply IH, set_add_NoDup.
Qed.

Lemma elem_of_reachedAfterSymbol ts qClosure a s :
  s ∈ reachedAfterSymbol ts qClosure a ↔ symbolStep ts qClosure a s.
Proof.
  unfold reachedAfterSymbol, symbolStep.
  assert (∀ acc,
    s ∈ foldl (λ reached p,
                 foldl (λ reached' t, set_add (to t) reached') reached
                       (filter (λ t, from t = p ∧ symbol t = a) ts))
              acc qClosure
    ↔ s ∈ acc ∨ ∃ t, t ∈ ts ∧ from t ∈ qClosure ∧ symbol t = a ∧ to t = s) as H.
  { induction qClosure as [|p l IH]; intros acc; simpl.
    - split; [by left|]. intros [?|(t & _ & Hp & _)]; [done|].
      by apply elem_of_nil in Hp.
    - rewrite IH, (elem_of_foldl_set_add to). split.
      + intros [[?|(t & Ht & ->)]|(t & Ht & Hf & Ha & Hs)]; [by left|right..].
        * apply list_elem_of_filter in Ht as [[Hf Ha] Ht].
          exists t. repeat split; try done. rewrite Hf. by left.
        * exists t. repeat split; try done. by right.
      + intros [?|(t & Ht & [Hf|Hf]%elem_of_cons & Ha & Hs)].
        * left. by left.
        * left. right. exists t. split; [|done].
          apply list_elem_of_filter. by repeat split.
        * right. by exists t. }
  rewrite H. split; [|by right]. intros [Hn|?]; [|done]. by apply elem_of_nil in Hn.
Qed.

Section finalReached.
Variable closures : EpsilonClosureMap.

Lemma finalReached_TypeError reached :
  finalReached closures reached = TypeError
  ↔ ∃ s, s ∈ reached ∧ closures !! s = None.
Proof.
  unfold finalReached. apply foldlM_TypeError.
  intros acc s _. unfold getArray. destruct (closures !! s); simpl; split; done.
Qed.

Lemma elem_of_finalReached reached final :
  finalReached closures reached = Returned final →
  ∀ c, c ∈ final
       ↔ ∃ s sClosure, s ∈ reached ∧ closures !! s = Some sClosure ∧ c ∈ sClosure.
Proof.
  intros H c.
  eapply (foldlM_elem_of _
    (λ s c, ∃ sClosure, closures !! s = Some sClosure ∧ c ∈ sClosure)) in H.
  - rewrite H. split.
    + intros [Hn|(s & Hs & sC & HsC & Hc)]; [by apply elem_of_nil in Hn|].
      by exists s, sC.
    + intros (s & sC & Hs & HsC & Hc). right. exists s. split; [done|].
      by exists sC.
  - intros acc s acc' _. unfold getArray.
    destruct (closures !! s) as [sC|]; simpl; [|done].
    intros [= <-] t. rewrite (elem_of_foldl_set_add id). split.
    + intros [?|(x & Hx & ->)]; [by left|]. right. by exists sC.
    + intros [?|(sC' & [= <-] & Ht)]; [by left|]. right. by exists t.
Qed.

Lemma finalReached_NoDup reached final :
  finalReached closures reached = Returned final → NoDup final.
Proof.
  intros H. eapply (foldlM_invariant _ (λ l, NoDup l)) in H; [done| |constructor].
  intros acc s acc' _. unfold getArray.
  destruct (closures !! s) as [sC|]; simpl; [|done].
  intros [= <-]. apply (foldl_set_add_NoDup id).
Qed.
End finalReached.

Lemma find_triple_None q target a (l : list Transition) :
  find (λ t, bool_decide (from t = q) && bool_decide (to t = target)
             && bool_decide (symbol t = a)) l = None
  ↔ mkTransition q target a ∉ l.
Proof.
  induction l as [|[f t' s'] l IH]; simpl.
  - split; [|done]. intros _. apply not_elem_of_nil.
  - rewrite not_elem_of_cons.
    destruct (decide (f = q)) as [->|Hf]; destruct (decide (t' = target)) as [->|Ht];
      destruct (decide (s' = a)) as [->|Hs];
      rewrite ?bool_decide_true, ?bool_decide_false by done; simpl;
      try (rewrite IH; split; [intros ?; split; [congruence|done]|by intros [_ ?]]).
    split; [done|]. by intros [? _].
Qed.

Lemma elem_of_pushTransition q a l target t :
  t ∈ pushTransition q a l target ↔ t ∈ l ∨ t = mkTransition q target a.
Proof.
  unfold pushTransition.
  destruct (find _ l) as [t'|] eqn:E.
  - split; [by left|]. intros [?| ->]; [done|].
    destruct (decide (mkTransition q target a ∈ l)) as [|Hn]; [done|].
    apply find_triple_None in Hn. congruence.
  - by rewrite elem_of_app, list_elem_of_singleton.
Qed.

Lemma pushTransition_NoDup q a l target :
  NoDup l → NoDup (pushTransition q a l target).
Proof.
  unfold pushTransition. intros H.
  destruct (find _ l) as [t'|] eqn:E; [done|].
  apply find_triple_None in E.
  apply NoDup_app. split; [done|]. split; [|apply NoDup_singleton].
  by intros y Hy ->%list_elem_of_singleton.
Qed.

Lemma elem_of_foldl_pushTransition q a final l t :
  t ∈ foldl (pushTransition q a) l final
  ↔ t ∈ l ∨ ∃ target, target ∈ final ∧ t = mkTransition q target a.
Proof.
  revert l. induction final as [|x final IH]; intros l; simpl.
  - split; [by left|]. intros [?|(x & Hx & _)]; [done|]. by apply elem_of_nil in Hx.
  - rewrite IH, elem_of_pushTransition. split.
    + intros [[?| ->]|(z & Hz & ->)]; [by left|right..].
      * exists x. split; [by left|done].
      * exists z. split; [by right|done].
    + intros [?|(z & [->|Hz]%elem_of_cons & ->)].
      * left. by left.
      * left. by right.
      * right. by exists z.
Qed.

Lemma foldl_pushTransition_NoDup q a final l :
  NoDup l → NoDup (foldl (pushTransition q a) l final).
Proof.
  revert l. induction final as [|x final IH]; intros l H; simpl; [done|].
  by apply IH, pushTransition_NoDup.
Qed.

Section projection.
Variable enfa : Automaton.
Let cl := computeAllEpsilonClosures enfa.

Lemma symbolStep_closure q a s :
  symbolStep (transitions enfa)
             (computeStateEpsilonClosure q (transitions enfa)) a s
  ↔ ∃ p t, epsilonReachable (transitions enfa) q p ∧ t ∈ transitions enfa ∧
           from t = p ∧ symbol t = a ∧ to t = s.
Proof.
  unfold symbolStep. split.
  - intros (t & Ht & Hf & Ha & Hs). exists (from t), t.
    by rewrite <-elem_of_computeStateEpsilonClosure.
  - intros (p & t & Hp & Ht & <- & Ha & Hs). exists t.
    by rewrite elem_of_computeStateEpsilonClosure.
Qed.

Lemma projectPair_TypeError q nt a :
  q ∈ states enfa →
  projectPair enfa cl q nt a = TypeError ↔ dangling enfa q a.
Proof.
  intros Hq. unfold projectPair, cl. rewrite getArray_closures by done. simpl.
  destruct (finalReached _ _) as [final|] eqn:E; simpl.
  - split; [done|]. intros (p & t & Hp & Ht & Hf & Ha & Hs).
    assert (finalReached (computeAllEpsilonClosures enfa)
              (reachedAfterSymbol (transitions enfa)
                 (computeStateEpsilonClosure q (transitions enfa)) a)
            = TypeError) as Hthrow; [|congruence].
    apply finalReached_TypeError. exists (to t). split.
    + apply elem_of_reachedAfterSymbol, symbolStep_closure. by exists p, t.
    + by apply computeAllEpsilonClosures_None.
  - split; [intros _|done].
    apply finalReached_TypeError in E as (s & Hs & Hnone).
    apply elem_of_reachedAfterSymbol, symbolStep_closure in Hs
      as (p & t & Hp & Ht & Hf & Ha & <-).
    exists p, t. repeat split; try done. intros Hin.
    by rewrite computeAllEpsilonClosures_Some in Hnone.
Qed.

Lemma elem_of_projectPair q nt a nt' :
  q ∈ states enfa →
  projectPair enfa cl q nt a = Returned nt' →
  ∀ t, t ∈ nt'
       ↔ t ∈ nt ∨ ∃ target, t = mkTransition q target a ∧ projected enfa q a target.
Proof.
  intros Hq. unfold projectPair, cl. rewrite getArray_closures by done. simpl.
  destruct (finalReached _ _) as [final|] eqn:E; simpl; [|done].
  intros [= <-] t. rewrite elem_of_foldl_pushTransition.
  pose proof (elem_of_finalReached _ _ _ E) as Hfinal.
  apply or_iff_compat_l. split.
  - intros (target & Htarget & ->). exists target. split; [done|].
    apply Hfinal in Htarget as (s & sC & Hs & HsC & Hc).
    apply elem_of_reachedAfterSymbol, symbolStep_closure in Hs
      as (p & t & Hp & Ht & Hf & Ha & <-).
    exists p, t. repeat split; try done.
    rewrite computeAllEpsilonClosures_lookup in HsC.
    destruct (decide (to t ∈ states enfa)); [|done].
    injection HsC as <-. by apply elem_of_computeStateEpsilonClosure.
  - intros (target & -> & p & e & Hp & Ht & Hf & Ha & Hreach).
    exists target. split; [|done]. apply Hfinal.
    assert (to e ∈ reachedAfterSymbol (transitions enfa)
              (computeStateEpsilonClosure q (transitions enfa)) a) as Hs.
    { apply elem_of_reachedAfterSymbol, symbolStep_closure. by exists p, e. }
    destruct (computeAllEpsilonClosures enfa !! to e) as [sC|] eqn:HsC.
    + exists (to e), sC. repeat split; try done.
      rewrite computeAllEpsilonClosures_lookup in HsC.
      destruct (decide (to e ∈ states enfa)); [|done].
      injection HsC as <-. by apply elem_of_computeStateEpsilonClosure.
    + assert (finalReached (computeAllEpsilonClosures enfa)
                (reachedAfterSymbol (transitions enfa)
                   (computeStateEpsilonClosure q (transitions enfa)) a)
              = TypeError) as Hthrow; [|congruence].
      apply finalReached_TypeError. by exists (to e).
Qed.

Lemma projectPair_NoDup q nt a nt' :
  q ∈ states enfa →
  projectPair enfa cl q nt a = Returned nt' → NoDup nt → NoDup nt'.
Proof.
  intros Hq. unfold projectPair, cl. rewrite getArray_closures by done. simpl.
  destruct (finalReached _ _) as [final|] eqn:E; simpl; [|done].
  intros [= <-]. apply foldl_pushTransition_NoDup.
Qed.

Lemma projectTransitions_TypeError :
  projectTransitions enfa cl = TypeError
  ↔ ∃ q a, q ∈ states enfa ∧ a ∈ alphabetWithoutEpsilon enfa ∧ dangling enfa q a.
Proof.
  unfold projectTransitions.
  rewrite (foldlM_TypeError _
    (λ q, ∃ a, a ∈ alphabetWithoutEpsilon enfa ∧ dangling enfa q a)).
  - split; intros (q & H); exists q; [destruct H as (Hq & a & Ha & Hd)|
                                     destruct H as (a & Hq & Ha & Hd)].
    + by exists a.
    + split; [done|]. by exists a.
  - intros acc q Hq. apply foldlM_TypeError.
    intros acc' a _. by apply projectPair_TypeError.
Qed.

Lemma elem_of_projectTransitions nt :
  projectTransitions enfa cl = Returned nt →
  ∀ t, t ∈ nt
       ↔ ∃ q a target, q ∈ states enfa ∧ a ∈ alphabetWithoutEpsilon enfa ∧
                       t = mkTransition q target a ∧ projected enfa q a target.
Proof.
  unfold projectTransitions. intros H t.
  eapply (foldlM_elem_of _
    (λ q t, ∃ a target, a ∈ alphabetWithoutEpsilon enfa ∧
                        t = mkTransition q target a ∧ projected enfa q a target))
    in H.
  - rewrite H. split.
    + intros [Hn|(q & Hq & a & target & Ha & Ht & Hp)];
        [by apply elem_of_nil in Hn|]. by exists q, a, target.
    + intros (q & a & target & Hq & Ha & Ht & Hp). right.
      exists q. split; [done|]. by exists a, target.
  - intros acc q acc' Hq Hinner t'.
    eapply (foldlM_elem_of _
      (λ a t, ∃ target, t = mkTransition q target a ∧ projected enfa q a target))
      in Hinner.
    + rewrite Hinner. apply or_iff_compat_l. split.
      * intros (a & Ha & target & Ht & Hp). by exists a, target.
      * intros (a & target & Ha & Ht & Hp). exists a. split; [done|].
        by exists target.
    + intros acc1 a acc2 _ Hpair. by apply elem_of_projectPair.
Qed.

Lemma projectTransitions_NoDup nt :
  projectTransitions enfa cl = Returned nt → NoDup nt.
Proof.
  unfold projectTransitions. intros H.
  eapply (foldlM_invariant _ (λ l, NoDup l)) in H; [done| |constructor].
  intros acc q acc' Hq Hinner Hacc.
  eapply (foldlM_invariant _ (λ l, NoDup l)) in Hinner; [done| |done].
  intros acc1 a acc2 _. by apply projectPair_NoDup.
Qed.
End projection.

(** * Properties of the final-state selection *)

Lemma existsb_Exists {A : Type} (P : A → Prop) `{!∀ x, Decision (P x)} (l : list A) :
  existsb (λ x, bool_decide (P x)) l = bool_decide (Exists P l).
Proof.
  assert (existsb (λ x, bool_decide (P x)) l = true ↔ Exists P l) as Hiff.
  { rewrite existsb_exists, Exists_exists.
    setoid_rewrite <-list_elem_of_In. by setoid_rewrite bool_decide_eq_true. }
  destruct (existsb _ l); symmetry.
  - by apply bool_decide_eq_true, Hiff.
  - apply bool_decide_eq_false. intros HE. by apply Hiff in HE.
Qed.

Lemma filterM_closures enfa (l : list string) :
  l ⊆ states enfa →
  filterM (λ q,
             qClosure ← getArray (computeAllEpsilonClosures enfa) q;
             mret (existsb (λ s, bool_decide (s ∈ finalStates enfa)) qClosure)) l
  = Returned (filter (closureMeetsFinal enfa) l).
Proof.
  induction l as [|q l IH]; intros Hsub; [done|].
  cbn [filterM]. rewrite getArray_closures by (apply Hsub; by left).
  rewrite IH by (intros x Hx; apply Hsub; by right). simpl.
  rewrite (existsb_Exists (λ s, s ∈ finalStates enfa)), filter_cons.
  unfold closureMeetsFinal at 2. by case_decide; [rewrite bool_decide_true|rewrite bool_decide_false].
Qed.

Lemma newFinalStates_Returned enfa :
  newFinalStates enfa (computeAllEpsilonClosures enfa)
  = Returned (filter (closureMeetsFinal enfa) (states enfa)).
Proof. by apply filterM_closures. Qed.

Lemma closureMeetsFinal_reachable enfa q :
  closureMeetsFinal enfa q
  ↔ ∃ f, epsilonReachable (transitions enfa) q f ∧ f ∈ finalStates enfa.
Proof.
  unfold closureMeetsFinal. rewrite Exists_exists.
  by setoid_rewrite elem_of_computeStateEpsilonClosure.
Qed.

(** * Properties of [convertENFAToNFA] *)

Lemma elem_of_alphabetWithoutEpsilon enfa a :
  a ∈ alphabetWithoutEpsilon enfa ↔ a ∈ alphabet enfa ∧ isEpsilon a = false.
Proof.
  unfold alphabetWithoutEpsilon, isEpsilon. rewrite list_elem_of_filter.
  rewrite orb_false_iff, !bool_decide_eq_false. tauto.
Qed.

Lemma convertENFAToNFA_Returned enfa r :
  convertENFAToNFA enfa = Returned r
  ↔ ∃ newTransitions,
      projectTransitions enfa (computeAllEpsilonClosures enfa)
        = Returned newTransitions ∧
      r = {| nfa := {| states := states enfa;
                       alphabet := alphabetWithoutEpsilon enfa;
                       transitions := newTransitions;
                       initialState := initialState enfa;
                       finalStates := filter (closureMeetsFinal enfa) (states enfa) |};
             closures := computeAllEpsilonClosures enfa |}.
Proof.
  unfold convertENFAToNFA. rewrite newFinalStates_Returned.
  destruct (projectTransitions _ _) as [nt|]; simpl.
  - split; [intros [= <-]; by exists nt|by intros (? & [= <-] & ->)].
  - split; [done|by intros (? & ? & _)].
Qed.

(** The one failure of the converter: a symbol step from the closure of a
    declared state into an undeclared state. *)
Lemma convertENFAToNFA_TypeError enfa :
  convertENFAToNFA enfa = TypeError
  ↔ ∃ q a, q ∈ states enfa ∧ a ∈ alphabetWithoutEpsilon enfa ∧ dangling enfa q a.
Proof.
  rewrite <-projectTransitions_TypeError.
  unfold convertENFAToNFA. rewrite newFinalStates_Returned.
  by destruct (projectTransitions _ _).
Qed.

Lemma convertENFAToNFA_returns enfa :
  (∀ t, t ∈ transitions enfa → to t ∈ states enfa) →
  ∃ r, convertENFAToNFA enfa = Returned r.
Proof.
  intros Hto. destruct (convertENFAToNFA enfa) as [r|] eqn:E; [by exists r|].
  apply convertENFAToNFA_TypeError in E
    as (q & a & _ & _ & p & t & _ & Ht & _ & _ & Hdangling).
  destruct Hdangling. by apply Hto.
Qed.

(** * The heap model computes the same values, in fresh cells *)

Section heap_steps.
Context {A B : Type}.

Lemma bind_Returned (m : Heap.M A) (k : A → Heap.M B) h a h' :
  m h = Some (Returned a, h') → (m ≫= k) h = k a h'.
Proof. unfold mbind, Heap.M_bind. by intros ->. Qed.

Lemma bind_TypeError (m : Heap.M A) (k : A → Heap.M B) h h' :
  m h = Some (TypeError, h') → (m ≫= k) h = Some (TypeError, h').
Proof. unfold mbind, Heap.M_bind. by intros ->. Qed.

Lemma bind_timeout (m : Heap.M A) (k : A → Heap.M B) h :
  m h = None → (m ≫= k) h = None.
Proof. unfold mbind, Heap.M_bind. by intros ->. Qed.
End heap_steps.

Lemma loadStrings_run h l xs :
  h !! l = Some (Heap.Strings xs) → Heap.loadStrings l h = Some (Returned xs, h).
Proof. unfold Heap.loadStrings. by intros ->. Qed.

Lemma loadTransitions_run h l ts :
  h !! l = Some (Heap.Transitions ts) →
  Heap.loadTransitions l h = Some (Returned ts, h).
Proof. unfold Heap.loadTransitions. by intros ->. Qed.

Lemma loadClosureMap_run h l m :
  h !! l = Some (Heap.ClosureMap m) →
  Heap.loadClosureMap l h = Some (Returned m, h).
Proof. unfold Heap.loadClosureMap. by intros ->. Qed.

Lemma loadObject_run h l o :
  h !! l = Some (Heap.Object o) → Heap.loadObject l h = Some (Returned o, h).
Proof. unfold Heap.loadObject. by intros ->. Qed.

(** Writing the cell of a Set or of an array leaves the other cells. *)
Lemma add_run h set xs x :
  h !! set = Some (Heap.Strings xs) →
  Heap.add set x h = Some (Returned (), <[set := Heap.Strings (set_add x xs)]> h).
Proof.
  intros Hset. unfold Heap.add. rewrite (bind_Returned _ _ _ _ _ (loadStrings_run _ _ _ Hset)).
  cbv beta. unfold set_add. destruct (decide (x ∈ xs)); [|done].
  by rewrite list_insert_id.
Qed.

Lemma forEach_add_run {T : Type} (f : T → string) (l : list T) h set xs :
  h !! set = Some (Heap.Strings xs) →
  Heap.forEach (λ t, Heap.add set (f t)) l h
  = Some (Returned (),
          <[set := Heap.Strings (foldl (λ acc t, set_add (f t) acc) xs l)]> h).
Proof.
  revert h xs. induction l as [|t l IH]; intros h xs Hset; simpl.
  - by rewrite list_insert_id.
  - rewrite (bind_Returned _ _ _ _ _ (add_run _ _ _ _ Hset)).
    rewrite (IH _ (set_add (f t) xs)).
    + by rewrite list_insert_insert_eq.
    + apply list_lookup_insert_eq. by eapply lookup_lt_Some.
Qed.

(** ** The closure loop on the heap *)

Section heap_loop.
Variables (h : Heap.heap) (closure stack : Heap.loc).
Hypothesis distinct : closure ≠ stack.
Hypothesis closure_allocated : closure < length h.
Hypothesis stack_allocated : stack < length h.

Lemma withLocals_closure cs :
  withLocals h closure stack cs !! closure = Some (Heap.Strings cs.1).
Proof.
  unfold withLocals. rewrite list_lookup_insert_ne by done.
  by apply list_lookup_insert_eq.
Qed.

Lemma withLocals_stack cs :
  withLocals h closure stack cs !! stack = Some (Heap.Strings cs.2).
Proof.
  unfold withLocals. apply list_lookup_insert_eq. by rewrite length_insert.
Qed.

Lemma withLocals_other cs l :
  l ≠ closure → l ≠ stack → withLocals h closure stack cs !! l = h !! l.
Proof. intros ??. unfold withLocals. by rewrite !list_lookup_insert_ne. Qed.

Lemma withLocals_closure_set cs c :
  <[closure := Heap.Strings c]> (withLocals h closure stack cs)
  = withLocals h closure stack (c, cs.2).
Proof.
  unfold withLocals. simpl.
  by rewrite list_insert_insert_ne, list_insert_insert_eq.
Qed.

Lemma withLocals_stack_set cs s :
  <[stack := Heap.Strings s]> (withLocals h closure stack cs)
  = withLocals h closure stack (cs.1, s).
Proof. unfold withLocals. simpl. by rewrite list_insert_insert_eq. Qed.

Lemma visit_run cs next :
  Heap.visit closure stack next (withLocals h closure stack cs)
  = Some (Returned (), withLocals h closure stack (visit cs next)).
Proof.
  unfold Heap.visit, visit.
  rewrite (bind_Returned _ _ _ _ _ (loadStrings_run _ _ _ (withLocals_closure cs))).
  cbv beta. destruct (decide (next ∈ cs.1)); [done|].
  unfold mbind at 1, Heap.M_bind, Heap.store at 1. rewrite withLocals_closure_set.
  rewrite (bind_Returned _ _ _ _ _ (loadStrings_run _ _ _ (withLocals_stack _))).
  unfold Heap.store. by rewrite withLocals_stack_set.
Qed.

Lemma forEach_visit_run moves cs :
  Heap.forEach (Heap.visit closure stack) moves (withLocals h closure stack cs)
  = Some (Returned (), withLocals h closure stack (foldl visit cs moves)).
Proof.
  revert cs. induction moves as [|next moves IH]; intros cs; simpl; [done|].
  by rewrite (bind_Returned _ _ _ _ _ (visit_run cs next)).
Qed.

Lemma while_run fuel transitions ts cs :
  transitions ≠ closure → transitions ≠ stack →
  h !! transitions = Some (Heap.Transitions ts) →
  Heap.while fuel transitions closure stack (withLocals h closure stack cs)
  = match closure_loop_fuel fuel ts cs with
    | Some res => Some (Returned (), withLocals h closure stack (res, []))
    | None => None
    end.
Proof.
  intros Hc Hs Hts. revert cs. induction fuel as [|fuel IH]; intros [c s].
  - simpl.
    rewrite (bind_Returned _ _ _ _ _ (loadStrings_run _ _ _ (withLocals_stack _))).
    by destruct s.
  - simpl.
    rewrite (bind_Returned _ _ _ _ _ (loadStrings_run _ _ _ (withLocals_stack _))).
    simpl. destruct s as [|current rest]; [done|].
    unfold mbind at 1, Heap.M_bind, Heap.store at 1. rewrite withLocals_stack_set.
    erewrite bind_Returned; last first.
    { apply loadTransitions_run. by rewrite withLocals_other. }
    simpl. rewrite (bind_Returned _ _ _ _ _ (forEach_visit_run _ _)).
    apply IH.
Qed.
End heap_loop.

Lemma withLocals_fresh h a b cs :
  withLocals (h ++ [a; b]) (length h) (S (length h)) cs
  = h ++ [Heap.Strings cs.1; Heap.Strings cs.2].
Proof.
  unfold withLocals.
  rewrite (insert_app_r_alt h _ (length h)) by lia.
  rewrite (insert_app_r_alt h _ (S (length h))) by lia.
  replace (length h - length h) with 0 by lia.
  by replace (S (length h) - length h) with 1 by lia.
Qed.

Lemma insert_fresh (h : Heap.heap) c c' :
  <[length h := c']> (h ++ [c]) = h ++ [c'].
Proof.
  rewrite (insert_app_r_alt h _ (length h)) by lia.
  by replace (length h - length h) with 0 by lia.
Qed.

Lemma lookup_fresh (h : Heap.heap) c : (h ++ [c]) !! length h = Some c.
Proof. by rewrite list_lookup_middle. Qed.

(** [computeStateEpsilonClosure] on the heap allocates three cells, the
    Set, the stack and the sorted array, and writes to nothing else. *)
Lemma computeStateEpsilonClosure_run h fuel state transitions ts :
  h !! transitions = Some (Heap.Transitions ts) →
  length ts + 1 ≤ fuel →
  Heap.computeStateEpsilonClosure fuel state transitions h
  = Some (Returned (S (S (length h))),
          h ++ [Heap.Strings (closure_loop ts ([state], [state]));
                Heap.Strings [];
                Heap.Strings (computeStateEpsilonClosure state ts)]).
Proof.
  intros Hts Hfuel. pose proof (lookup_lt_Some _ _ _ Hts) as Hlt.
  unfold Heap.computeStateEpsilonClosure.
  unfold mbind at 1, Heap.M_bind, Heap.alloc at 1.
  unfold mbind at 1, Heap.M_bind, Heap.alloc at 1.
  rewrite <-app_assoc, length_app. simpl.
  replace (length h + 1) with (S (length h)) by lia.
  rewrite <-(withLocals_fresh h (Heap.Strings [state]) (Heap.Strings [state])
               ([state], [state])) at 1.
  assert (length h < length (h ++ [Heap.Strings [state]; Heap.Strings [state]]))
    as Hc by (rewrite length_app; simpl; lia).
  assert (S (length h) < length (h ++ [Heap.Strings [state]; Heap.Strings [state]]))
    as Hs by (rewrite length_app; simpl; lia).
  erewrite bind_Returned; last first.
  { rewrite (while_run _ _ _ (n_Sn _) Hc Hs fuel transitions ts) by
      (try lia; by apply lookup_app_l_Some).
    rewrite closure_loop_fuel_enough; [done|].
    unfold loop_measure. simpl.
    pose proof (unseen_le (to <$> ts) [state]) as H.
    rewrite length_fmap in H. lia. }
  rewrite withLocals_fresh. simpl.
  erewrite bind_Returned; last first.
  { apply loadStrings_run. by rewrite list_lookup_middle. }
  unfold mbind at 1, Heap.M_bind, Heap.alloc at 1.
  unfold mbind at 1, Heap.M_bind, Heap.store at 1.
  unfold mret, Heap.M_ret. rewrite length_app. simpl.
  replace (length h + 2) with (length (h ++ [Heap.Strings (closure_loop ts ([state], [state])); Heap.Strings []]))
    by (rewrite length_app; simpl; lia).
  rewrite insert_fresh, <-app_assoc. simpl.
  rewrite length_app. simpl. do 3 f_equal. lia.
Qed.

(** A cell keeps its value when another cell is written and cells are
    allocated. *)
Lemma lookup_stable (h : Heap.heap) l l' c c' junk :
  h !! l = Some c → l ≠ l' → (<[l' := c']> h ++ junk) !! l = Some c.
Proof.
  intros Hl Hne. apply lookup_app_l_Some. by rewrite list_lookup_insert_ne.
Qed.

Lemma insert_middle (h : Heap.heap) c c' rest :
  <[length h := c']> (h ++ c :: rest) = h ++ c' :: rest.
Proof.
  rewrite (insert_app_r_alt h _ (length h)) by lia.
  by replace (length h - length h) with 0 by lia.
Qed.

Lemma lookup_third (h : Heap.heap) a b c n :
  n = S (S (length h)) → (h ++ [a; b; c]) !! n = Some c.
Proof.
  intros ->. rewrite lookup_app_r by lia.
  by replace (S (S (length h)) - length h) with 2 by lia.
Qed.

(** ** The closure map on the heap *)

Section heap_closures.
Variables (h : Heap.heap) (e : Heap.loc) (enfa : Automaton) (fuel : nat).
Variable o : Heap.AutomatonRef.
Hypothesis object : h !! e = Some (Heap.Object o).
Hypothesis states_array :
  h !! Heap.statesRef o = Some (Heap.Strings (states enfa)).
Hypothesis transitions_array :
  h !! Heap.transitionsRef o = Some (Heap.Transitions (transitions enfa)).
Hypothesis enough : length (transitions enfa) + 1 ≤ fuel.

Lemma computeAllEpsilonClosures_loop (l : list string) m blocks cm :
  Heap.decodes (h ++ Heap.ClosureMap m :: blocks) m cm →
  ∃ m' blocks',
    Heap.forEach
      (λ state,
         o ← Heap.loadObject e;
         array ← Heap.computeStateEpsilonClosure fuel state (Heap.transitionsRef o);
         m ← Heap.loadClosureMap (length h);
         Heap.store (length h) (Heap.ClosureMap (<[state := array]> m)))
      l (h ++ Heap.ClosureMap m :: blocks)
    = Some (Returned (), h ++ Heap.ClosureMap m' :: blocks') ∧
    Heap.decodes (h ++ Heap.ClosureMap m' :: blocks') m'
      (foldl (λ map state,
                <[state := computeStateEpsilonClosure state (transitions enfa)]> map)
             cm l).
Proof.
  revert m blocks cm. induction l as [|state l IH]; intros m blocks cm Hdec.
  { by exists m, blocks. }
  set (H := h ++ Heap.ClosureMap m :: blocks).
  set (block := [Heap.Strings (closure_loop (transitions enfa) ([state], [state]));
                 Heap.Strings [];
                 Heap.Strings (computeStateEpsilonClosure state (transitions enfa))]).
  set (array := S (S (length H))).
  destruct (IH (<[state := array]> m) (blocks ++ block)
               (<[state := computeStateEpsilonClosure state (transitions enfa)]> cm))
    as (m' & blocks' & Hrun & Hdec').
  { intros k. destruct (decide (state = k)) as [<-|Hne].
    - rewrite !lookup_insert_eq. eexists. split; [|done].
      rewrite app_comm_cons, app_assoc. apply lookup_third.
      unfold array, H. by rewrite !length_app.
    - rewrite !lookup_insert_ne by done. specialize (Hdec k).
      destruct (m !! k) as [old|]; [|done].
      destruct Hdec as (xs & Hold & Hcm). exists xs. split; [|done].
      rewrite app_comm_cons, app_assoc.
      rewrite <-(insert_middle h (Heap.ClosureMap m) _ blocks).
      apply lookup_stable; [done|]. intros ->.
      rewrite list_lookup_middle in Hold by done. done. }
  exists m', blocks'. split; [|done]. rewrite <-Hrun. cbn [Heap.forEach].
  erewrite bind_Returned; [done|].
  erewrite bind_Returned; last first.
  { apply loadObject_run. by apply lookup_app_l_Some. }
  erewrite bind_Returned; last first.
  { apply computeStateEpsilonClosure_run; [|done]. by apply lookup_app_l_Some. }
  fold H block array.
  erewrite bind_Returned; last first.
  { apply loadClosureMap_run. unfold H. rewrite <-app_assoc. by apply list_lookup_middle. }
  unfold Heap.store, H. by rewrite <-app_assoc, <-app_comm_cons, insert_middle.
Qed.

(** [computeAllEpsilonClosures] on the heap allocates the map and the cells
    of the closures, and writes to nothing else. *)
Lemma computeAllEpsilonClosures_run :
  ∃ m blocks,
    Heap.computeAllEpsilonClosures fuel e h
    = Some (Returned (length h), h ++ Heap.ClosureMap m :: blocks) ∧
    Heap.decodes (h ++ Heap.ClosureMap m :: blocks) m (computeAllEpsilonClosures enfa).
Proof.
  destruct (computeAllEpsilonClosures_loop (states enfa) ∅ [] ∅)
    as (m & blocks & Hrun & Hdec).
  { intros k. by rewrite !lookup_empty. }
  exists m, blocks. split; [|done].
  unfold Heap.computeAllEpsilonClosures.
  unfold mbind at 1, Heap.M_bind, Heap.alloc at 1.
  erewrite bind_Returned; last first.
  { apply loadObject_run. by apply lookup_app_l_Some. }
  erewrite bind_Returned; last first.
  { apply loadStrings_run. by apply lookup_app_l_Some. }
  by erewrite bind_Returned.
Qed.
End heap_closures.

(** ** The projection on the heap *)

Lemma preserves_refl h : preserves h h.
Proof. by intros l c. Qed.

Lemma preserves_trans h1 h2 h3 : preserves h1 h2 → preserves h2 h3 → preserves h1 h3.
Proof. intros H12 H23 l c Hl. by apply H23, H12. Qed.

Lemma preserves_app h junk : preserves h (h ++ junk).
Proof. intros l c. apply lookup_app_l_Some. Qed.

Lemma preservesExcept_refl l h : preservesExcept l h h.
Proof. by intros l' c _. Qed.

Lemma preservesExcept_trans l h1 h2 h3 :
  preservesExcept l h1 h2 → preservesExcept l h2 h3 → preservesExcept l h1 h3.
Proof. intros H12 H23 l' c Hne Hl. by apply H23, H12. Qed.

Lemma preserves_preservesExcept l h h' : preserves h h' → preservesExcept l h h'.
Proof. intros H l' c _. apply H. Qed.

Lemma preservesExcept_insert l h c : preservesExcept l h (<[l := c]> h).
Proof. intros l' c' Hne Hl. by rewrite list_lookup_insert_ne. Qed.

(** Cells allocated before [l] are not the cell at [l]. *)
Lemma preservesExcept_preserves l h0 h h' :
  length h0 ≤ l → preserves h0 h → preservesExcept l h h' → preserves h0 h'.
Proof.
  intros Hlen H0 H l' c Hl. apply H; [|by apply H0].
  apply lookup_lt_Some in Hl. lia.
Qed.

Section heap_projection.
Variables (e closures newTransitions : Heap.loc) (enfa : Automaton).
Variables (o : Heap.AutomatonRef) (m : gmap string Heap.loc).
Let cm := computeAllEpsilonClosures enfa.

(** What the projection reads, and the cell it writes to. *)
Definition projecting (h : Heap.heap) (nt : list Transition) : Prop :=
  h !! e = Some (Heap.Object o) ∧
  h !! Heap.transitionsRef o = Some (Heap.Transitions (transitions enfa)) ∧
  h !! closures = Some (Heap.ClosureMap m) ∧
  Heap.decodes h m cm ∧
  Heap.transitionsRef o ≠ newTransitions ∧
  h !! newTransitions = Some (Heap.Transitions nt).

Lemma projecting_app h nt junk : projecting h nt → projecting (h ++ junk) nt.
Proof.
  intros (He & Hts & Hcl & Hdec & Hne & Hnt).
  repeat split; try (by apply lookup_app_l_Some); [|done].
  intros k. specialize (Hdec k). destruct (m !! k); [|done].
  destruct Hdec as (xs & Hxs & Hcm). exists xs. split; [|done].
  by apply lookup_app_l_Some.
Qed.

Lemma projecting_store h nt nt' :
  projecting h nt →
  projecting (<[newTransitions := Heap.Transitions nt']> h) nt'.
Proof.
  intros (He & Hts & Hcl & Hdec & Hne & Hnt).
  assert (∀ l c, h !! l = Some c → c ≠ Heap.Transitions nt →
                 <[newTransitions := Heap.Transitions nt']> h !! l = Some c) as Hkeep.
  { intros l c Hl Hc. rewrite list_lookup_insert_ne; [done|]. intros <-. congruence. }
  repeat split; try (by apply Hkeep); [| |done|].
  - by rewrite list_lookup_insert_ne.
  - intros k. specialize (Hdec k). destruct (m !! k); [|done].
    destruct Hdec as (xs & Hxs & Hcm). exists xs. split; [|done]. by apply Hkeep.
  - apply list_lookup_insert_eq. by eapply lookup_lt_Some.
Qed.

Lemma getArray_run h nt k :
  projecting h nt → Heap.getArray closures k h = Some (getArray cm k, h).
Proof.
  intros (_ & _ & Hcl & Hdec & _). unfold Heap.getArray, getArray.
  rewrite (bind_Returned _ _ _ _ _ (loadClosureMap_run _ _ _ Hcl)).
  specialize (Hdec k). destruct (m !! k) as [array|].
  - destruct Hdec as (xs & Hxs & ->). by apply loadStrings_run.
  - by rewrite Hdec.
Qed.

(** Lines 62-66 write to the Set [reachedAfterSymbol] only. *)
Lemma reachedAfterSymbol_run (qClosure : list string) a h nt acc :
  projecting h nt →
  Heap.forEach
    (λ p,
       o ← Heap.loadObject e;
       ts ← Heap.loadTransitions (Heap.transitionsRef o);
       Heap.forEach (λ t, Heap.add (length h) (to t))
                    (filter (λ t, from t = p ∧ symbol t = a) ts))
    qClosure (h ++ [Heap.Strings acc])
  = Some (Returned (),
          h ++ [Heap.Strings
                  (foldl (λ reached p,
                            foldl (λ reached' t, set_add (to t) reached') reached
                                  (filter (λ t, from t = p ∧ symbol t = a)
                                          (transitions enfa)))
                         acc qClosure)]).
Proof.
  intros (He & Hts & _). revert acc.
  induction qClosure as [|p qClosure IH]; intros acc; [done|].
  cbn [Heap.forEach foldl].
  erewrite bind_Returned; [apply IH|].
  erewrite bind_Returned; last first.
  { apply loadObject_run. by apply lookup_app_l_Some. }
  erewrite bind_Returned; last first.
  { apply loadTransitions_run. by apply lookup_app_l_Some. }
  rewrite (forEach_add_run to _ _ _ acc) by apply lookup_fresh.
  by rewrite insert_fresh.
Qed.

(** Lines 70-72 write to the Set [finalReached] only. *)
Lemma finalReached_run (reached : list string) h nt acc :
  projecting h nt →
  ∃ final,
    Heap.forEach
      (λ s, sClosure ← Heap.getArray closures s;
            Heap.forEach (Heap.add (length h)) sClosure)
      reached (h ++ [Heap.Strings acc])
    = Some (match foldlM (λ final s,
                            sClosure ← getArray cm s;
                            mret (foldl (λ final' c, set_add c final') final sClosure))
                         acc reached with
            | Returned _ => Returned ()
            | TypeError => TypeError
            end, h ++ [Heap.Strings final]) ∧
    ∀ final', foldlM (λ final s,
                        sClosure ← getArray cm s;
                        mret (foldl (λ final' c, set_add c final') final sClosure))
                     acc reached = Returned final' → final = final'.
Proof.
  intros Hproj. revert acc.
  induction reached as [|s reached IH]; intros acc.
  { exists acc. split; [done|]. by intros ? [= ->]. }
  cbn [Heap.forEach foldlM].
  pose proof (getArray_run (h ++ [Heap.Strings acc]) nt s (projecting_app _ _ _ Hproj))
    as Hget.
  destruct (getArray cm s) as [sClosure|] eqn:Hs.
  - destruct (IH (foldl (λ final' c, set_add c final') acc sClosure))
      as (final & Hrun & Hfinal).
    exists final. split; [|done]. simpl. erewrite bind_Returned; [exact Hrun|].
    rewrite (bind_Returned _ _ _ _ _ Hget).
    rewrite (forEach_add_run id _ _ _ acc) by apply lookup_fresh.
    by rewrite insert_fresh.
  - exists acc. split; [|done]. simpl. erewrite bind_TypeError; [done|].
    by rewrite (bind_TypeError _ _ _ _ Hget).
Qed.

(** Lines 75-80 write to the array [newTransitions] only. *)
Lemma pushTransition_run (final : list string) q a h nt :
  h !! newTransitions = Some (Heap.Transitions nt) →
  Heap.forEach
    (λ target,
       nt ← Heap.loadTransitions newTransitions;
       match find (λ t, bool_decide (from t = q) && bool_decide (to t = target)
                        && bool_decide (symbol t = a)) nt with
       | Some _ => mret ()
       | None => Heap.store newTransitions
                   (Heap.Transitions (nt ++ [mkTransition q target a]))
       end)
    final h
  = Some (Returned (),
          <[newTransitions := Heap.Transitions (foldl (pushTransition q a) nt final)]> h).
Proof.
  revert h nt. induction final as [|target final IH]; intros h nt Hnt.
  { simpl. by rewrite list_insert_id. }
  cbn [Heap.forEach foldl].
  assert (<[newTransitions := Heap.Transitions (pushTransition q a nt target)]> h
          !! newTransitions
          = Some (Heap.Transitions (pushTransition q a nt target))) as Hnt'.
  { apply list_lookup_insert_eq. by eapply lookup_lt_Some. }
  erewrite bind_Returned; [rewrite (IH _ _ Hnt'); by rewrite list_insert_insert_eq|].
  rewrite (bind_Returned _ _ _ _ _ (loadTransitions_run _ _ _ Hnt)).
  unfold pushTransition. destruct (find _ nt); [|done].
  unfold mret, Heap.M_ret. by rewrite list_insert_id.
Qed.

(** Lines 58-80 allocate the two Sets and write to [newTransitions]. *)
Lemma projectPair_run q a h nt :
  projecting h nt →
  ∃ h', preservesExcept newTransitions h h' ∧
    match projectPair enfa cm q nt a with
    | Returned nt' =>
        Heap.projectPair e closures newTransitions q a h = Some (Returned (), h') ∧
        projecting h' nt'
    | TypeError =>
        Heap.projectPair e closures newTransitions q a h = Some (TypeError, h') ∧
        projecting h' nt
    end.
Proof.
  intros Hproj. unfold Heap.projectPair, projectPair.
  pose proof (getArray_run h nt q Hproj) as Hget.
  destruct (getArray cm q) as [qClosure|]; simpl; last first.
  { exists h. split; [apply preservesExcept_refl|].
    split; [|done]. by rewrite (bind_TypeError _ _ _ _ Hget). }
  set (reached := reachedAfterSymbol (transitions enfa) qClosure a).
  pose proof (projecting_app h nt [Heap.Strings reached] Hproj) as Hproj'.
  destruct (finalReached_run reached _ nt [] Hproj') as (final & Hrun & Hfinal).
  fold (finalReached cm reached) in Hrun, Hfinal.
  assert (∀ k : list string → Heap.M unit,
    (qClosure ← Heap.getArray closures q;
     reachedAfterSymbol ← Heap.alloc (Heap.Strings []);
     Heap.forEach
       (λ p, o ← Heap.loadObject e;
             ts ← Heap.loadTransitions (Heap.transitionsRef o);
             Heap.forEach (λ t, Heap.add reachedAfterSymbol (to t))
                          (filter (λ t, from t = p ∧ symbol t = a) ts))
       qClosure;;
     finalReached ← Heap.alloc (Heap.Strings []);
     reached ← Heap.loadStrings reachedAfterSymbol;
     Heap.forEach
       (λ s, sClosure ← Heap.getArray closures s;
             Heap.forEach (Heap.add finalReached) sClosure)
       reached;;
     final ← Heap.loadStrings finalReached;
     k final) h
    = match finalReached cm reached with
      | Returned _ => k final ((h ++ [Heap.Strings reached]) ++ [Heap.Strings final])
      | TypeError =>
          Some (TypeError, (h ++ [Heap.Strings reached]) ++ [Heap.Strings final])
      end) as Hsteps.
  { intros k. rewrite (bind_Returned _ _ _ _ _ Hget).
    unfold mbind at 1, Heap.M_bind, Heap.alloc at 1.
    rewrite (bind_Returned _ _ _ _ _ (reachedAfterSymbol_run qClosure a h nt [] Hproj)).
    fold (reachedAfterSymbol (transitions enfa) qClosure a). fold reached.
    unfold mbind at 1, Heap.M_bind, Heap.alloc at 1.
    erewrite bind_Returned; last first.
    { apply loadStrings_run. apply lookup_app_l_Some, lookup_fresh. }
    destruct (finalReached cm reached) as [final'|].
    - rewrite (bind_Returned _ _ _ _ _ Hrun).
      erewrite bind_Returned; [done|].
      apply loadStrings_run, lookup_fresh.
    - by rewrite (bind_TypeError _ _ _ _ Hrun). }
  rewrite Hsteps. clear Hsteps.
  destruct (finalReached cm reached) as [final'|]; simpl.
  - rewrite <-(Hfinal final' eq_refl).
    pose proof (projecting_app _ nt [Heap.Strings final] Hproj') as Hproj''.
    rewrite (pushTransition_run final q a _ nt) by apply Hproj''.
    eexists. split; [|split; [done|by apply (projecting_store _ nt)]].
    eapply preservesExcept_trans; [|apply preservesExcept_insert].
    apply preserves_preservesExcept.
    eapply preserves_trans; apply preserves_app.
  - eexists. split; [|split; [done|by do 2 apply projecting_app]].
    apply preserves_preservesExcept.
    eapply preserves_trans; apply preserves_app.
Qed.
End heap_projection.

(** A loop on the heap follows the loop on values, if its body does. *)
Lemma forEach_sim {T B : Type} (bodyH : T → Heap.M unit)
    (body : B → T → outcome B) (R : B → Heap.heap → Prop) (E : Heap.heap → Prop)
    (l : list T) :
  (∀ x acc h, x ∈ l → R acc h →
     match body acc x with
     | Returned acc' => ∃ h', bodyH x h = Some (Returned (), h') ∧ R acc' h'
     | TypeError => ∃ h', bodyH x h = Some (TypeError, h') ∧ E h'
     end) →
  ∀ acc h, R acc h →
    match foldlM body acc l with
    | Returned acc' => ∃ h', Heap.forEach bodyH l h = Some (Returned (), h') ∧ R acc' h'
    | TypeError => ∃ h', Heap.forEach bodyH l h = Some (TypeError, h') ∧ E h'
    end.
Proof.
  induction l as [|x l IH]; intros Hbody acc h HR; simpl.
  { by exists h. }
  pose proof (Hbody x acc h (list_elem_of_here _ _) HR) as Hx.
  destruct (body acc x) as [acc'|]; simpl.
  - destruct Hx as (h' & Hrun & HR').
    rewrite (bind_Returned _ _ _ _ _ Hrun). apply IH; [|done].
    intros ??? Hin. apply Hbody. by right.
  - destruct Hx as (h' & Hrun & HE). exists h'.
    by rewrite (bind_TypeError _ _ _ _ Hrun).
Qed.


Section heap_convert.
Variables (e closures newTransitions letters : Heap.loc) (enfa : Automaton).
Variables (o : Heap.AutomatonRef) (m : gmap string Heap.loc).
Variable h0 : Heap.heap.
Hypothesis letters_array :
  h0 !! letters = Some (Heap.Strings (alphabetWithoutEpsilon enfa)).
Hypothesis letters_distinct : letters ≠ newTransitions.

(** What the two nested loops keep: the projection can go on, and the
    cells the loops started with are unchanged but for [newTransitions]. *)
Definition projectingFrom (nt : list Transition) (h : Heap.heap) : Prop :=
  projecting e closures newTransitions enfa o m h nt ∧
  preservesExcept newTransitions h0 h.

(** Lines 56-82. *)
Lemma projectTransitions_run (sts : list string) nt0 :
  projecting e closures newTransitions enfa o m h0 nt0 →
  match foldlM (λ newTransitions q,
                  foldlM (projectPair enfa (computeAllEpsilonClosures enfa) q)
                         newTransitions (alphabetWithoutEpsilon enfa))
               nt0 sts with
  | Returned nt =>
      ∃ h, Heap.forEach
             (λ q, letters' ← Heap.loadStrings letters;
                   Heap.forEach (Heap.projectPair e closures newTransitions q) letters')
             sts h0 = Some (Returned (), h) ∧
           projectingFrom nt h
  | TypeError =>
      ∃ h, Heap.forEach
             (λ q, letters' ← Heap.loadStrings letters;
                   Heap.forEach (Heap.projectPair e closures newTransitions q) letters')
             sts h0 = Some (TypeError, h) ∧
           preservesExcept newTransitions h0 h
  end.
Proof.
  intros Hproj.
  apply (forEach_sim _ _ projectingFrom (preservesExcept newTransitions h0));
    [|split; [done|apply preservesExcept_refl]].
  intros q nt h _ [Hp Hkeep].
  pose proof (forEach_sim (Heap.projectPair e closures newTransitions q)
                (projectPair enfa (computeAllEpsilonClosures enfa) q)
                projectingFrom (preservesExcept newTransitions h0)
                (alphabetWithoutEpsilon enfa)) as Hinner.
  assert (Heap.loadStrings letters h
          = Some (Returned (alphabetWithoutEpsilon enfa), h)) as Hload.
  { apply loadStrings_run. by apply Hkeep. }
  specialize (Hinner ltac:(
    intros a nt' h' _ [Hp' Hkeep'];
    destruct (projectPair_run e closures newTransitions enfa o m q a h' nt' Hp')
      as (h'' & Hstep & Hrun);
    destruct (projectPair _ _ q nt' a);
      destruct Hrun as [Hrun Hp'']; exists h''; (split; [done|]);
      [split; [done|]|]; by eapply preservesExcept_trans) nt h (conj Hp Hkeep)).
  destruct (foldlM _ nt _) as [nt'|]; destruct Hinner as (h' & Hrun & HR);
    exists h'; split; try done.
  - by rewrite (bind_Returned _ _ _ _ _ Hload).
  - by rewrite (bind_Returned _ _ _ _ _ Hload).
Qed.

(** Lines 85-88 read the heap only. *)
Lemma newFinalStates_run (l : list string) h nt :
  projecting e closures newTransitions enfa o m h nt →
  h !! Heap.finalStatesRef o = Some (Heap.Strings (finalStates enfa)) →
  l ⊆ states enfa →
  Heap.filterM
    (λ q, qClosure ← Heap.getArray closures q;
          o ← Heap.loadObject e;
          finals ← Heap.loadStrings (Heap.finalStatesRef o);
          mret (existsb (λ s, bool_decide (s ∈ finals)) qClosure))
    l h
  = Some (Returned (filter (closureMeetsFinal enfa) l), h).
Proof.
  intros Hproj Hfinals. induction l as [|q l IH]; intros Hsub; [done|].
  cbn [Heap.filterM].
  erewrite bind_Returned; last first.
  { erewrite bind_Returned; last first.
    { rewrite (getArray_run e closures newTransitions enfa o m h nt q Hproj).
      by rewrite getArray_closures by (apply Hsub; by left). }
    erewrite bind_Returned; last first.
    { apply loadObject_run, Hproj. }
    erewrite bind_Returned; [done|]. by apply loadStrings_run. }
  rewrite (bind_Returned _ _ _ _ _ (IH ltac:(intros x Hx; apply Hsub; by right))).
  rewrite (existsb_Exists (λ s, s ∈ finalStates enfa)), filter_cons.
  unfold closureMeetsFinal at 2. unfold mret, Heap.M_ret.
  by case_decide; [rewrite bool_decide_true|rewrite bool_decide_false].
Qed.
End heap_convert.

Lemma decodes_preserves h h' m cm :
  preserves h h' → Heap.decodes h m cm → Heap.decodes h' m cm.
Proof.
  intros Hpres Hdec k. specialize (Hdec k). destruct (m !! k); [|done].
  destruct Hdec as (xs & Hxs & Hcm). exists xs. split; [by apply Hpres|done].
Qed.

Lemma represents_preserves h h' e enfa :
  preserves h h' → Heap.represents h e enfa → Heap.represents h' e enfa.
Proof.
  intros Hpres (o & He & Hst & Hal & Htr & Hini & Hfin).
  exists o. repeat split; try (by apply Hpres). done.
Qed.

Lemma representsConversion_preserves h h' rr r :
  preserves h h' →
  Heap.representsConversion h rr r → Heap.representsConversion h' rr r.
Proof.
  intros Hpres [Hnfa (m & Hm & Hdec)]. split.
  - by eapply represents_preserves.
  - exists m. split; [by apply Hpres|by eapply decodes_preserves].
Qed.

(** A reference represents one value: the heap fixes every field. *)
Lemma represents_functional h e enfa1 enfa2 :
  Heap.represents h e enfa1 → Heap.represents h e enfa2 → enfa1 = enfa2.
Proof.
  intros (o1 & Ho1 & Hs1 & Ha1 & Ht1 & Hi1 & Hf1)
         (o2 & Ho2 & Hs2 & Ha2 & Ht2 & Hi2 & Hf2).
  rewrite Ho1 in Ho2. injection Ho2 as <-.
  rewrite Hs1 in Hs2. rewrite Ha1 in Ha2. rewrite Ht1 in Ht2. rewrite Hf1 in Hf2.
  destruct enfa1, enfa2. simpl in *. congruence.
Qed.

Lemma representsConversion_functional h rr r1 r2 :
  Heap.representsConversion h rr r1 → Heap.representsConversion h rr r2 → r1 = r2.
Proof.
  intros [Hnfa1 (m1 & Hm1 & Hdec1)] [Hnfa2 (m2 & Hm2 & Hdec2)].
  rewrite Hm1 in Hm2. injection Hm2 as <-.
  assert (closures r1 = closures r2) as Hcl.
  { apply map_eq. intros k. specialize (Hdec1 k). specialize (Hdec2 k).
    destruct (m1 !! k) as [array|].
    - destruct Hdec1 as (xs1 & Hxs1 & ->), Hdec2 as (xs2 & Hxs2 & ->). congruence.
    - congruence. }
  pose proof (represents_functional _ _ _ _ Hnfa1 Hnfa2) as Hnfa.
  destruct r1, r2. simpl in *. congruence.
Qed.

(** The converter on the heap returns references to what [convertENFAToNFA]
    returns, and throws when it throws; the cells the heap had when the call
    began are unchanged when it ends; the NFA object refers to the [states]
    array of the input. *)
Lemma convertENFAToNFA_run h e enfa fuel :
  Heap.represents h e enfa →
  length (transitions enfa) + 1 ≤ fuel →
  ∃ h', preserves h h' ∧
    match convertENFAToNFA enfa with
    | Returned r =>
        ∃ rr o o',
          Heap.convertENFAToNFA fuel e h = Some (Returned rr, h') ∧
          Heap.representsConversion h' rr r ∧
          h !! e = Some (Heap.Object o) ∧
          h' !! Heap.nfaRef rr = Some (Heap.Object o') ∧
          Heap.statesRef o' = Heap.statesRef o ∧
          Heap.initialStateVal o' = Heap.initialStateVal o
    | TypeError => Heap.convertENFAToNFA fuel e h = Some (TypeError, h')
    end.
Proof.
  intros (o & Hobj & Hst & Hal & Htr & Hini & Hfin) Hfuel.
  destruct (computeAllEpsilonClosures_run h e enfa fuel o Hobj Hst Htr Hfuel)
    as (m & blocks & Hrun1 & Hdec).
  set (h1 := h ++ Heap.ClosureMap m :: blocks) in *.
  set (h2 := h1 ++ [Heap.Transitions []]).
  set (h3 := h2 ++ [Heap.Strings (alphabetWithoutEpsilon enfa)]).
  assert (preserves h h3) as Hpres3.
  { eapply preserves_trans; [apply preserves_app|].
    eapply preserves_trans; apply preserves_app. }
  assert (length h ≤ length h1) as Hlen by (unfold h1; rewrite length_app; lia).
  assert (∀ l c, h !! l = Some c → l ≠ length h1) as Hold.
  { intros l c Hl%lookup_lt_Some. lia. }
  assert (projecting e (length h) (length h1) enfa o m h3 []) as Hproj.
  { repeat split; try (by apply Hpres3).
    - do 2 apply lookup_app_l_Some. apply list_lookup_middle. done.
    - eapply decodes_preserves; [|exact Hdec].
      eapply preserves_trans; apply preserves_app.
    - by eapply Hold.
    - apply lookup_app_l_Some, lookup_fresh. }
  assert (h3 !! length h2 = Some (Heap.Strings (alphabetWithoutEpsilon enfa)))
    as Hletters by apply lookup_fresh.
  assert (length h2 ≠ length h1) as Hdistinct.
  { unfold h2. rewrite length_app. simpl. lia. }
  pose proof (projectTransitions_run e (length h) (length h1) (length h2) enfa o m
                h3 Hletters Hdistinct (states enfa) [] Hproj) as Hloop.
  assert (convertENFAToNFA enfa
          = match foldlM (λ newTransitions q,
                            foldlM (projectPair enfa (computeAllEpsilonClosures enfa) q)
                                   newTransitions (alphabetWithoutEpsilon enfa))
                         [] (states enfa) with
            | Returned nt =>
                Returned {| nfa := {| states := states enfa;
                                      alphabet := alphabetWithoutEpsilon enfa;
                                      transitions := nt;
                                      initialState := initialState enfa;
                                      finalStates :=
                                        filter (closureMeetsFinal enfa) (states enfa) |};
                            closures := computeAllEpsilonClosures enfa |}
            | TypeError => TypeError
            end) as ->.
  { unfold convertENFAToNFA, projectTransitions. rewrite newFinalStates_Returned.
    by destruct (foldlM _ [] (states enfa)). }
  destruct (foldlM _ [] (states enfa)) as [nt|].
  - destruct Hloop as (h4 & Hrun & Hproj4 & Hkeep).
    assert (preserves h h4) as Hpres4.
    { by eapply preservesExcept_preserves. }
    set (kept := filter (closureMeetsFinal enfa) (states enfa)).
    set (h5 := h4 ++ [Heap.Strings kept]).
    set (o' := {| Heap.statesRef := Heap.statesRef o;
                  Heap.alphabetRef := length h2;
                  Heap.transitionsRef := length h1;
                  Heap.initialStateVal := Heap.initialStateVal o;
                  Heap.finalStatesRef := length h4 |}).
    exists (h5 ++ [Heap.Object o']). split.
    { eapply preserves_trans; [exact Hpres4|].
      eapply preserves_trans; apply preserves_app. }
    exists {| Heap.nfaRef := length h5; Heap.closuresRef := length h |}, o, o'.
    split; [|split; [|split; [done|split; [apply lookup_fresh|done]]]].
    + unfold Heap.convertENFAToNFA. rewrite (bind_Returned _ _ _ _ _ Hrun1).
      unfold mbind at 1, Heap.M_bind, Heap.alloc at 1. fold h2.
      erewrite bind_Returned; last first.
      { apply loadObject_run. by do 2 apply lookup_app_l_Some. }
      erewrite bind_Returned; last first.
      { apply loadStrings_run. by do 2 apply lookup_app_l_Some. }
      unfold mbind at 1, Heap.M_bind, Heap.alloc at 1.
      fold (alphabetWithoutEpsilon enfa). fold h3.
      erewrite bind_Returned; last first.
      { apply loadStrings_run. by apply Hpres3. }
      rewrite (bind_Returned _ _ _ _ _ Hrun).
      erewrite bind_Returned; last first.
      { apply loadObject_run. by apply Hpres4. }
      erewrite bind_Returned; last first.
      { apply loadStrings_run. by apply Hpres4. }
      erewrite bind_Returned; last first.
      { eapply newFinalStates_run; [exact Hproj4|by apply Hpres4|done]. }
      unfold mbind at 1, Heap.M_bind, Heap.alloc at 1. fold kept h5.
      erewrite bind_Returned; last first.
      { apply loadObject_run. by apply lookup_app_l_Some, Hpres4. }
      done.
    + split.
      * exists o'. simpl. repeat split.
        -- apply lookup_fresh.
        -- do 2 apply lookup_app_l_Some. by apply Hpres4.
        -- do 2 apply lookup_app_l_Some. by apply Hkeep.
        -- do 2 apply lookup_app_l_Some. apply Hproj4.
        -- done.
        -- apply lookup_app_l_Some, lookup_fresh.
      * exists m. simpl. split.
        -- do 2 apply lookup_app_l_Some. apply Hproj4.
        -- eapply decodes_preserves; [|apply Hproj4].
           eapply preserves_trans; apply preserves_app.
  - destruct Hloop as (h4 & Hrun & Hkeep). exists h4. split.
    + by eapply preservesExcept_preserves.
    + unfold Heap.convertENFAToNFA. rewrite (bind_Returned _ _ _ _ _ Hrun1).
      unfold mbind at 1, Heap.M_bind, Heap.alloc at 1. fold h2.
      erewrite bind_Returned; last first.
      { apply loadObject_run. by do 2 apply lookup_app_l_Some. }
      erewrite bind_Returned; last first.
      { apply loadStrings_run. by do 2 apply lookup_app_l_Some. }
      unfold mbind at 1, Heap.M_bind, Heap.alloc at 1.
      fold (alphabetWithoutEpsilon enfa). fold h3.
      erewrite bind_Returned; last first.
      { apply loadStrings_run. by apply Hpres3. }
      by rewrite (bind_TypeError _ _ _ _ Hrun).
Qed.

(** * The claims *)

(** Closed decidable facts, by evaluation. *)
Ltac by_evaluation := apply (bool_decide_unpack _); vm_compute; exact I.

Lemma convert_INITIAL_ENFA : convertENFAToNFA INITIAL_ENFA = Returned INITIAL_NFA.
Proof. vm_compute. reflexivity. Qed.

(** C1. For a declared state [q] and an alphabet symbol [a] that is not an
    epsilon marker, the transitions of the returned NFA that leave [q] on [a]
    are exactly the triples [(q, target, a)] with
    [target ∈ ε-closure(δ(ε-closure(q), a))]; no triple occurs twice in the
    output; and none is emitted for [(q, a)] when the symbol step from the
    closure of [q] reaches nothing.  The converter returns whenever every
    transition joins declared states. *)
Theorem projection_exact (enfa : Automaton) :
  (invariant3 enfa → ∃ r, convertENFAToNFA enfa = Returned r) ∧
  ∀ r q a,
    convertENFAToNFA enfa = Returned r →
    q ∈ states enfa → a ∈ alphabet enfa → isEpsilon a = false →
    (∀ t, t ∈ transitions (nfa r) ∧ from t = q ∧ symbol t = a
          ↔ ∃ target, t = mkTransition q target a ∧ projected enfa q a target) ∧
    NoDup (transitions (nfa r)) ∧
    ((∀ s, ¬ symbolStep (transitions enfa)
               (computeStateEpsilonClosure q (transitions enfa)) a s) →
     ∀ t, t ∈ transitions (nfa r) → ¬ (from t = q ∧ symbol t = a)).
Proof.
  split.
  { intros H3. apply convertENFAToNFA_returns. intros t Ht. by apply H3. }
  intros r q a Hr Hq Ha Heps.
  apply convertENFAToNFA_Returned in Hr as (nt & Hnt & ->). simpl.
  pose proof (elem_of_projectTransitions enfa nt Hnt) as Helem.
  assert (∀ t, t ∈ nt ∧ from t = q ∧ symbol t = a
               ↔ ∃ target, t = mkTransition q target a ∧ projected enfa q a target)
    as Hexact.
  { intros t. rewrite Helem. split.
    - intros ((q' & a' & target & _ & _ & -> & Hp) & Hf & Hs). simpl in *.
      subst. by exists target.
    - intros (target & -> & Hp). split; [|done]. exists q, a, target.
      repeat split; try done. by apply elem_of_alphabetWithoutEpsilon. }
  split; [done|]. split; [by eapply projectTransitions_NoDup|].
  intros Hempty t Ht [Hf Hs].
  destruct (proj1 (Hexact t)) as (target & -> & p & e & Hp & He & Hfe & Hse & _);
    [done|].
  apply (Hempty (to e)), symbolStep_closure. by exists p, e.
Qed.

(** On [INITIAL_ENFA]: [A] leads to [C] on [0], through [C -0→ C]. *)
Lemma projection_exact_witness :
  NoDup (transitions (nfa INITIAL_NFA)) ∧
  ∃ target, mkTransition "A" target "0" ∈ transitions (nfa INITIAL_NFA) ∧
            projected INITIAL_ENFA "A" "0" target.
Proof.
  destruct (proj2 (projection_exact INITIAL_ENFA) INITIAL_NFA "A" "0")
    as (Hexact & Hnodup & _).
  - exact convert_INITIAL_ENFA.
  - by_evaluation.
  - by_evaluation.
  - reflexivity.
  - split; [exact Hnodup|]. exists "C".
    destruct (proj1 (Hexact (mkTransition "A" "C" "0"))) as (target & Heq & Hp).
    + split; [by_evaluation|done].
    + injection Heq as <-. split; [by_evaluation|exact Hp].
Defined.

(** C3. The worked scenario: on [INITIAL_ENFA] the converter returns
    [INITIAL_NFA], that is the closures [A ↦ {A,B,C}], [B ↦ {B,C}], [C ↦ {C}]; the projected transitions
    lead from [A] on [0] to [{A,B,C}], from [A] on [1] to [{B,C}], from [B] on
    [0] to [{C}], from [B] on [1] to [{B,C}], from [C] on [0] to [{C}] and
    nowhere from [C] on [1]; the final states are [{A,B,C}]. *)
Theorem worked_scenario :
  ∃ r, convertENFAToNFA INITIAL_ENFA = Returned r ∧
    r = INITIAL_NFA ∧
    closures r !! "A" = Some ["A"; "B"; "C"] ∧
    closures r !! "B" = Some ["B"; "C"] ∧
    closures r !! "C" = Some ["C"] ∧
    dom (closures r) = {[ "A"; "B"; "C" ]} ∧
    targetsOn r "A" "0" = ["A"; "B"; "C"] ∧
    targetsOn r "A" "1" = ["B"; "C"] ∧
    targetsOn r "B" "0" = ["C"] ∧
    targetsOn r "B" "1" = ["B"; "C"] ∧
    targetsOn r "C" "0" = ["C"] ∧
    targetsOn r "C" "1" = [] ∧
    finalStates (nfa r) = ["A"; "B"; "C"].
Proof.
  exists INITIAL_NFA. split; [exact convert_INITIAL_ENFA|].
  repeat split; vm_compute; reflexivity.
Qed.

(** C4. The final states of the returned NFA are exactly the declared
    states whose closure meets the final states of the input: in the order of
    [states], and as a set [{ q ∈ states | closureOf(q) ∩ finalStates ≠ ∅ }].
    In particular a declared final state of the input stays final, and so
    does every declared state with an epsilon path to a final state. *)
Theorem final_states_exact (enfa : Automaton) :
  (invariant3 enfa → ∃ r, convertENFAToNFA enfa = Returned r) ∧
  ∀ r, convertENFAToNFA enfa = Returned r →
    finalStates (nfa r) = filter (closureMeetsFinal enfa) (states enfa) ∧
    (∀ q, q ∈ finalStates (nfa r)
          ↔ q ∈ states enfa ∧
            ∃ s, s ∈ computeStateEpsilonClosure q (transitions enfa) ∧
                 s ∈ finalStates enfa) ∧
    (∀ f, f ∈ finalStates enfa → f ∈ states enfa → f ∈ finalStates (nfa r)) ∧
    (∀ q f, q ∈ states enfa → epsilonReachable (transitions enfa) q f →
            f ∈ finalStates enfa → q ∈ finalStates (nfa r)).
Proof.
  split.
  { intros H3. apply convertENFAToNFA_returns. intros t Ht. by apply H3. }
  intros r Hr. apply convertENFAToNFA_Returned in Hr as (nt & _ & ->). simpl.
  assert (∀ q, q ∈ filter (closureMeetsFinal enfa) (states enfa)
               ↔ q ∈ states enfa ∧
                 ∃ s, s ∈ computeStateEpsilonClosure q (transitions enfa) ∧
                      s ∈ finalStates enfa) as Hiff.
  { intros q. rewrite list_elem_of_filter. unfold closureMeetsFinal.
    rewrite Exists_exists. tauto. }
  split; [done|]. split; [done|]. split.
  - intros f Hf Hs. apply Hiff. split; [done|]. exists f. split; [|done].
    apply computeStateEpsilonClosure_refl.
  - intros q f Hq Hreach Hf. apply Hiff. split; [done|]. exists f. split; [|done].
    by apply elem_of_computeStateEpsilonClosure.
Qed.

(** On [INITIAL_ENFA]: [A] is final by its epsilon path to [C]. *)
Lemma final_states_exact_witness :
  finalStates (nfa INITIAL_NFA) = ["A"; "B"; "C"] ∧
  "A" ∈ finalStates (nfa INITIAL_NFA).
Proof.
  destruct (proj2 (final_states_exact INITIAL_ENFA) INITIAL_NFA convert_INITIAL_ENFA)
    as (Heq & _ & _ & Hpath).
  split; [reflexivity|].
  apply (Hpath "A" "C"); [by_evaluation| |by_evaluation].
  apply elem_of_computeStateEpsilonClosure. by_evaluation.
Defined.

(** C5. The closure map is total as far as [map[q]] goes: for every
    declared state it evaluates to the closure of the state, which contains
    the state, is closed under epsilon transitions and is the singleton of
    the state when no epsilon transition leaves it.  It does not have one
    entry for every state: the properties of the object are the declared
    states other than [__proto__], for which the assignment of line 37 sets
    the prototype of the object.  On [PROTO_ENFA], with the states
    [__proto__] and [A], the object has the one key [A], while
    [map["__proto__"]] is the closure of [__proto__]. *)
Theorem closure_map_proto :
  (∀ enfa q, q ∈ states enfa →
     JSObject.get q (JSObject.computeAllEpsilonClosures enfa)
     = Some (computeStateEpsilonClosure q (transitions enfa)) ∧
     q ∈ computeStateEpsilonClosure q (transitions enfa) ∧
     (∀ r s, r ∈ computeStateEpsilonClosure q (transitions enfa) →
             epsilonEdge (transitions enfa) r s →
             s ∈ computeStateEpsilonClosure q (transitions enfa)) ∧
     ((∀ s, ¬ epsilonEdge (transitions enfa) q s) →
      computeStateEpsilonClosure q (transitions enfa) = [q])) ∧
  (∀ enfa q, q ∈ JSObject.keys (JSObject.computeAllEpsilonClosures enfa)
             ↔ q ∈ states enfa ∧ q ≠ "__proto__") ∧
  JSObject.keys (JSObject.computeAllEpsilonClosures PROTO_ENFA) = {["A"]} ∧
  "__proto__" ∈ states PROTO_ENFA ∧
  JSObject.get "__proto__" (JSObject.computeAllEpsilonClosures PROTO_ENFA)
  = Some ["__proto__"] ∧
  JSObject.get "A" (JSObject.computeAllEpsilonClosures PROTO_ENFA)
  = Some ["A"; "__proto__"].
Proof.
  split; [|split; [|split; [|split; [|split]]]].
  - intros enfa q Hq. split; [|split; [|split]].
    + by rewrite JSObject_get_closures, computeAllEpsilonClosures_Some.
    + apply computeStateEpsilonClosure_refl.
    + intros r s. apply computeStateEpsilonClosure_closed.
    + apply computeStateEpsilonClosure_no_edge.
  - intros enfa q.
    rewrite JSObject_keys_closures, elem_of_list_to_set, list_elem_of_filter. tauto.
  - rewrite JSObject_keys_closures. by_evaluation.
  - by_evaluation.
  - rewrite JSObject_get_closures. vm_compute. reflexivity.
  - rewrite JSObject_get_closures. vm_compute. reflexivity.
Qed.

(** C6. The loop of [computeStateEpsilonClosure] exits on every input, within
    [|transitions| + 1] iterations, epsilon cycles included; on the
    two-state cycle [X → Y → X] the closure of either state is [{X, Y}]. *)
Theorem closure_terminates :
  (∀ state ts fuel, length ts + 1 ≤ fuel →
     computeStateEpsilonClosure_fuel fuel state ts
     = Some (computeStateEpsilonClosure state ts)) ∧
  computeStateEpsilonClosure_fuel 3 "X" (transitions cycleENFA) = Some ["X"; "Y"] ∧
  computeStateEpsilonClosure_fuel 3 "Y" (transitions cycleENFA) = Some ["X"; "Y"] ∧
  computeStateEpsilonClosure "X" (transitions cycleENFA) = ["X"; "Y"] ∧
  computeStateEpsilonClosure "Y" (transitions cycleENFA) = ["X"; "Y"].
Proof.
  split; [|repeat split; vm_compute; reflexivity].
  intros state ts fuel Hfuel.
  unfold computeStateEpsilonClosure_fuel, computeStateEpsilonClosure.
  rewrite closure_loop_fuel_enough; [done|].
  unfold loop_measure. simpl.
  pose proof (unseen_le (to <$> ts) [state]) as H.
  rewrite length_fmap in H. lia.
Qed.

(** On the cycle, three iterations are enough. *)
Lemma closure_terminates_witness :
  computeStateEpsilonClosure_fuel 3 "X" (transitions cycleENFA)
  = Some (computeStateEpsilonClosure "X" (transitions cycleENFA)).
Proof. apply (proj1 closure_terminates). simpl. lia. Defined.

Lemma epsilonFree_reachable enfa q p :
  epsilonFree enfa → epsilonReachable (transitions enfa) q p ↔ q = p.
Proof.
  intros Hfree. split; [|intros ->; constructor].
  intros H. destruct H as [|q r p (t & Ht & _ & _ & Heps) _]; [done|].
  rewrite (Hfree t Ht) in Heps. done.
Qed.

(** C7. Converting a well-formed automaton (invariants 2 to 4 of §3) that has
    no epsilon transition returns an NFA with the same set of transitions
    and the same set of final states. *)
Theorem no_epsilon_identity (enfa : Automaton) :
  invariant2 enfa → invariant3 enfa → invariant4 enfa → epsilonFree enfa →
  ∃ r, convertENFAToNFA enfa = Returned r ∧
       (∀ t, t ∈ transitions (nfa r) ↔ t ∈ transitions enfa) ∧
       (∀ q, q ∈ finalStates (nfa r) ↔ q ∈ finalStates enfa).
Proof.
  intros H2 H3 H4 Hfree.
  destruct (convertENFAToNFA_returns enfa) as [r Hr]; [intros t Ht; by apply H3|].
  exists r. split; [done|].
  apply convertENFAToNFA_Returned in Hr as (nt & Hnt & ->). simpl. split.
  - intros t. rewrite (elem_of_projectTransitions enfa nt Hnt). split.
    + intros (q & a & target & _ & _ & -> & p & e & Hp & He & Hf & Hs & Hreach).
      apply epsilonFree_reachable in Hp, Hreach; [|done..]. subst.
      by destruct e.
    + intros Ht. exists (from t), (symbol t), (to t).
      split; [by apply H3|]. split; [|split; [by destruct t|]].
      * apply elem_of_alphabetWithoutEpsilon. split; [by apply H4, Hfree|by apply Hfree].
      * exists (from t), t. repeat split; try done; constructor.
  - intros q. rewrite list_elem_of_filter, closureMeetsFinal_reachable. split.
    + intros [(f & Hreach & Hf) _]. by apply epsilonFree_reachable in Hreach as ->.
    + intros Hq. split; [|by apply H2]. exists q. split; [constructor|done].
Qed.

(** The NFA returned for [INITIAL_ENFA] is well formed and has no epsilon
    transition: converting it again keeps its transitions and final states. *)
Lemma no_epsilon_identity_witness :
  ∃ r, convertENFAToNFA (nfa INITIAL_NFA) = Returned r ∧
       (mkTransition "B" "C" "1" ∈ transitions (nfa r)
        ↔ mkTransition "B" "C" "1" ∈ transitions (nfa INITIAL_NFA)) ∧
       ("B" ∈ finalStates (nfa r) ↔ "B" ∈ finalStates (nfa INITIAL_NFA)).
Proof.
  destruct (no_epsilon_identity (nfa INITIAL_NFA)) as (r & Hr & Ht & Hf);
    [by_evaluation..|].
  exists r. split; [exact Hr|]. split; [apply Ht|apply Hf].
Defined.

(** The order of the sorted array on names beyond the ASCII range: the
    surrogates of [😀] (U+1F600) come before the code unit of [Ａ]
    (U+FF21), although the bytes of [Ａ] come first. *)
Example sort_by_code_units :
  computeStateEpsilonClosure "Ａ" [mkTransition "Ａ" "😀" "ε"] = ["😀"; "Ａ"] ∧
  codeUnits "😀" = [55357%N; 56832%N] ∧ codeUnits "Ａ" = [65313%N].
Proof. vm_compute. done. Qed.

(** C8. The converter is deterministic: the closure of a state comes out in
    ascending lexicographic order of the UTF-16 code units of its members,
    without repetition; two calls on equal automata, held by whatever heaps
    at whatever references, both return and their results have equal values
    (the same NFA, field by field and in the same order, and the same closure
    map, and no other value), or both throw; and so do two calls in a row on
    the same automaton object. *)
Theorem conversion_deterministic :
  (∀ state ts,
     StronglySorted codeUnitLe (computeStateEpsilonClosure state ts) ∧
     NoDup (computeStateEpsilonClosure state ts)) ∧
  (∀ h1 e1 h2 e2 enfa fuel,
     Heap.represents h1 e1 enfa → Heap.represents h2 e2 enfa →
     length (transitions enfa) + 1 ≤ fuel →
     (∃ r rr1 h1' rr2 h2',
        Heap.convertENFAToNFA fuel e1 h1 = Some (Returned rr1, h1') ∧
        Heap.convertENFAToNFA fuel e2 h2 = Some (Returned rr2, h2') ∧
        Heap.representsConversion h1' rr1 r ∧
        Heap.representsConversion h2' rr2 r ∧
        ∀ r1 r2, Heap.representsConversion h1' rr1 r1 →
                 Heap.representsConversion h2' rr2 r2 → r1 = r2) ∨
     (∃ h1' h2',
        Heap.convertENFAToNFA fuel e1 h1 = Some (TypeError, h1') ∧
        Heap.convertENFAToNFA fuel e2 h2 = Some (TypeError, h2'))) ∧
  (∀ h e enfa fuel r,
     Heap.represents h e enfa → length (transitions enfa) + 1 ≤ fuel →
     convertENFAToNFA enfa = Returned r →
     ∃ rr1 h1 rr2 h2,
       Heap.convertENFAToNFA fuel e h = Some (Returned rr1, h1) ∧
       Heap.convertENFAToNFA fuel e h1 = Some (Returned rr2, h2) ∧
       Heap.representsConversion h2 rr1 r ∧
       Heap.representsConversion h2 rr2 r).
Proof.
  split; [|split].
  - intros state ts. split.
    + apply computeStateEpsilonClosure_sorted.
    + apply computeStateEpsilonClosure_NoDup.
  - intros h1 e1 h2 e2 enfa fuel Hrep1 Hrep2 Hfuel.
    destruct (convertENFAToNFA_run h1 e1 enfa fuel Hrep1 Hfuel) as (h1' & _ & Hrun1).
    destruct (convertENFAToNFA_run h2 e2 enfa fuel Hrep2 Hfuel) as (h2' & _ & Hrun2).
    destruct (convertENFAToNFA enfa) as [r|].
    + destruct Hrun1 as (rr1 & _ & _ & Hrun1 & Hres1 & _).
      destruct Hrun2 as (rr2 & _ & _ & Hrun2 & Hres2 & _).
      left. exists r, rr1, h1', rr2, h2'. do 4 (split; [done|]).
      intros r1 r2 H1 H2.
      rewrite (representsConversion_functional _ _ _ _ H1 Hres1).
      by rewrite (representsConversion_functional _ _ _ _ H2 Hres2).
    + right. by exists h1', h2'.
  - intros h e enfa fuel r Hrep Hfuel Hr.
    destruct (convertENFAToNFA_run h e enfa fuel Hrep Hfuel) as (h1 & Hpres1 & Hrun1).
    rewrite Hr in Hrun1. destruct Hrun1 as (rr1 & _ & _ & Hrun1 & Hres1 & _).
    pose proof (represents_preserves _ _ _ _ Hpres1 Hrep) as Hrep1.
    destruct (convertENFAToNFA_run h1 e enfa fuel Hrep1 Hfuel) as (h2 & Hpres2 & Hrun2).
    rewrite Hr in Hrun2. destruct Hrun2 as (rr2 & _ & _ & Hrun2 & Hres2 & _).
    exists rr1, h1, rr2, h2. do 2 (split; [done|]).
    split; [by eapply representsConversion_preserves|done].
Qed.

(** On [INITIAL_ENFA], held by [INITIAL_HEAP] at reference 4 and by
    [SECOND_HEAP] at reference 0. *)
Lemma conversion_deterministic_witness :
  StronglySorted codeUnitLe
    (computeStateEpsilonClosure "A" (transitions INITIAL_ENFA)) ∧
  ((∃ r rr1 h1' rr2 h2',
      Heap.convertENFAToNFA 6 4 INITIAL_HEAP = Some (Returned rr1, h1') ∧
      Heap.convertENFAToNFA 6 0 SECOND_HEAP = Some (Returned rr2, h2') ∧
      Heap.representsConversion h1' rr1 r ∧
      Heap.representsConversion h2' rr2 r ∧
      ∀ r1 r2, Heap.representsConversion h1' rr1 r1 →
               Heap.representsConversion h2' rr2 r2 → r1 = r2) ∨
   (∃ h1' h2',
      Heap.convertENFAToNFA 6 4 INITIAL_HEAP = Some (TypeError, h1') ∧
      Heap.convertENFAToNFA 6 0 SECOND_HEAP = Some (TypeError, h2'))) ∧
  ∃ rr1 h1 rr2 h2,
    Heap.convertENFAToNFA 6 4 INITIAL_HEAP = Some (Returned rr1, h1) ∧
    Heap.convertENFAToNFA 6 4 h1 = Some (Returned rr2, h2) ∧
    Heap.representsConversion h2 rr1 INITIAL_NFA ∧
    Heap.representsConversion h2 rr2 INITIAL_NFA.
Proof.
  split; [|split].
  - apply (proj1 conversion_deterministic).
  - apply (proj1 (proj2 conversion_deterministic)
             INITIAL_HEAP 4 SECOND_HEAP 0 INITIAL_ENFA 6).
    + by eexists.
    + by eexists.
    + simpl. lia.
  - apply (proj2 (proj2 conversion_deterministic) INITIAL_HEAP 4 INITIAL_ENFA 6).
    + by eexists.
    + simpl. lia.
    + exact convert_INITIAL_ENFA.
Defined.

(** C9. The call leaves every cell of the heap it started from unchanged,
    the object and the four arrays of its argument among them.  The NFA it
    returns has the states and the initial state of the input - its [states]
    field is the very array of the input - and as alphabet a new array, the
    alphabet of the input without the epsilon markers. *)
Theorem result_frame (h : Heap.heap) (e : Heap.loc) (enfa : Automaton) (fuel : nat) :
  Heap.represents h e enfa →
  length (transitions enfa) + 1 ≤ fuel →
  ∃ h',
    preserves h h' ∧ Heap.represents h' e enfa ∧
    match convertENFAToNFA enfa with
    | Returned r =>
        states (nfa r) = states enfa ∧
        initialState (nfa r) = initialState enfa ∧
        alphabet (nfa r) = filter (λ a, a ≠ "" ∧ a ≠ "ε") (alphabet enfa) ∧
        ∃ rr o o',
          Heap.convertENFAToNFA fuel e h = Some (Returned rr, h') ∧
          Heap.representsConversion h' rr r ∧
          h !! e = Some (Heap.Object o) ∧
          h' !! Heap.nfaRef rr = Some (Heap.Object o') ∧
          Heap.statesRef o' = Heap.statesRef o ∧
          Heap.initialStateVal o' = Heap.initialStateVal o
    | TypeError => Heap.convertENFAToNFA fuel e h = Some (TypeError, h')
    end.
Proof.
  intros Hrep Hfuel.
  destruct (convertENFAToNFA_run h e enfa fuel Hrep Hfuel) as (h' & Hpres & Hrun).
  exists h'. split; [done|]. split; [by eapply represents_preserves|].
  destruct (convertENFAToNFA enfa) as [r|] eqn:Hr; [|done].
  apply convertENFAToNFA_Returned in Hr as (nt & _ & ->). simpl.
  by do 3 (split; [done|]).
Qed.

(** On [INITIAL_ENFA], held by [INITIAL_HEAP]: after the call the heap still
    holds it. *)
Lemma result_frame_witness :
  ∃ h', preserves INITIAL_HEAP h' ∧ Heap.represents h' 4 INITIAL_ENFA.
Proof.
  destruct (result_frame INITIAL_HEAP 4 INITIAL_ENFA 6) as (h' & Hpres & Hrep & _).
  - by eexists.
  - simpl. lia.
  - by exists h'.
Defined.

(** C10. When every transition joins declared states, every lookup in the
    closure map is defined: [closures[q]] for each declared state [q], and
    [closures[s]] for each state [s] that a symbol step reaches from the
    closure of a declared state; so the second closure application yields
    its set, and the converter returns. *)
Theorem closure_lookups_defined (enfa : Automaton) :
  invariant3 enfa →
  (∀ q, q ∈ states enfa → is_Some (computeAllEpsilonClosures enfa !! q)) ∧
  (∀ q a s, q ∈ states enfa →
     s ∈ reachedAfterSymbol (transitions enfa)
           (computeStateEpsilonClosure q (transitions enfa)) a →
     is_Some (computeAllEpsilonClosures enfa !! s)) ∧
  (∀ q a, q ∈ states enfa →
     ∃ final, finalReached (computeAllEpsilonClosures enfa)
                (reachedAfterSymbol (transitions enfa)
                   (computeStateEpsilonClosure q (transitions enfa)) a)
              = Returned final) ∧
  ∃ r, convertENFAToNFA enfa = Returned r.
Proof.
  intros H3.
  assert (∀ q a s,
    s ∈ reachedAfterSymbol (transitions enfa)
          (computeStateEpsilonClosure q (transitions enfa)) a →
    is_Some (computeAllEpsilonClosures enfa !! s)) as Hstep.
  { intros q a s (t & Ht & _ & _ & <-)%elem_of_reachedAfterSymbol.
    rewrite computeAllEpsilonClosures_Some by by apply H3. by eexists. }
  split; [|split; [|split]].
  - intros q Hq. rewrite computeAllEpsilonClosures_Some by done. by eexists.
  - intros q a s _. apply Hstep.
  - intros q a _. destruct (finalReached _ _) as [final|] eqn:E; [by exists final|].
    apply finalReached_TypeError in E as (s & Hs & Hnone).
    apply Hstep in Hs as [? Hsome]. congruence.
  - apply convertENFAToNFA_returns. intros t Ht. by apply H3.
Qed.

(** [INITIAL_ENFA] satisfies invariant 3. *)
Lemma closure_lookups_defined_witness :
  is_Some (computeAllEpsilonClosures INITIAL_ENFA !! "C") ∧
  ∃ r, convertENFAToNFA INITIAL_ENFA = Returned r.
Proof.
  destruct (closure_lookups_defined INITIAL_ENFA) as (Hq & _ & _ & Hr);
    [by_evaluation|].
  split; [apply Hq; by_evaluation|exact Hr].
Defined.

(** C2, as stated, fails: [UNDECLARED_ENFA] violates every invariant of §3,
    and the converter returns an NFA for it instead of rejecting it. *)
Lemma validation_absent :
  ¬ wellFormed UNDECLARED_ENFA ∧
  ¬ invariant1 UNDECLARED_ENFA ∧ ¬ invariant2 UNDECLARED_ENFA ∧
  ¬ invariant3 UNDECLARED_ENFA ∧ ¬ invariant4 UNDECLARED_ENFA ∧
  convertENFAToNFA UNDECLARED_ENFA
  = Returned {| nfa := {| states := ["A"]; alphabet := ["0"]; transitions := [];
                          initialState := "Z"; finalStates := [] |};
                closures := {[ "A" := ["A"] ]} |}.
Proof.
  do 5 (split; [by_evaluation|]). vm_compute. reflexivity.
Qed.

Example convert_DANGLING_ENFA : convertENFAToNFA DANGLING_ENFA = TypeError.
Proof. vm_compute. reflexivity. Qed.

(** C2, amended.  The converter checks nothing up front.  It fails in one
    way only, with the [TypeError] of the projection, and exactly when a
    transition on a non-epsilon alphabet symbol leaves the ε-closure of a
    declared state for an undeclared state; in particular it returns
    whenever the targets of all transitions are declared, whatever the
    initial state, the final states, the sources and the symbols are. *)
Theorem failure_exact (enfa : Automaton) :
  (convertENFAToNFA enfa = TypeError
   ↔ ∃ q a p t, q ∈ states enfa ∧ a ∈ alphabet enfa ∧ isEpsilon a = false ∧
                epsilonReachable (transitions enfa) q p ∧
                t ∈ transitions enfa ∧ from t = p ∧ symbol t = a ∧
                to t ∉ states enfa) ∧
  ((∀ t, t ∈ transitions enfa → to t ∈ states enfa) →
   ∃ r, convertENFAToNFA enfa = Returned r).
Proof.
  split; [|apply convertENFAToNFA_returns].
  rewrite convertENFAToNFA_TypeError. split.
  - intros (q & a & Hq & [Ha Heps]%elem_of_alphabetWithoutEpsilon & p & t & H).
    by exists q, a, p, t.
  - intros (q & a & p & t & Hq & Ha & Heps & H). exists q, a.
    split; [done|]. split; [by apply elem_of_alphabetWithoutEpsilon|].
    by exists p, t.
Qed.

(** Both directions of C2 as amended: [DANGLING_ENFA] throws, by its
    transition [A -0→ B] into the undeclared [B]; [UNDECLARED_ENFA], whose
    only transition ends in the declared [A], gets a result. *)
Lemma failure_exact_witness :
  convertENFAToNFA DANGLING_ENFA = TypeError ∧
  ∃ r, convertENFAToNFA UNDECLARED_ENFA = Returned r.
Proof.
  split.
  - apply (proj1 (failure_exact DANGLING_ENFA)).
    exists "A", "0", "A", (mkTransition "A" "B" "0").
    repeat split; try by_evaluation. constructor.
  - apply (proj2 (failure_exact UNDECLARED_ENFA)).
    intros t ->%list_elem_of_singleton. by_evaluation.
Defined.

(** * Further properties of the converter *)

(** ** The language of an automaton *)

Lemma run_epsilon_first ts q p w q' :
  epsilonReachable ts q p → run ts p w q' → run ts q w q'.
Proof.
  intros Hqp. destruct w as [|a w]; simpl.
  - intros Hp. by etrans.
  - intros (p' & t & Hp & H). exists p', t. split; [by etrans|done].
Qed.

Lemma run_epsilon_last ts q w q' f :
  run ts q w q' → epsilonReachable ts q' f → run ts q w f.
Proof.
  revert q. induction w as [|a w IH]; intros q; simpl.
  - intros Hq Hf. by etrans.
  - intros (p & t & Hp & Ht & Hf & Hs & He & Hrun) Hlast.
    exists p, t. repeat split; try done. by apply IH.
Qed.

Lemma epsilonReachable_declared enfa q p :
  (∀ t, t ∈ transitions enfa → to t ∈ states enfa) →
  q ∈ states enfa → epsilonReachable (transitions enfa) q p → p ∈ states enfa.
Proof.
  intros Hto Hq Hreach. induction Hreach as [|q r p (t & Ht & _ & <- & _) _ IH]; [done|].
  apply IH. by apply Hto.
Qed.

Section language.
Variables (enfa : Automaton) (r : Conversion).
Hypothesis converted : convertENFAToNFA enfa = Returned r.

Lemma elem_of_result_transitions t :
  t ∈ transitions (nfa r)
  ↔ ∃ q a target, q ∈ states enfa ∧ a ∈ alphabetWithoutEpsilon enfa ∧
                  t = mkTransition q target a ∧ projected enfa q a target.
Proof.
  destruct (proj1 (convertENFAToNFA_Returned enfa r) converted) as (nt & Hnt & ->).
  simpl. by apply elem_of_projectTransitions.
Qed.

Lemma elem_of_result_finalStates q :
  q ∈ finalStates (nfa r)
  ↔ q ∈ states enfa ∧
    ∃ f, epsilonReachable (transitions enfa) q f ∧ f ∈ finalStates enfa.
Proof.
  destruct (proj1 (convertENFAToNFA_Returned enfa r) converted) as (nt & Hnt & ->).
  simpl. rewrite list_elem_of_filter, closureMeetsFinal_reachable. tauto.
Qed.

Lemma result_epsilonFree : epsilonFree (nfa r).
Proof.
  intros t (q & a & target & _ & [_ Ha]%elem_of_alphabetWithoutEpsilon & -> & _)
    %elem_of_result_transitions. done.
Qed.

(** A run of the result is a run of the input between the same states. *)
Lemma runDirect_result_run q w q' :
  runDirect (transitions (nfa r)) q w q' → run (transitions enfa) q w q'.
Proof.
  revert q. induction w as [|a w IH]; intros q; simpl.
  - intros ->. constructor.
  - intros (t & Ht & <- & <- & Hrun).
    apply elem_of_result_transitions in Ht
      as (q & a & target & _ & [_ Ha]%elem_of_alphabetWithoutEpsilon & -> &
          p & e & Hp & He & Hf & Hs & Hreach).
    simpl in *. exists p, e. repeat split; try done.
    eapply run_epsilon_first; [exact Hreach|by apply IH].
Qed.

(** A run of the input from a declared state is matched by a run of the
    result that ends in a state from which the end of the run is reachable
    by epsilon moves. *)
Lemma run_runDirect_result q w f :
  (∀ t, t ∈ transitions enfa → to t ∈ states enfa) → invariant4 enfa →
  q ∈ states enfa → run (transitions enfa) q w f →
  ∃ q', runDirect (transitions (nfa r)) q w q' ∧ q' ∈ states enfa ∧
        epsilonReachable (transitions enfa) q' f.
Proof.
  intros Hto H4. revert q. induction w as [|a w IH]; intros q Hq; simpl.
  - intros Hf. by exists q.
  - intros (p & t & Hp & Ht & Hf & Hs & He & Hrun).
    destruct (IH (to t) (Hto t Ht) Hrun) as (q' & Hdirect & Hq' & Hreach).
    exists q'. split; [|done].
    exists (mkTransition q (to t) a). simpl. split; [|done].
    apply elem_of_result_transitions. exists q, a, (to t).
    split; [done|]. split; [|split; [done|]].
    + apply elem_of_alphabetWithoutEpsilon. split; [|done].
      rewrite <-Hs. apply H4; [done|]. by rewrite Hs.
    + by exists p, t.
Qed.
End language.

Lemma run_epsilonFree enfa q w q' :
  epsilonFree enfa →
  run (transitions enfa) q w q' ↔ runDirect (transitions enfa) q w q'.
Proof.
  intros Hfree. revert q. induction w as [|a w IH]; intros q; simpl.
  - by apply epsilonFree_reachable.
  - split.
    + intros (p & t & Hp%epsilonFree_reachable & Ht & Hf & Hs & _ & Hrun); [|done].
      exists t. repeat split; try congruence. by apply IH.
    + intros (t & Ht & Hf & Hs & Hrun). exists q, t.
      repeat split; try done; [|by apply IH].
      rewrite <-Hs. by apply Hfree.
Qed.

Lemma result_fields enfa r :
  convertENFAToNFA enfa = Returned r →
  states (nfa r) = states enfa ∧ initialState (nfa r) = initialState enfa ∧
  alphabet (nfa r) = alphabetWithoutEpsilon enfa.
Proof. by intros (nt & _ & ->)%convertENFAToNFA_Returned. Qed.

Lemma language_result enfa r w :
  invariant1 enfa → (∀ t, t ∈ transitions enfa → to t ∈ states enfa) →
  invariant4 enfa → convertENFAToNFA enfa = Returned r →
  accepts enfa w
  ↔ ∃ q', runDirect (transitions (nfa r)) (initialState (nfa r)) w q' ∧
          q' ∈ finalStates (nfa r).
Proof.
  intros H1 Hto H4 Hr. destruct (result_fields enfa r Hr) as (_ & -> & _). split.
  - intros (f & Hrun & Hf).
    destruct (run_runDirect_result enfa r Hr _ w f Hto H4 H1 Hrun)
      as (q' & Hdirect & Hq' & Hreach).
    exists q'. split; [done|]. apply (elem_of_result_finalStates enfa r Hr).
    split; [done|]. by exists f.
  - intros (q' & Hdirect & (Hq' & f & Hreach & Hf)%(elem_of_result_finalStates enfa r Hr)).
    exists f. split; [|done]. eapply run_epsilon_last; [|exact Hreach].
    by eapply runDirect_result_run.
Qed.

(** X1. The converter preserves the language: for a well-formed automaton
    (initial state declared, transitions between declared states, symbols in
    the alphabet) it returns an NFA that accepts exactly the words the input
    accepts, and that accepts them by runs without any epsilon move. *)
Theorem language_preserved (enfa : Automaton) :
  invariant1 enfa → invariant3 enfa → invariant4 enfa →
  ∃ r, convertENFAToNFA enfa = Returned r ∧
       ∀ w, (accepts enfa w ↔ accepts (nfa r) w) ∧
            (accepts (nfa r) w
             ↔ ∃ f, runDirect (transitions (nfa r)) (initialState (nfa r)) w f ∧
                    f ∈ finalStates (nfa r)).
Proof.
  intros H1 H3 H4.
  assert (∀ t, t ∈ transitions enfa → to t ∈ states enfa) as Hto
    by (intros t Ht; by apply H3).
  destruct (convertENFAToNFA_returns enfa Hto) as [r Hr]. exists r.
  split; [done|]. intros w.
  assert (accepts (nfa r) w
          ↔ ∃ f, runDirect (transitions (nfa r)) (initialState (nfa r)) w f ∧
                 f ∈ finalStates (nfa r)) as Hdirect.
  { unfold accepts. by setoid_rewrite (run_epsilonFree (nfa r) _ _ _
                                           (result_epsilonFree enfa r Hr)). }
  split; [|done]. rewrite Hdirect. by apply language_result.
Qed.

(** [INITIAL_ENFA] is well formed. *)
Lemma language_preserved_witness :
  ∃ r, convertENFAToNFA INITIAL_ENFA = Returned r ∧
       (accepts INITIAL_ENFA ["0"; "1"] ↔ accepts (nfa r) ["0"; "1"]).
Proof.
  destruct (language_preserved INITIAL_ENFA) as (r & Hr & Hw); [by_evaluation..|].
  exists r. split; [exact Hr|]. apply Hw.
Defined.

Lemma result_targets_declared enfa r :
  (∀ t, t ∈ transitions enfa → to t ∈ states enfa) →
  convertENFAToNFA enfa = Returned r →
  ∀ t, t ∈ transitions (nfa r) → to t ∈ states enfa.
Proof.
  intros Hto Hr t (q & a & target & _ & _ & -> & p & e & _ & He & _ & _ & Hreach)
    %(elem_of_result_transitions enfa r Hr).
  simpl. eapply epsilonReachable_declared; [done| |done]. by apply Hto.
Qed.



(** X3. The closure holds nothing but what epsilon transitions force into
    it: it is included in every set that contains the state and is closed
    under epsilon transitions; a member other than the state itself is the
    target of an epsilon transition; so the closure has at most one state
    more than there are epsilon transitions. *)
Theorem closure_least (ts : list Transition) (q : string) :
  (∀ S : string → Prop,
     S q → (∀ r s, S r → epsilonEdge ts r s → S s) →
     ∀ x, x ∈ computeStateEpsilonClosure q ts → S x) ∧
  (∀ x, x ∈ computeStateEpsilonClosure q ts →
        x = q ∨ ∃ t, t ∈ ts ∧ to t = x ∧ isEpsilon (symbol t) = true) ∧
  length (computeStateEpsilonClosure q ts)
  ≤ S (length (filter (λ t, isEpsilon (symbol t) = true) ts)).
Proof.
  assert (∀ S : string → Prop,
     S q → (∀ r s, S r → epsilonEdge ts r s → S s) →
     ∀ x, x ∈ computeStateEpsilonClosure q ts → S x) as Hleast.
  { intros S Hq Hclosed x Hx%elem_of_computeStateEpsilonClosure.
    revert x Hx. apply rtc_ind_r; [done|].
    intros r s _ Hedge IH. by eapply Hclosed. }
  assert (∀ x, x ∈ computeStateEpsilonClosure q ts →
               x = q ∨ ∃ t, t ∈ ts ∧ to t = x ∧ isEpsilon (symbol t) = true)
    as Htargets.
  { apply Hleast; [by left|].
    intros r s _ (t & Ht & _ & Hto & He). right. by exists t. }
  split; [done|]. split; [done|].
  rewrite <-(length_fmap to), <-(length_cons q).
  apply submseteq_length, NoDup_submseteq.
  { apply computeStateEpsilonClosure_NoDup. }
  intros x [->|(t & Ht & <- & He)]%Htargets; [by left|]. right.
  apply list_elem_of_fmap_2, list_elem_of_filter. done.
Qed.

Lemma empty_list_elem_of {A : Type} (l : list A) : (∀ x, x ∉ l) → l = [].
Proof. destruct l as [|x l]; [done|]. intros H. destruct (H x). by left. Qed.

(** X4. With no declared state, or with an alphabet of epsilon markers
    only, the projection has nothing to do: the converter returns, whatever
    the transitions are, an NFA without transitions. *)
Theorem nothing_to_project (enfa : Automaton) :
  states enfa = [] ∨ (∀ a, a ∈ alphabet enfa → isEpsilon a = true) →
  ∃ r, convertENFAToNFA enfa = Returned r ∧ transitions (nfa r) = [].
Proof.
  intros Hnone.
  assert (∀ q a, q ∈ states enfa → a ∈ alphabetWithoutEpsilon enfa → False) as Hpair.
  { intros q a Hq [Ha He]%elem_of_alphabetWithoutEpsilon.
    destruct Hnone as [Hs|Heps].
    - rewrite Hs in Hq. by apply elem_of_nil in Hq.
    - rewrite (Heps a Ha) in He. done. }
  destruct (convertENFAToNFA enfa) as [r|] eqn:Hr.
  - exists r. split; [done|]. apply empty_list_elem_of.
    intros t (q & a & _ & Hq & Ha & _)%(elem_of_result_transitions enfa r Hr).
    by eapply Hpair.
  - apply convertENFAToNFA_TypeError in Hr as (q & a & Hq & Ha & _).
    destruct (Hpair q a Hq Ha).
Qed.

(** On [EMPTY_ENFA], whose alphabet is [ε] alone. *)
Lemma nothing_to_project_witness :
  ∃ r, convertENFAToNFA EMPTY_ENFA = Returned r ∧ transitions (nfa r) = [].
Proof.
  apply nothing_to_project. right.
  intros a ->%list_elem_of_singleton. reflexivity.
Defined.

(** Converting an automaton without epsilon transitions changes neither the
    set of its transitions nor the set of its final states. *)
Lemma convert_epsilonFree enfa r :
  invariant2 enfa → invariant3 enfa → invariant4 enfa → epsilonFree enfa →
  convertENFAToNFA enfa = Returned r →
  (∀ t, t ∈ transitions (nfa r) ↔ t ∈ transitions enfa) ∧
  (∀ q, q ∈ finalStates (nfa r) ↔ q ∈ finalStates enfa).
Proof.
  intros H2 H3 H4 Hfree Hr. split.
  - intros t. rewrite (elem_of_result_transitions enfa r Hr). split.
    + intros (q & a & target & _ & _ & -> & p & e & Hp & He & Hf & Hs & Hreach).
      apply epsilonFree_reachable in Hp, Hreach; [|done..]. subst.
      by destruct e.
    + intros Ht. exists (from t), (symbol t), (to t).
      split; [by apply H3|]. split; [|split; [by destruct t|]].
      * apply elem_of_alphabetWithoutEpsilon. split; [by apply H4, Hfree|by apply Hfree].
      * by exists (from t), t.
  - intros q. rewrite (elem_of_result_finalStates enfa r Hr). split.
    + intros (_ & f & Hreach & Hf). by apply epsilonFree_reachable in Hreach as ->.
    + intros Hq. split; [by apply H2|]. by exists q.
Qed.

Lemma filter_alphabet_twice (l : list string) :
  filter (λ a, a ≠ "" ∧ a ≠ "ε") (filter (λ a, a ≠ "" ∧ a ≠ "ε") l)
  = filter (λ a, a ≠ "" ∧ a ≠ "ε") l.
Proof.
  induction l as [|a l IH]; [done|]. rewrite filter_cons.
  case_decide; [|done]. rewrite filter_cons, decide_True by done. by rewrite IH.
Qed.

(** X5. Converting twice is converting once: for an automaton whose
    transitions join declared states, the converter applied to its own
    result returns an NFA with the same states, alphabet and initial state,
    the same set of transitions and the same set of final states, and a
    closure map of singletons. *)
Theorem conversion_idempotent (enfa : Automaton) :
  invariant3 enfa →
  ∃ r r', convertENFAToNFA enfa = Returned r ∧
          convertENFAToNFA (nfa r) = Returned r' ∧
          states (nfa r') = states (nfa r) ∧
          alphabet (nfa r') = alphabet (nfa r) ∧
          initialState (nfa r') = initialState (nfa r) ∧
          (∀ t, t ∈ transitions (nfa r') ↔ t ∈ transitions (nfa r)) ∧
          (∀ q, q ∈ finalStates (nfa r') ↔ q ∈ finalStates (nfa r)) ∧
          (∀ q, q ∈ states (nfa r) → closures r' !! q = Some [q]).
Proof.
  intros H3.
  assert (∀ t, t ∈ transitions enfa → to t ∈ states enfa) as Hto
    by (intros t Ht; by apply H3).
  destruct (convertENFAToNFA_returns enfa Hto) as [r Hr].
  destruct (result_fields enfa r Hr) as (Hst & Hini & Hal).
  assert (invariant3 (nfa r)) as H3'.
  { intros t Ht. rewrite Hst.
    split; [|by eapply result_targets_declared].
    by apply (elem_of_result_transitions enfa r Hr) in Ht
      as (q & a & target & Hq & _ & -> & _). }
  assert (invariant2 (nfa r)) as H2'.
  { intros f. rewrite Hst. by intros [? _]%(elem_of_result_finalStates enfa r Hr). }
  assert (invariant4 (nfa r)) as H4'.
  { intros t Ht _. rewrite Hal.
    by apply (elem_of_result_transitions enfa r Hr) in Ht
      as (q & a & target & _ & Ha & -> & _). }
  pose proof (result_epsilonFree enfa r Hr) as Hfree.
  destruct (convertENFAToNFA_returns (nfa r)) as [r' Hr'].
  { intros t Ht. by apply H3'. }
  destruct (result_fields (nfa r) r' Hr') as (Hst' & Hini' & Hal').
  destruct (convert_epsilonFree (nfa r) r' H2' H3' H4' Hfree Hr') as [Ht Hf].
  exists r, r'. do 3 (split; [done|]).
  split; [|do 3 (split; [done|])].
  - rewrite Hal'. unfold alphabetWithoutEpsilon at 1. rewrite Hal.
    apply filter_alphabet_twice.
  - intros q Hq.
    apply convertENFAToNFA_Returned in Hr' as (nt & _ & ->). simpl.
    rewrite computeAllEpsilonClosures_Some by done. f_equal.
    apply computeStateEpsilonClosure_no_edge.
    intros s (t & Hin & _ & _ & He). by rewrite (Hfree t Hin) in He.
Qed.

(** On [INITIAL_ENFA]. *)
Lemma conversion_idempotent_witness :
  ∃ r', convertENFAToNFA (nfa INITIAL_NFA) = Returned r' ∧
        (mkTransition "A" "C" "1" ∈ transitions (nfa r')
         ↔ mkTransition "A" "C" "1" ∈ transitions (nfa INITIAL_NFA)).
Proof.
  destruct (conversion_idempotent INITIAL_ENFA)
    as (r & r' & Hr & Hr' & _ & _ & _ & Ht & _); [by_evaluation|].
  rewrite convert_INITIAL_ENFA in Hr. injection Hr as <-.
  exists r'. split; [exact Hr'|apply Ht].
Defined.

(** * Properties of the editor of [App.tsx] *)

Lemma filterIndexFrom_skip {A : Type} (l : list A) idx k :
  idx < k → App.filterIndexFrom (λ i, bool_decide (i ≠ idx)) k l = l.
Proof.
  revert k. induction l as [|x l IH]; intros k Hk; simpl; [done|].
  rewrite bool_decide_true by lia. f_equal. apply IH. lia.
Qed.

Lemma filterIndexFrom_delete {A : Type} (l : list A) idx k :
  k ≤ idx →
  App.filterIndexFrom (λ i, bool_decide (i ≠ idx)) k l = delete (idx - k) l.
Proof.
  revert k. induction l as [|x l IH]; intros k Hk; simpl; [done|].
  destruct (decide (k = idx)) as [->|Hne].
  - rewrite bool_decide_false by lia. rewrite Nat.sub_diag. simpl.
    apply filterIndexFrom_skip. lia.
  - rewrite bool_decide_true by done.
    replace (idx - k) with (S (idx - S k)) by lia. simpl. f_equal.
    apply IH. lia.
Qed.

(** X6. [removeTransition] deletes the transition at the index given and
    nothing else: the other transitions stay in their order, an index past
    the end changes nothing, and no other state variable is touched. *)
Theorem removeTransition_delete (idx : nat) (st : App.State) :
  transitions (App.enfa (App.removeTransition idx st))
  = delete idx (transitions (App.enfa st)) ∧
  (length (transitions (App.enfa st)) ≤ idx → App.removeTransition idx st = st) ∧
  (idx < length (transitions (App.enfa st)) →
   length (transitions (App.enfa (App.removeTransition idx st)))
   = pred (length (transitions (App.enfa st)))) ∧
  (∀ t, t ∈ transitions (App.enfa (App.removeTransition idx st)) →
        t ∈ transitions (App.enfa st)).
Proof.
  assert (transitions (App.enfa (App.removeTransition idx st))
          = delete idx (transitions (App.enfa st))) as Heq.
  { simpl. rewrite filterIndexFrom_delete by lia. by rewrite Nat.sub_0_r. }
  split; [done|]. split; [|split].
  - intros Hlen. destruct st as [[sts al ts ini fin] tab sj ji nt ns ny].
    unfold App.removeTransition. simpl in *.
    rewrite filterIndexFrom_delete, Nat.sub_0_r by lia.
    do 2 f_equal. clear -Hlen. revert idx Hlen.
    induction ts as [|t ts IH]; intros idx Hlen; [done|].
    destruct idx as [|idx]; simpl in *; [lia|]. f_equal. apply IH. lia.
  - intros Hlt. rewrite Heq, length_delete; [lia|].
    by apply lookup_lt_is_Some_2.
  - intros t. rewrite Heq. intros Ht.
    by eapply list_elem_of_delete_inv.
Qed.

(** Deleting the second transition of the first state. *)
Lemma removeTransition_delete_witness :
  App.removeTransition 9 App.initial = App.initial ∧
  length (transitions (App.enfa (App.removeTransition 1 App.initial))) = 4.
Proof.
  destruct (removeTransition_delete 9 App.initial) as (_ & Hpast & _).
  destruct (removeTransition_delete 1 App.initial) as (_ & _ & Hlen & _).
  split; [apply Hpast; simpl; lia|apply Hlen; simpl; lia].
Defined.

(** X7. Confirming a transition and deleting the last transition undo
    each other on the automaton: the pending transition is appended when its
    origin and destination are chosen, and [removeTransition] at the old
    length takes it away again; with the origin or the destination still
    empty, [addTransition] changes nothing at all. *)
Theorem addTransition_removeTransition (st : App.State) :
  (App.truthy (from (App.newTrans st)) && App.truthy (to (App.newTrans st)) = true →
   transitions (App.enfa (App.addTransition st))
   = transitions (App.enfa st) ++ [App.newTrans st] ∧
   App.newTrans (App.addTransition st) = mkTransition "" "" "" ∧
   App.enfa (App.removeTransition (length (transitions (App.enfa st)))
                                  (App.addTransition st))
   = App.enfa st) ∧
  (from (App.newTrans st) = "" ∨ to (App.newTrans st) = "" →
   App.addTransition st = st).
Proof.
  split.
  - intros Hform. unfold App.addTransition. rewrite Hform.
    split; [done|]. split; [done|]. simpl.
    rewrite filterIndexFrom_delete, Nat.sub_0_r by lia.
    destruct st as [[sts al ts ini fin] tab sj ji nt ns ny]. simpl. f_equal.
    clear. induction ts as [|t ts IH]; [done|]. simpl. by rewrite IH.
  - intros Hempty. unfold App.addTransition, App.truthy.
    destruct Hempty as [-> | ->]; [done|].
    by rewrite andb_false_r.
Qed.

(** With [A -0→ B] pending on the first state. *)
Lemma addTransition_removeTransition_witness :
  App.enfa (App.removeTransition 5
    (App.addTransition
       {| App.enfa := INITIAL_ENFA; App.activeTab := App.visual;
          App.showJsonInput := false; App.jsonInput := "";
          App.newTrans := mkTransition "A" "B" "0";
          App.newStateName := ""; App.newSymbolName := "" |}))
  = INITIAL_ENFA.
Proof.
  apply (proj1 (addTransition_removeTransition
    {| App.enfa := INITIAL_ENFA; App.activeTab := App.visual;
       App.showJsonInput := false; App.jsonInput := "";
       App.newTrans := mkTransition "A" "B" "0";
       App.newStateName := ""; App.newSymbolName := "" |})).
  reflexivity.
Defined.

(** X8. [removeState] removes the state from the states, from the final
    states and with it every transition that leaves or enters it; it removes
    nothing else.  Invariants 2, 3 and 4 survive it, and after it the converter
    returns whenever the transitions were between declared states before. *)
Theorem removeState_clean (state : string) (st : App.State) :
  (state ∉ states (App.enfa (App.removeState state st))) ∧
  (state ∉ finalStates (App.enfa (App.removeState state st))) ∧
  (∀ t, t ∈ transitions (App.enfa (App.removeState state st)) →
        from t ≠ state ∧ to t ≠ state) ∧
  (∀ s, s ≠ state →
        (s ∈ states (App.enfa (App.removeState state st)) ↔ s ∈ states (App.enfa st)) ∧
        (s ∈ finalStates (App.enfa (App.removeState state st))
         ↔ s ∈ finalStates (App.enfa st))) ∧
  (∀ t, from t ≠ state → to t ≠ state →
        (t ∈ transitions (App.enfa (App.removeState state st))
         ↔ t ∈ transitions (App.enfa st))) ∧
  (invariant2 (App.enfa st) → invariant2 (App.enfa (App.removeState state st))) ∧
  (invariant3 (App.enfa st) →
   invariant3 (App.enfa (App.removeState state st)) ∧
   ∃ r, App.conversion (App.removeState state st) = Returned r) ∧
  (invariant4 (App.enfa st) → invariant4 (App.enfa (App.removeState state st))).
Proof.
  assert (invariant3 (App.enfa st) →
          invariant3 (App.enfa (App.removeState state st))) as H3.
  { intros Hinv t. simpl. rewrite !list_elem_of_filter.
    intros [[Hf Ht] Hin]. destruct (Hinv t Hin). done. }
  simpl. split; [|split; [|split; [|split; [|split; [|split; [|split]]]]]].
  - rewrite list_elem_of_filter. tauto.
  - rewrite list_elem_of_filter. tauto.
  - intros t. rewrite list_elem_of_filter. tauto.
  - intros s Hs. rewrite !list_elem_of_filter. tauto.
  - intros t Hf Ht. rewrite list_elem_of_filter. tauto.
  - intros Hinv f. simpl. rewrite !list_elem_of_filter.
    intros [Hne Hin]. split; [done|]. by apply Hinv.
  - intros Hinv. split; [by apply H3|].
    apply convertENFAToNFA_returns. intros t Ht. by apply (H3 Hinv t).
  - intros Hinv t. simpl. rewrite list_elem_of_filter.
    intros [_ Hin]. by apply Hinv.
Qed.

(** Removing [B] from the first automaton leaves a well-formed automaton. *)
Lemma removeState_clean_witness :
  invariant3 (App.enfa (App.removeState "B" App.initial)) ∧
  ∃ r, App.conversion (App.removeState "B" App.initial) = Returned r.
Proof.
  destruct (removeState_clean "B" App.initial) as (_ & _ & _ & _ & _ & _ & H & _).
  apply H. by_evaluation.
Defined.

Lemma firstStateOrEmpty_head (sts : list string) (first : string) :
  sts !! 0 = Some first → App.firstStateOrEmpty sts = first.
Proof.
  unfold App.firstStateOrEmpty, App.truthy. intros ->.
  destruct (decide (first = "")) as [->|Hne]; [done|].
  by rewrite bool_decide_true.
Qed.

(** X9. [removeState] repairs the initial state with [prev.states[0]], the
    first state of the list before the removal.  So an initial state that is
    declared stays declared after a removal, except in one case: when the
    state removed is the initial state and also the first of the list, the
    initial state keeps the name of the state that is gone. *)
Theorem removeState_initial (state : string) (st : App.State) :
  invariant1 (App.enfa st) →
  (invariant1 (App.enfa (App.removeState state st))
   ↔ ¬ (initialState (App.enfa st) = state ∧
        states (App.enfa st) !! 0 = Some state)) ∧
  (initialState (App.enfa st) = state → states (App.enfa st) !! 0 = Some state →
   initialState (App.enfa (App.removeState state st)) = state) ∧
  (initialState (App.enfa st) = state →
   ∀ first, states (App.enfa st) !! 0 = Some first → first ≠ state →
            initialState (App.enfa (App.removeState state st)) = first) ∧
  (initialState (App.enfa st) ≠ state →
   initialState (App.enfa (App.removeState state st)) = initialState (App.enfa st)).
Proof.
  unfold invariant1. intros Hini. simpl.
  destruct (decide (initialState (App.enfa st) = state)) as [Heq|Hne].
  - destruct (states (App.enfa st) !! 0) as [first|] eqn:Hfirst.
    + rewrite (firstStateOrEmpty_head _ _ Hfirst).
      split; [|split; [|split]].
      * rewrite list_elem_of_filter. split.
        -- intros [Hne _] [_ [= ->]]. done.
        -- intros Hnot. split; [intros ->; by apply Hnot|].
           by eapply list_elem_of_lookup_2.
      * by intros _ [= ->].
      * by intros _ ? [= ->] _.
      * done.
    + destruct (states (App.enfa st)); [by apply elem_of_nil in Hini|done].
  - split; [|split; [|split]]; try done.
    rewrite list_elem_of_filter. split; [intros _ [? _]; done|done].
Qed.

(** Removing [A], the first and the initial state of the first automaton,
    leaves [A] as the initial state of an automaton without [A]. *)
Lemma removeState_initial_witness :
  ¬ invariant1 (App.enfa (App.removeState "A" App.initial)) ∧
  invariant1 (App.enfa (App.removeState "B" App.initial)).
Proof.
  split.
  - intros H.
    apply (proj1 (removeState_initial "A" App.initial ltac:(by_evaluation))) in H.
    by apply H.
  - apply (proj1 (removeState_initial "B" App.initial ltac:(by_evaluation))).
    by intros [[=] _].
Defined.

Lemma truthy_true (s : string) : App.truthy s = true ↔ s ≠ "".
Proof. unfold App.truthy. by rewrite bool_decide_eq_true. Qed.

Lemma addState_guard (st : App.State) :
  App.truthy (App.newStateName st)
  && negb (bool_decide (App.newStateName st ∈ states (App.enfa st))) = true
  ↔ App.newStateName st ≠ "" ∧ App.newStateName st ∉ states (App.enfa st).
Proof.
  rewrite andb_true_iff, truthy_true, negb_true_iff, bool_decide_eq_false. tauto.
Qed.

Lemma addSymbol_guard (st : App.State) :
  App.truthy (App.newSymbolName st)
  && negb (bool_decide (App.newSymbolName st ∈ alphabet (App.enfa st))) = true
  ↔ App.newSymbolName st ≠ "" ∧ App.newSymbolName st ∉ alphabet (App.enfa st).
Proof.
  rewrite andb_true_iff, truthy_true, negb_true_iff, bool_decide_eq_false. tauto.
Qed.

(** X10. [addState] does nothing when the name typed is empty or already a
    state.  Otherwise it appends the name to the states and empties the input
    field; in a well-formed automaton the new state is isolated: the automaton
    stays well-formed, its conversion returns, the closure of the new state is
    the state alone, it is not accepting, and no transition of the result
    leaves or enters it. *)
Theorem addState_fresh (st : App.State) :
  (App.newStateName st = "" ∨ App.newStateName st ∈ states (App.enfa st) →
   App.addState st = st) ∧
  (App.newStateName st ≠ "" → App.newStateName st ∉ states (App.enfa st) →
   states (App.enfa (App.addState st))
   = states (App.enfa st) ++ [App.newStateName st] ∧
   App.newStateName (App.addState st) = "" ∧
   (wellFormed (App.enfa st) →
    wellFormed (App.enfa (App.addState st)) ∧
    ∃ r, App.conversion (App.addState st) = Returned r ∧
         closures r !! App.newStateName st = Some [App.newStateName st] ∧
         (App.newStateName st ∉ finalStates (nfa r)) ∧
         ∀ t, t ∈ transitions (nfa r) →
              from t ≠ App.newStateName st ∧ to t ≠ App.newStateName st)).
Proof.
  split.
  - intros Hno. unfold App.addState.
    destruct (_ && _) eqn:Hguard; [|done].
    apply addState_guard in Hguard. tauto.
  - intros Hname Hfresh. unfold App.addState, App.conversion.
    rewrite (proj2 (addState_guard st)) by done.
    split; [done|]. split; [done|].
    intros (H1 & H2 & H3 & H4).
    set (enfa' := App.enfa _).
    assert (states enfa' = states (App.enfa st) ++ [App.newStateName st]) as Hsts by done.
    assert (transitions enfa' = transitions (App.enfa st)) as Hts by done.
    assert (wellFormed enfa') as Hwf.
    { unfold wellFormed, invariant1, invariant2, invariant3, invariant4.
      rewrite Hsts, Hts. setoid_rewrite elem_of_app.
      split; [by left|]. split; [intros f Hf; left; by apply H2|].
      split; [|done]. intros t Ht. destruct (H3 t Ht). split; by left. }
    split; [done|].
    assert (∀ s, ¬ epsilonEdge (transitions enfa') (App.newStateName st) s) as Hno.
    { intros s (t & Ht & Hf & _). rewrite Hts in Ht.
      destruct (H3 t Ht) as [Hin _]. by rewrite Hf in Hin. }
    destruct (convertENFAToNFA_returns enfa') as [r Hr].
    { intros t Ht. by apply Hwf. }
    exists r. split; [done|].
    assert (App.newStateName st ∈ states enfa') as Hin.
    { rewrite Hsts, elem_of_app, list_elem_of_singleton. by right. }
    split; [|split].
    + destruct (proj1 (convertENFAToNFA_Returned _ _) Hr) as (nt & _ & ->). simpl.
      rewrite computeAllEpsilonClosures_lookup, decide_True by done.
      by rewrite computeStateEpsilonClosure_no_edge.
    + rewrite (elem_of_result_finalStates enfa' r Hr).
      intros (_ & f & Hreach & Hf). apply H2 in Hf.
      destruct Hreach as [|x y z Hedge _]; [done|by apply Hno in Hedge].
    + intros t (q & a & target & Hq & Ha & -> & p & t' & Hqp & Ht' & Hf & Hs & Htarget)
        %(elem_of_result_transitions enfa' r Hr). simpl.
      rewrite Hts in Ht'. destruct (H3 t' Ht') as [Hfrom Hto]. split.
      * intros ->. destruct Hqp as [|x y z Hedge _]; [|by apply Hno in Hedge].
        by rewrite Hf in Hfrom.
      * intros ->. rewrite Hts in Htarget.
        apply Hfresh. eapply epsilonReachable_declared; [|exact Hto|exact Htarget].
        intros t Ht. by apply H3.
Qed.

(** Typing [D] into the first state and confirming. *)
Lemma addState_fresh_witness :
  ∃ r, App.conversion (App.addState
         {| App.enfa := INITIAL_ENFA; App.activeTab := App.visual;
            App.showJsonInput := false; App.jsonInput := "";
            App.newTrans := mkTransition "" "" "";
            App.newStateName := "D"; App.newSymbolName := "" |}) = Returned r ∧
       closures r !! "D" = Some ["D"].
Proof.
  destruct (addState_fresh
    {| App.enfa := INITIAL_ENFA; App.activeTab := App.visual;
       App.showJsonInput := false; App.jsonInput := "";
       App.newTrans := mkTransition "" "" "";
       App.newStateName := "D"; App.newSymbolName := "" |}) as [_ H].
  destruct H as (_ & _ & H); [done|by_evaluation|].
  destruct H as (_ & r & Hr & Hcl & _); [by_evaluation|].
  by exists r.
Defined.

(** X11. [addSymbol] does nothing when the symbol typed is empty or already
    in the alphabet.  Otherwise it appends the symbol and empties the input
    field; a well-formed automaton stays well-formed, its conversion returns,
    and no transition of the result carries the new symbol. *)
Theorem addSymbol_fresh (st : App.State) :
  (App.newSymbolName st = "" ∨ App.newSymbolName st ∈ alphabet (App.enfa st) →
   App.addSymbol st = st) ∧
  (App.newSymbolName st ≠ "" → App.newSymbolName st ∉ alphabet (App.enfa st) →
   alphabet (App.enfa (App.addSymbol st))
   = alphabet (App.enfa st) ++ [App.newSymbolName st] ∧
   App.newSymbolName (App.addSymbol st) = "" ∧
   (wellFormed (App.enfa st) →
    wellFormed (App.enfa (App.addSymbol st)) ∧
    ∃ r, App.conversion (App.addSymbol st) = Returned r ∧
         ∀ t, t ∈ transitions (nfa r) → symbol t ≠ App.newSymbolName st)).
Proof.
  split.
  - intros Hno. unfold App.addSymbol.
    destruct (_ && _) eqn:Hguard; [|done].
    apply addSymbol_guard in Hguard. tauto.
  - intros Hname Hfresh. unfold App.addSymbol, App.conversion.
    rewrite (proj2 (addSymbol_guard st)) by done.
    split; [done|]. split; [done|].
    intros (H1 & H2 & H3 & H4).
    set (enfa' := App.enfa _).
    assert (alphabet enfa' = alphabet (App.enfa st) ++ [App.newSymbolName st])
      as Hal by done.
    assert (transitions enfa' = transitions (App.enfa st)) as Hts by done.
    assert (wellFormed enfa') as Hwf.
    { split; [done|]. split; [done|]. split; [done|].
      intros t Ht He. rewrite Hal, elem_of_app. left. by apply H4. }
    split; [done|].
    destruct (convertENFAToNFA_returns enfa') as [r Hr].
    { intros t Ht. by apply H3. }
    exists r. split; [done|].
    intros t (q & a & target & Hq & Ha & -> & p & t' & Hqp & Ht' & Hf & Hs & Htarget)
      %(elem_of_result_transitions enfa' r Hr). simpl.
    apply elem_of_alphabetWithoutEpsilon in Ha as [_ Ha].
    intros ->. apply Hfresh. rewrite <-Hs. apply H4; [done|by rewrite Hs].
Qed.

(** Typing [2] into the first state and confirming. *)
Lemma addSymbol_fresh_witness :
  alphabet (App.enfa (App.addSymbol
    {| App.enfa := INITIAL_ENFA; App.activeTab := App.visual;
       App.showJsonInput := false; App.jsonInput := "";
       App.newTrans := mkTransition "" "" "";
       App.newStateName := ""; App.newSymbolName := "2" |}))
  = ["0"; "1"; "ε"; "2"].
Proof.
  destruct (addSymbol_fresh
    {| App.enfa := INITIAL_ENFA; App.activeTab := App.visual;
       App.showJsonInput := false; App.jsonInput := "";
       App.newTrans := mkTransition "" "" "";
       App.newStateName := ""; App.newSymbolName := "2" |}) as [_ H].
  destruct H as (H & _); [done|by_evaluation|]. exact H.
Defined.

Lemma filter_ne_fresh (state : string) (l : list string) :
  state ∉ l → filter (λ s, s ≠ state) l = l.
Proof.
  induction l as [|x l IH]; [done|]. intros Hnot.
  apply not_elem_of_cons in Hnot as [Hne Hnot].
  rewrite filter_cons_True by done. by rewrite IH.
Qed.

(** X12. [toggleFinalState] flips the membership of the state given in the
    final states and of no other state; it never makes a state final twice;
    it keeps the final states among the states when the state toggled is one
    of them; and toggling a state that was not final twice gives the state
    of the editor back. *)
Theorem toggleFinalState_flip (state : string) (st : App.State) :
  (state ∈ finalStates (App.enfa (App.toggleFinalState state st))
   ↔ state ∉ finalStates (App.enfa st)) ∧
  (∀ s, s ≠ state →
        (s ∈ finalStates (App.enfa (App.toggleFinalState state st))
         ↔ s ∈ finalStates (App.enfa st))) ∧
  (NoDup (finalStates (App.enfa st)) →
   NoDup (finalStates (App.enfa (App.toggleFinalState state st)))) ∧
  (state ∈ states (App.enfa st) → invariant2 (App.enfa st) →
   invariant2 (App.enfa (App.toggleFinalState state st))) ∧
  (state ∉ finalStates (App.enfa st) →
   App.toggleFinalState state (App.toggleFinalState state st) = st).
Proof.
  split; [|split; [|split; [|split]]].
  - simpl. case_bool_decide as Hin.
    + rewrite list_elem_of_filter. tauto.
    + rewrite elem_of_app, list_elem_of_singleton. tauto.
  - intros s Hs. simpl. case_bool_decide as Hin.
    + rewrite list_elem_of_filter. tauto.
    + rewrite elem_of_app, list_elem_of_singleton. tauto.
  - intros Hnd. simpl. case_bool_decide as Hin.
    + by apply NoDup_filter.
    + apply NoDup_app. split; [done|]. split; [|apply NoDup_singleton].
      by intros x Hx ->%list_elem_of_singleton.
  - intros Hstate Hinv f. simpl. case_bool_decide as Hin.
    + rewrite list_elem_of_filter. intros [_ Hf]. by apply Hinv.
    + rewrite elem_of_app, list_elem_of_singleton. intros [Hf| ->]; [by apply Hinv|done].
  - intros Hnot. destruct st as [[sts al ts ini fin] tab sj ji nt ns ny].
    unfold App.toggleFinalState. simpl in *.
    rewrite (bool_decide_false _ Hnot).
    rewrite bool_decide_true
      by (rewrite elem_of_app, list_elem_of_singleton; by right).
    rewrite filter_app, filter_ne_fresh by done.
    rewrite filter_cons_False by (intros H; by apply H).
    by rewrite filter_nil, app_nil_r.
Qed.

(** On the first automaton: [A] becomes final and, toggled again, is not. *)
Lemma toggleFinalState_flip_witness :
  invariant2 (App.enfa (App.toggleFinalState "A" App.initial)) ∧
  App.toggleFinalState "A" (App.toggleFinalState "A" App.initial) = App.initial.
Proof.
  destruct (toggleFinalState_flip "A" App.initial) as (_ & _ & _ & Hinv & Htwice).
  split; [apply Hinv; by_evaluation|apply Htwice; by_evaluation].
Defined.

(** X13. [removeSymbol] refuses the symbol [ε] and changes nothing then.  Any
    other symbol leaves the alphabet together with the transitions that
    carry it, and nothing else does; invariants 3 and 4 survive.  The empty
    string, which the converter also reads as epsilon, is not protected. *)
Theorem removeSymbol_protects (sym : string) (st : App.State) :
  (sym = "ε" → App.removeSymbol sym st = st) ∧
  (sym ≠ "ε" →
   (sym ∉ alphabet (App.enfa (App.removeSymbol sym st))) ∧
   (∀ t, t ∈ transitions (App.enfa (App.removeSymbol sym st)) → symbol t ≠ sym) ∧
   (∀ a, a ≠ sym →
         (a ∈ alphabet (App.enfa (App.removeSymbol sym st))
          ↔ a ∈ alphabet (App.enfa st))) ∧
   (∀ t, symbol t ≠ sym →
         (t ∈ transitions (App.enfa (App.removeSymbol sym st))
          ↔ t ∈ transitions (App.enfa st))) ∧
   (invariant3 (App.enfa st) → invariant3 (App.enfa (App.removeSymbol sym st))) ∧
   (invariant4 (App.enfa st) → invariant4 (App.enfa (App.removeSymbol sym st)))).
Proof.
  unfold App.removeSymbol. split.
  - intros ->. done.
  - intros Hsym. rewrite decide_False by done. simpl.
    split; [|split; [|split; [|split; [|split]]]].
    + rewrite list_elem_of_filter. tauto.
    + intros t. rewrite list_elem_of_filter. tauto.
    + intros a Ha. rewrite list_elem_of_filter. tauto.
    + intros t Ht. rewrite list_elem_of_filter. tauto.
    + intros Hinv t. simpl. rewrite list_elem_of_filter. intros [_ Hin].
      by apply Hinv.
    + intros Hinv t. simpl. rewrite !list_elem_of_filter.
      intros [Hne Hin] He. split; [done|]. by apply Hinv.
Qed.

(** On the first automaton: [ε] stays, [0] goes with its two transitions. *)
Lemma removeSymbol_protects_witness :
  App.removeSymbol "ε" App.initial = App.initial ∧
  invariant4 (App.enfa (App.removeSymbol "0" App.initial)).
Proof.
  destruct (removeSymbol_protects "ε" App.initial) as (Heps & _).
  destruct (removeSymbol_protects "0" App.initial) as (_ & H0).
  split; [by apply Heps|].
  destruct H0 as (_ & _ & _ & _ & _ & H); [done|]. apply H. by_evaluation.
Defined.

(** X14. [removeState] leaves the pending transition of the form as it is.
    When the form holds a transition from another declared state into the
    state removed, on a symbol of the alphabet that is not epsilon, confirming
    it after the removal appends a transition into a state that is gone, and
    the conversion of the next render throws. *)
Theorem stale_form_crash (s q a : string) (st : App.State) :
  q ∈ states (App.enfa st) → q ≠ s → q ≠ "" → s ≠ "" →
  a ∈ alphabet (App.enfa st) → isEpsilon a = false →
  App.newTrans st = mkTransition q s a →
  App.newTrans (App.removeState s st) = mkTransition q s a ∧
  mkTransition q s a
    ∈ transitions (App.enfa (App.addTransition (App.removeState s st))) ∧
  ¬ invariant3 (App.enfa (App.addTransition (App.removeState s st))) ∧
  App.conversion (App.addTransition (App.removeState s st)) = TypeError.
Proof.
  intros Hq Hqs Hqne Hsne Ha He Hform.
  assert (App.addTransition (App.removeState s st)
          = {| App.enfa :=
                 {| states := filter (λ x, x ≠ s) (states (App.enfa st));
                    alphabet := alphabet (App.enfa st);
                    transitions :=
                      filter (λ t, from t ≠ s ∧ to t ≠ s) (transitions (App.enfa st))
                      ++ [mkTransition q s a];
                    initialState :=
                      initialState (App.enfa (App.removeState s st));
                    finalStates := filter (λ x, x ≠ s) (finalStates (App.enfa st)) |};
               App.activeTab := App.activeTab st;
               App.showJsonInput := App.showJsonInput st;
               App.jsonInput := App.jsonInput st;
               App.newTrans := mkTransition "" "" "";
               App.newStateName := App.newStateName st;
               App.newSymbolName := App.newSymbolName st |}) as ->.
  { unfold App.addTransition. simpl. rewrite Hform. simpl.
    by rewrite !(proj2 (truthy_true _)). }
  assert (mkTransition q s a
          ∈ filter (λ t, from t ≠ s ∧ to t ≠ s) (transitions (App.enfa st))
            ++ [mkTransition q s a]) as Hin.
  { rewrite elem_of_app, list_elem_of_singleton. by right. }
  assert (s ∉ filter (λ x, x ≠ s) (states (App.enfa st))) as Hgone.
  { rewrite list_elem_of_filter. tauto. }
  split; [done|]. split; [done|]. split.
  - intros Hinv. destruct (Hinv _ Hin) as [_ Hto]. done.
  - unfold App.conversion. apply convertENFAToNFA_TypeError. exists q, a.
    split; [simpl; by rewrite list_elem_of_filter|].
    split; [by apply elem_of_alphabetWithoutEpsilon|].
    exists q, (mkTransition q s a). by repeat split.
Qed.

(** On the first automaton, with [A -0→ B] pending: removing [B] and then
    confirming the form. *)
Lemma stale_form_crash_witness :
  App.conversion
    (App.addTransition
       (App.removeState "B"
          {| App.enfa := INITIAL_ENFA; App.activeTab := App.visual;
             App.showJsonInput := false; App.jsonInput := "";
             App.newTrans := mkTransition "A" "B" "0";
             App.newStateName := ""; App.newSymbolName := "" |}))
  = TypeError.
Proof.
  apply (stale_form_crash "B" "A" "0"
    {| App.enfa := INITIAL_ENFA; App.activeTab := App.visual;
       App.showJsonInput := false; App.jsonInput := "";
       App.newTrans := mkTransition "A" "B" "0";
       App.newStateName := ""; App.newSymbolName := "" |});
    by_evaluation || done.
Defined.

(** X15. The cell of the transition table for a state and a symbol lists
    each target once, so the React keys of its elements are distinct; the
    targets are those of the projection, and the cell is empty for a state or
    a symbol the converter does not project. *)
Theorem table_cell (enfa : Automaton) (r : Conversion) (state a : string) :
  convertENFAToNFA enfa = Returned r →
  NoDup (App.targets (nfa r) state a) ∧
  (∀ target, target ∈ App.targets (nfa r) state a
             ↔ state ∈ states enfa ∧ a ∈ alphabetWithoutEpsilon enfa ∧
               projected enfa state a target) ∧
  (state ∉ states (nfa r) ∨ a ∉ alphabet (nfa r) →
   App.targets (nfa r) state a = []).
Proof.
  intros Hr.
  assert (∀ target, target ∈ App.targets (nfa r) state a
             ↔ state ∈ states enfa ∧ a ∈ alphabetWithoutEpsilon enfa ∧
               projected enfa state a target) as Hiff.
  { intros target. unfold App.targets. rewrite list_elem_of_fmap. split.
    - intros (t & -> & [[<- <-] Hin]%list_elem_of_filter).
      apply (elem_of_result_transitions enfa r Hr) in Hin
        as (q & b & tg & Hq & Hb & -> & Hp). done.
    - intros (Hq & Ha & Hp). exists (mkTransition state target a).
      split; [done|]. apply list_elem_of_filter. split; [done|].
      apply (elem_of_result_transitions enfa r Hr). by exists state, a, target. }
  split; [|split; [done|]].
  - unfold App.targets. apply NoDup_fmap_2_strong.
    + intros [f1 t1 s1] [f2 t2 s2].
      rewrite !list_elem_of_filter. simpl.
      intros [[-> ->] _] [[-> ->] _] ->. done.
    + apply NoDup_filter.
      destruct (proj1 (convertENFAToNFA_Returned enfa r) Hr) as (nt & Hnt & ->).
      simpl. by eapply projectTransitions_NoDup.
  - destruct (result_fields enfa r Hr) as (-> & _ & ->). intros Hnot.
    apply elem_of_nil_inv. intros x Hx%Hiff. tauto.
Qed.

(** The cell of [A] and [0] in the table of the first automaton. *)
Lemma table_cell_witness :
  NoDup (App.targets (nfa INITIAL_NFA) "A" "0").
Proof.
  apply (table_cell INITIAL_ENFA INITIAL_NFA "A" "0"). vm_compute. reflexivity.
Defined.

(** ** The automata the editor can reach *)

Ltac split_editorInvariant :=
  split; [|split; [|split; [|split; [|split; [|split; [|split]]]]]].

Lemma editorInvariant_EMPTY_ENFA : editorInvariant EMPTY_ENFA.
Proof.
  split_editorInvariant; try by_evaluation.
  intros t Ht. by apply elem_of_nil in Ht.
Qed.

Lemma editorInvariant_INITIAL_ENFA : editorInvariant INITIAL_ENFA.
Proof.
  split_editorInvariant; try by_evaluation.
  intros t Ht. apply Forall_forall with (x := t) (l := transitions INITIAL_ENFA);
    [|done].
  by_evaluation.
Qed.

Lemma handle_editorInvariant (st : App.State) (ev : App.Event) :
  App.offered st ev → editorInvariant (App.enfa st) →
  editorInvariant (App.enfa (App.handle ev st)).
Proof.
  intros Hoff Hinv.
  pose proof Hinv as (Hs & Ha & Hf & Hes & Hea & Heps & H2 & Ht).
  destruct ev as [confirmed|s|s| |s|s| |a|s|a|s| |s|i|tab]; simpl in *; try done.
  - destruct confirmed; [apply editorInvariant_EMPTY_ENFA|done].
  - unfold App.addState. destruct (_ && _) eqn:Hguard; [|done].
    apply addState_guard in Hguard as [Hname Hfresh].
    split_editorInvariant; unfold invariant2 in *; simpl; try done.
    + apply NoDup_app. split; [done|]. split; [|apply NoDup_singleton].
      by intros x Hx ->%list_elem_of_singleton.
    + rewrite elem_of_app, list_elem_of_singleton. intros [?|?]; done.
    + intros f Hin. apply elem_of_app. left. by apply H2.
  - split_editorInvariant; unfold invariant2 in *; simpl; try done.
    + by apply NoDup_filter.
    + by apply NoDup_filter.
    + rewrite list_elem_of_filter. tauto.
    + intros f. rewrite !list_elem_of_filter. intros [Hne Hin].
      split; [done|]. by apply H2.
    + intros t [_ Hin]%list_elem_of_filter. by apply Ht.
  - unfold App.addSymbol. destruct (_ && _) eqn:Hguard; [|done].
    apply addSymbol_guard in Hguard as [Hname Hfresh].
    split_editorInvariant; unfold invariant2 in *; simpl; try done.
    + apply NoDup_app. split; [done|]. split; [|apply NoDup_singleton].
      by intros x Hx ->%list_elem_of_singleton.
    + rewrite elem_of_app, list_elem_of_singleton. intros [?|?]; done.
    + apply elem_of_app. by left.
  - destruct Hoff as [Hin Hne]. unfold App.removeSymbol.
    rewrite decide_False by done.
    split_editorInvariant; unfold invariant2 in *; simpl; try done.
    + by apply NoDup_filter.
    + rewrite list_elem_of_filter. tauto.
    + rewrite list_elem_of_filter. split; [congruence|done].
    + intros t [_ Hint]%list_elem_of_filter. by apply Ht.
  - destruct Hoff as [Hfrom Hto]. unfold App.addTransition.
    rewrite Hfrom, Hto. simpl.
    split_editorInvariant; unfold invariant2 in *; simpl; try done.
    intros t [Hin| ->%list_elem_of_singleton]%elem_of_app; [by apply Ht|].
    by split; apply truthy_true.
  - split_editorInvariant; unfold invariant2 in *; simpl; try done.
    + case_bool_decide as Hin.
      * by apply NoDup_filter.
      * apply NoDup_app. split; [done|]. split; [|apply NoDup_singleton].
        by intros x Hx ->%list_elem_of_singleton.
    + intros f. simpl. case_bool_decide as Hin.
      * rewrite list_elem_of_filter. intros [_ Hin']. by apply H2.
      * rewrite elem_of_app, list_elem_of_singleton.
        intros [Hin'| ->]; [by apply H2|done].
  - split_editorInvariant; unfold invariant2 in *; simpl; try done.
    intros t. rewrite filterIndexFrom_delete, Nat.sub_0_r by lia.
    intros Hin%list_elem_of_delete_inv. by apply Ht.
Qed.

(** X16. Whatever sequence of events the page receives (the JSON import
    apart), the automaton of the editor has no state, symbol or final state
    twice, has no empty state name and no empty symbol, keeps [ε] in its
    alphabet, has its final states among its states, and has no transition
    with an empty origin or destination. *)
Theorem editor_invariant (st : App.State) :
  App.reachable st → editorInvariant (App.enfa st).
Proof.
  unfold App.reachable. revert st. apply rtc_ind_r.
  - apply editorInvariant_INITIAL_ENFA.
  - intros st st' _ (_ & ev & Hoff & ->) IH. by apply handle_editorInvariant.
Qed.

(** After typing [D] and adding it as a state. *)
Lemma editor_invariant_witness :
  editorInvariant
    (App.enfa (App.addState (App.setNewStateName "D" App.initial))).
Proof.
  apply editor_invariant.
  eapply rtc_l; [|eapply rtc_l; [|apply rtc_refl]].
  - split; [eexists; vm_compute; reflexivity|].
    by exists (App.TypeStateName "D").
  - split; [eexists; vm_compute; reflexivity|].
    by exists App.AddState.
Defined.


Lemma rendered_invariant3 (st : App.State) :
  invariant3 (App.enfa st) → App.rendered st.
Proof.
  intros Hinv. apply convertENFAToNFA_returns. intros t Ht. by apply Hinv.
Qed.


(** * Properties of the links of [AutomatonVisualizer.tsx] *)

Lemma string_app_nil_r (s : string) : s +:+ "" = s.
Proof.
  induction s as [|c s IH]; [done|].
  change (String c (s +:+ "") = String c s). by rewrite IH.
Qed.

Lemma string_app_assoc (s1 s2 s3 : string) :
  (s1 +:+ s2) +:+ s3 = s1 +:+ (s2 +:+ s3).
Proof.
  induction s1 as [|c s1 IH]; [done|].
  change (String c ((s1 +:+ s2) +:+ s3) = String c (s1 +:+ (s2 +:+ s3))).
  by rewrite IH.
Qed.

Lemma hasArrow_step (c c' : ascii) (s : string) :
  hasArrow (String c (String c' s))
  = bool_decide (c = "-"%char) && bool_decide (c' = ">"%char)
    || hasArrow (String c' s).
Proof. done. Qed.

(** [hasArrow] decides the occurrence of [->] in a name. *)
Lemma hasArrow_spec (s : string) :
  hasArrow s = true ↔ ∃ u v, s = u +:+ "->" +:+ v.
Proof.
  split.
  - induction s as [|c s IH]; [done|]. destruct s as [|c' s]; [done|].
    rewrite hasArrow_step. intros [Hcc|Hrest]%orb_true_iff.
    + apply andb_true_iff in Hcc as [->%bool_decide_eq_true ->%bool_decide_eq_true].
      by exists "", s.
    + destruct (IH Hrest) as (u & v & ->). by exists (String c u), v.
  - intros (u & v & ->). induction u as [|c u IH]; [done|].
    change (String c u +:+ "->" +:+ v) with (String c (u +:+ "->" +:+ v)).
    destruct u as [|c' u].
    + change ("" +:+ "->" +:+ v) with (String "-" (String ">" v)) in *.
      rewrite hasArrow_step, IH. apply orb_true_r.
    + change (String c' u +:+ "->" +:+ v) with (String c' (u +:+ "->" +:+ v)) in *.
      rewrite hasArrow_step, IH. apply orb_true_r.
Qed.

Lemma split_step (cur : string) (c c' : ascii) (s : string) :
  Visualizer.split cur (String c (String c' s))
  = if bool_decide (c = "-"%char) && bool_decide (c' = ">"%char)
    then cur :: Visualizer.split "" s
    else Visualizer.split (cur +:+ String c "") (String c' s).
Proof. done. Qed.

Lemma split_no_arrow (cur s : string) :
  hasArrow s = false → Visualizer.split cur s = [cur +:+ s].
Proof.
  revert cur. induction s as [|c s IH]; intros cur Hno.
  - cbn. by rewrite string_app_nil_r.
  - destruct s as [|c' s]; [done|].
    cbn [hasArrow] in Hno. apply orb_false_iff in Hno as [Hcc Hno].
    rewrite split_step, Hcc, (IH _ Hno). by rewrite string_app_assoc.
Qed.

Lemma split_key (cur f t : string) :
  hasArrow f = false → hasArrow t = false →
  Visualizer.split cur (f +:+ "->" +:+ t) = [cur +:+ f; t].
Proof.
  intros Hf Ht. revert cur Hf. induction f as [|c f IH]; intros cur Hf.
  - change ("" +:+ "->" +:+ t) with (String "-" (String ">" t)).
    rewrite split_step, !bool_decide_true by done. cbn [andb].
    by rewrite split_no_arrow, string_app_nil_r.
  - change (String c f +:+ "->" +:+ t) with (String c (f +:+ "->" +:+ t)).
    assert (Visualizer.split cur (String c (f +:+ "->" +:+ t))
            = Visualizer.split (cur +:+ String c "") (f +:+ "->" +:+ t)) as ->.
    { destruct f as [|c' f].
      - change ("" +:+ "->" +:+ t) with (String "-" (String ">" t)).
        rewrite split_step. by rewrite andb_false_r.
      - cbn [hasArrow] in Hf. apply orb_false_iff in Hf as [Hcc _].
        change (String c' f +:+ "->" +:+ t) with (String c' (f +:+ "->" +:+ t)).
        by rewrite split_step, Hcc. }
    rewrite IH, string_app_assoc; [done|].
    destruct f as [|c' f]; [done|].
    cbn [hasArrow] in Hf. by apply orb_false_iff in Hf as [_ Hf].
Qed.

Lemma split_prefix (cur f rest : string) :
  hasArrow f = false →
  Visualizer.split cur (f +:+ "->" +:+ rest)
  = (cur +:+ f) :: Visualizer.split "" rest.
Proof.
  revert cur. induction f as [|c f IH]; intros cur Hf.
  - change ("" +:+ "->" +:+ rest) with (String "-" (String ">" rest)).
    rewrite split_step, !bool_decide_true by done. cbn [andb].
    by rewrite string_app_nil_r.
  - change (String c f +:+ "->" +:+ rest) with (String c (f +:+ "->" +:+ rest)).
    assert (Visualizer.split cur (String c (f +:+ "->" +:+ rest))
            = Visualizer.split (cur +:+ String c "") (f +:+ "->" +:+ rest)) as ->.
    { destruct f as [|c' f].
      - change ("" +:+ "->" +:+ rest) with (String "-" (String ">" rest)).
        rewrite split_step. by rewrite andb_false_r.
      - cbn [hasArrow] in Hf. apply orb_false_iff in Hf as [Hcc _].
        change (String c' f +:+ "->" +:+ rest)
          with (String c' (f +:+ "->" +:+ rest)).
        by rewrite split_step, Hcc. }
    rewrite IH, string_app_assoc; [done|].
    destruct f as [|c' f]; [done|].
    cbn [hasArrow] in Hf. by apply orb_false_iff in Hf as [_ Hf].
Qed.

Lemma upsert_present (key sym : string) (m : Visualizer.SymbolMap) :
  key ∈ m.*1 →
  ∃ v, Visualizer.get key m = Some v ∧
       Visualizer.replace key (v ++ [sym]) m = upsert key sym m.
Proof.
  induction m as [|[k v] m IH]; simpl; [by intros ?%elem_of_nil|].
  intros Hin. destruct (decide (k = key)) as [->|Hne]; [by exists v|].
  apply elem_of_cons in Hin as [->|Hin]; [done|].
  destruct (IH Hin) as (v' & Hget & Hrep). exists v'. by rewrite Hrep.
Qed.

Lemma upsert_absent (key sym : string) (v : list string)
    (m : Visualizer.SymbolMap) :
  key ∉ m.*1 →
  Visualizer.get key (m ++ [(key, v)]) = Some v ∧
  Visualizer.replace key (v ++ [sym]) (m ++ [(key, v)]) = m ++ [(key, v ++ [sym])] ∧
  upsert key sym m = m ++ [(key, [sym])].
Proof.
  induction m as [|[k v'] m IH]; simpl.
  - intros _. by rewrite !decide_True.
  - intros [Hne Hnot]%not_elem_of_cons. rewrite !decide_False by done.
    destruct (IH Hnot) as (-> & -> & ->). done.
Qed.

Lemma pushSymbol_upsert (m : Visualizer.SymbolMap) (t : Transition) :
  Visualizer.pushSymbol m t
  = Returned (upsert (Visualizer.key t) (Visualizer.label t) m).
Proof.
  unfold Visualizer.pushSymbol, Visualizer.set.
  destruct (Visualizer.has (Visualizer.key t) m) eqn:Hhas.
  - pose proof Hhas as Hin. apply bool_decide_eq_true in Hin.
    destruct (upsert_present _ (Visualizer.label t) _ Hin) as (v & -> & <-).
    by rewrite Hhas.
  - apply bool_decide_eq_false in Hhas.
    destruct (upsert_absent _ (Visualizer.label t) [] _ Hhas) as (-> & Hrep & ->).
    assert (Visualizer.has (Visualizer.key t) (m ++ [(Visualizer.key t, [])]) = true)
      as ->.
    { apply bool_decide_eq_true. rewrite fmap_app, elem_of_app. right. by left. }
    by rewrite Hrep.
Qed.

Lemma linkMap_entries (automaton : Automaton) :
  Visualizer.linkMap automaton = Returned (entries (transitions automaton)).
Proof.
  unfold Visualizer.linkMap, entries. generalize ([] : Visualizer.SymbolMap).
  induction (transitions automaton) as [|t ts IH]; intros m; simpl; [done|].
  rewrite pushSymbol_upsert. simpl. apply IH.
Qed.

Lemma get_upsert (k key sym : string) (m : Visualizer.SymbolMap) :
  Visualizer.get k (upsert key sym m)
  = if decide (k = key) then Some (default [] (Visualizer.get k m) ++ [sym])
    else Visualizer.get k m.
Proof.
  induction m as [|[k' v] m IH]; simpl.
  - destruct (decide (k = key)) as [->|Hne];
      [by rewrite decide_True|by rewrite decide_False].
  - destruct (decide (k' = key)) as [->|Hne]; simpl.
    + destruct (decide (key = k)) as [->|Hne'];
        [by rewrite decide_True|by rewrite decide_False].
    + destruct (decide (k' = k)) as [->|Hne'];
        [by rewrite decide_False|done].
Qed.

Lemma keys_upsert (key sym : string) (m : Visualizer.SymbolMap) :
  (upsert key sym m).*1 = if decide (key ∈ m.*1) then m.*1 else m.*1 ++ [key].
Proof.
  induction m as [|[k v] m IH]; [done|]. cbn [upsert].
  destruct (decide (k = key)) as [->|Hne]; rewrite !fmap_cons; cbn [fst].
  - rewrite decide_True; [done|by left].
  - rewrite IH. destruct (decide (key ∈ m.*1)) as [Hin|Hnot].
    + rewrite decide_True; [done|by right].
    + rewrite decide_False; [done|].
      by intros [?|?]%elem_of_cons.
Qed.

Lemma entries_snoc (ts : list Transition) (t : Transition) :
  entries (ts ++ [t])
  = upsert (Visualizer.key t) (Visualizer.label t) (entries ts).
Proof. unfold entries. by rewrite foldl_app. Qed.

Lemma NoDup_entries (ts : list Transition) : NoDup (entries ts).*1.
Proof.
  induction ts as [|t ts IH] using rev_ind; [constructor|].
  rewrite entries_snoc, keys_upsert.
  destruct (decide (_ ∈ _)) as [Hin|Hnot]; [done|].
  apply NoDup_app. split; [done|]. split; [|apply NoDup_singleton].
  by intros x Hx ->%list_elem_of_singleton.
Qed.

Lemma get_entries (ts : list Transition) (k : string) :
  Visualizer.get k (entries ts)
  = match Visualizer.label <$> filter (λ t, Visualizer.key t = k) ts with
    | [] => None
    | l => Some l
    end.
Proof.
  induction ts as [|t ts IH] using rev_ind; [done|].
  rewrite entries_snoc, get_upsert, filter_app, fmap_app, IH.
  destruct (decide (k = Visualizer.key t)) as [->|Hne].
  - rewrite filter_cons_True by done. rewrite filter_nil. simpl.
    by destruct (Visualizer.label <$> filter _ ts).
  - rewrite filter_cons_False by done. by rewrite filter_nil, app_nil_r.
Qed.

Lemma elem_of_get (m : Visualizer.SymbolMap) (k : string) (v : list string) :
  NoDup m.*1 → (k, v) ∈ m ↔ Visualizer.get k m = Some v.
Proof.
  induction m as [|[k' v'] m IH]; simpl.
  - intros _. split; [by intros ?%elem_of_nil|done].
  - intros [Hnot Hnd]%NoDup_cons. rewrite elem_of_cons, (IH Hnd).
    destruct (decide (k' = k)) as [->|Hne].
    + split; [|intros [= ->]; by left].
      intros [[= ->]|Hget]; [done|].
      apply IH in Hget; [|done]. destruct Hnot.
      apply list_elem_of_fmap. by exists (k, v).
    + split; [|by right]. by intros [[= ? ?]|?].
Qed.

Lemma filter_ext_elem_of {A : Type} (P Q : A → Prop)
    `{∀ x, Decision (P x)} `{∀ x, Decision (Q x)} (l : list A) :
  (∀ x, x ∈ l → P x ↔ Q x) → filter P l = filter Q l.
Proof.
  induction l as [|x l IH]; [done|]. intros Hext.
  assert (filter P l = filter Q l) as Hl.
  { apply IH. intros y Hy. apply Hext. by right. }
  destruct (decide (P x)) as [HP|HP].
  - rewrite !filter_cons_True; [by rewrite Hl|by apply Hext; [left|]|done].
  - rewrite !filter_cons_False; [done| |done].
    intros HQ. apply HP, Hext; [by left|done].
Qed.

Lemma elem_of_entries (ts : list Transition) (k : string) (v : list string) :
  (k, v) ∈ entries ts
  ↔ (∃ t, t ∈ ts ∧ Visualizer.key t = k) ∧
    v = Visualizer.label <$> filter (λ t, Visualizer.key t = k) ts.
Proof.
  rewrite (elem_of_get _ _ _ (NoDup_entries ts)), get_entries.
  destruct (filter _ ts) as [|t l] eqn:Hfilter; simpl.
  - split; [done|]. intros [(t & Hin & Hk) _].
    assert (t ∈ filter (λ t, Visualizer.key t = k) ts) as Ht
      by by apply list_elem_of_filter.
    rewrite Hfilter in Ht. by apply elem_of_nil in Ht.
  - assert (t ∈ filter (λ t, Visualizer.key t = k) ts) as Ht
      by (rewrite Hfilter; by left).
    apply list_elem_of_filter in Ht as [Hk Hin].
    split; [intros [= <-]; split; [by exists t|done]|by intros [_ ->]].
Qed.

Lemma split_key_transition (t : Transition) :
  hasArrow (from t) = false → hasArrow (to t) = false →
  Visualizer.split "" (Visualizer.key t) = [from t; to t].
Proof. intros Hf Ht. unfold Visualizer.key. by rewrite split_key. Qed.

(** X18. The links of the drawing group the transitions by origin and
    destination, as long as no state name of a transition contains [->]:
    the grouping never fails, there is one link for each pair of states
    joined by a transition and none else, and the symbols of a link are the
    labels of the transitions of its pair, in their order, the empty symbol
    shown as [ε]. *)
Theorem links_grouped (automaton : Automaton) :
  (∀ t, t ∈ transitions automaton →
        hasArrow (from t) = false ∧ hasArrow (to t) = false) →
  ∃ ls, Visualizer.links automaton = Returned ls ∧
        NoDup ((λ l, (Visualizer.source l, Visualizer.target l)) <$> ls) ∧
        (∀ l, l ∈ ls →
              ∃ t, t ∈ transitions automaton ∧
                   Visualizer.source l = Some (from t) ∧
                   Visualizer.target l = Some (to t) ∧
                   Visualizer.symbols l
                   = Visualizer.label
                       <$> filter (λ t', from t' = from t ∧ to t' = to t)
                                  (transitions automaton)) ∧
        (∀ t, t ∈ transitions automaton →
              ∃ l, l ∈ ls ∧ Visualizer.source l = Some (from t) ∧
                   Visualizer.target l = Some (to t)).
Proof.
  intros Hno. unfold Visualizer.links. rewrite linkMap_entries. simpl.
  eexists. split; [done|].
  assert (∀ t t', t ∈ transitions automaton → t' ∈ transitions automaton →
                  Visualizer.key t' = Visualizer.key t
                  ↔ from t' = from t ∧ to t' = to t) as Hkey.
  { intros t t' Ht Ht'. destruct (Hno t Ht), (Hno t' Ht'). split.
    - intros Heq. assert (Visualizer.split "" (Visualizer.key t')
                          = Visualizer.split "" (Visualizer.key t)) as Hsplit
        by by rewrite Heq.
      rewrite !split_key_transition in Hsplit by done.
      by injection Hsplit as -> ->.
    - intros [Hf Ht2]. unfold Visualizer.key. by rewrite Hf, Ht2. }
  split; [|split].
  - rewrite <-list_fmap_compose. apply NoDup_fmap_2_strong.
    + intros [k1 v1] [k2 v2]
        [(t1 & Ht1 & <-) ->]%elem_of_entries [(t2 & Ht2 & <-) ->]%elem_of_entries.
      simpl. destruct (Hno t1 Ht1), (Hno t2 Ht2).
      rewrite !split_key_transition by done. simpl. intros [= Hf Ht].
      assert (Visualizer.key t1 = Visualizer.key t2) as ->; [|done].
      by apply Hkey.
    + eapply NoDup_fmap_1, NoDup_entries.
  - intros l ([k v] & -> & [(t & Ht & <-) ->]%elem_of_entries)%list_elem_of_fmap.
    exists t. destruct (Hno t Ht). simpl.
    rewrite split_key_transition by done.
    split; [done|]. split; [done|]. split; [done|]. f_equal.
    apply filter_ext_elem_of. intros t' Ht'. by apply Hkey.
  - intros t Ht. destruct (Hno t Ht).
    eexists. split.
    + apply list_elem_of_fmap. eexists. split; [done|].
      apply elem_of_entries. split; [by exists t|done].
    + simpl. by rewrite split_key_transition.
Qed.

(** The links of the first automaton of the editor. *)
Lemma links_grouped_witness :
  ∃ ls, Visualizer.links INITIAL_ENFA = Returned ls ∧
        NoDup ((λ l, (Visualizer.source l, Visualizer.target l)) <$> ls).
Proof.
  destruct (links_grouped INITIAL_ENFA) as (ls & Hls & Hnd & _).
  - intros t Ht.
    apply Forall_forall with (x := t) (l := transitions INITIAL_ENFA); [|done].
    by_evaluation.
  - by exists ls.
Defined.

(** X19. A state name that contains [->] breaks the grouping: a transition
    from [u->v] to [w] and a transition from [u] to [v->w] have the same key,
    so the array [links] has one link for the two, which carries both
    labels; and when [u] and [v] contain no [->], the ends that
    [key.split("->")] gives this link are [u] and [v], a pair that neither
    transition joins. *)
Theorem links_collide (u v w a b : string) :
  Visualizer.key (mkTransition (u +:+ "->" +:+ v) w a)
  = Visualizer.key (mkTransition u (v +:+ "->" +:+ w) b) ∧
  ∀ automaton,
    transitions automaton
    = [mkTransition (u +:+ "->" +:+ v) w a; mkTransition u (v +:+ "->" +:+ w) b] →
    ∃ l, Visualizer.links automaton = Returned [l] ∧
         Visualizer.symbols l
         = [Visualizer.label (mkTransition (u +:+ "->" +:+ v) w a);
            Visualizer.label (mkTransition u (v +:+ "->" +:+ w) b)] ∧
         (hasArrow u = false → hasArrow v = false →
          Visualizer.source l = Some u ∧ Visualizer.target l = Some v).
Proof.
  assert (Visualizer.key (mkTransition (u +:+ "->" +:+ v) w a)
          = Visualizer.key (mkTransition u (v +:+ "->" +:+ w) b)) as Hkey.
  { unfold Visualizer.key. simpl. by rewrite !string_app_assoc. }
  split; [done|]. intros automaton Hts.
  unfold Visualizer.links. rewrite linkMap_entries, Hts.
  unfold entries. simpl. rewrite Hkey, decide_True by done. simpl.
  eexists. split; [done|]. split; [done|]. simpl. intros Hu Hv.
  unfold Visualizer.key. simpl. by rewrite !split_prefix.
Qed.

(** With [u = A], [v = B] and [w = C]: the one link goes from [A] to [B]. *)
Lemma links_collide_witness :
  ∃ l, Visualizer.links
         {| states := ["A->B"; "C"; "A"; "B->C"]; alphabet := ["0"; "1"];
            transitions := [mkTransition "A->B" "C" "0"; mkTransition "A" "B->C" "1"];
            initialState := "A"; finalStates := [] |} = Returned [l] ∧
       Visualizer.symbols l = ["0"; "1"] ∧
       Visualizer.source l = Some "A" ∧ Visualizer.target l = Some "B".
Proof.
  destruct (links_collide "A" "B" "C" "0" "1") as [_ H].
  destruct (H {| states := ["A->B"; "C"; "A"; "B->C"]; alphabet := ["0"; "1"];
                 transitions := [mkTransition "A->B" "C" "0";
                                 mkTransition "A" "B->C" "1"];
                 initialState := "A"; finalStates := [] |} eq_refl)
    as (l & Hl & Hsym & Hends).
  exists l. split; [exact Hl|]. split; [exact Hsym|]. by apply Hends.
Defined.

(** * The size of the result *)

(** X20. When the transitions of the input end in declared states, the NFA
    has at most [|states| * |alphabet'| * |states|] transitions, [alphabet']
    being its own alphabet, which is no longer than the one of the input; and
    it has at most as many final states as the input has states. *)
Theorem result_size (enfa : Automaton) (r : Conversion) :
  (∀ t, t ∈ transitions enfa → to t ∈ states enfa) →
  convertENFAToNFA enfa = Returned r →
  length (transitions (nfa r))
  ≤ length (states enfa) * length (alphabet (nfa r)) * length (states enfa) ∧
  length (alphabet (nfa r)) ≤ length (alphabet enfa) ∧
  length (finalStates (nfa r)) ≤ length (states enfa).
Proof.
  intros Hto Hr.
  pose proof (result_targets_declared enfa r Hto Hr) as Htargets.
  pose proof (elem_of_result_transitions enfa r Hr) as Hin.
  destruct (proj1 (convertENFAToNFA_Returned enfa r) Hr) as (nt & Hnt & ->).
  simpl in *. split; [|split; apply length_filter].
  rewrite <-!length_prod.
  rewrite <-(length_fmap (λ p : string * string * string,
                            mkTransition p.1.1 p.2 p.1.2)).
  apply submseteq_length, NoDup_submseteq;
    [by eapply projectTransitions_NoDup|].
  intros t Ht. pose proof (Htargets t Ht) as Htarget.
  apply Hin in Ht as (q & a & target & Hq & Ha & -> & _).
  apply list_elem_of_fmap. exists (q, a, target). split; [done|].
  rewrite <-!list_cprod_list_prod, !list_elem_of_cprod. done.
Qed.

(** The first automaton: nine transitions, at most [3 * 2 * 3]. *)
Lemma result_size_witness :
  length (transitions (nfa INITIAL_NFA)) ≤ 3 * 2 * 3.
Proof.
  apply (result_size INITIAL_ENFA INITIAL_NFA); [|vm_compute; reflexivity].
  intros t Ht.
  apply Forall_forall with (x := t) (l := transitions INITIAL_ENFA); [|done].
  by_evaluation.
Defined.

(** * The page and its drawings *)





